(** * Greedy graph colouring: IDO, DSATUR and RLF

    A shallow embedding of [Incidence_Degree_Ordering_(IDO).cpp] and the
    properties of its three colouring drivers.

    Conventions of the embedding.
    - [std::vector<Vertex>] is a [list Vertex]; the code indexes it from 1 and
      leaves slot 0 unused.  A [Vertex*] into the vector is the index of the
      slot it points at.
    - [int] is [Z].  Every counter of the drivers is bounded by the number of
      vertices or by a degree, so no wrap-around is modelled.
    - [vertices[i]] with [i] out of range is undefined behaviour in the
      source; the embedding reads the default vertex there and ignores a
      write.  The theorems assume a vector of [num_vertices + 1] slots.
    - [std::sort] is library code whose only guarantees are that the result
      is a permutation of the input ordered by the comparator: the relative
      order of equivalent elements is unspecified.  The drivers take it as
      an argument, the theorems assume [std_sort_contract] of it, and two
      implementations are given below, one stable and one not.
    - A [while] loop is a fixpoint on a fuel argument that returns [None]
      when the fuel runs out; the termination theorems give the fuel that
      is enough. *)

From Stdlib Require Import ZArith Lia.
From stdpp Require Import base tactics option list numbers strings sorting gmap.

Local Open Scope Z_scope.
#[local] Set Warnings "-clear-no-such-hyp".

(** ** Data model *)

(** [struct Vertex]; [color = -1] means uncolored. *)
Record Vertex := mkVertex {
  id : Z;
  degree : Z;
  color : Z;
  neighbors : list nat;
  heuristic_value : Z
}.

(** [Vertex(int i = 0)] with its default argument. *)
Definition default_vertex : Vertex := mkVertex 0 0 (-1) [] 0.

Global Instance Vertex_inhabited : Inhabited Vertex := populate default_vertex.

(** [vertices[i].color = c] *)
Definition set_color (i : nat) (c : Z) (vertices : list Vertex) : list Vertex :=
  alter (λ v, mkVertex (id v) (degree v) c (neighbors v) (heuristic_value v)) i vertices.

(** [vertices[i].heuristic_value = h] *)
Definition set_heuristic (i : nat) (h : Z) (vertices : list Vertex) : list Vertex :=
  alter (λ v, mkVertex (id v) (degree v) (color v) (neighbors v) h) i vertices.

(** ** [std::sort] *)

Definition Compare := nat → nat → bool.

(** The requirement of the standard on a comparator. *)
Record strict_weak_order (comp : Compare) : Prop := {
  swo_irrefl : ∀ a, comp a a = false;
  swo_trans : ∀ a b c, comp a b = true → comp b c = true → comp a c = true;
  swo_incomp : ∀ a b c, comp a b = false → comp b c = false → comp a c = false
}.

(** What [std::sort] promises: a permutation in which no element is ordered
    strictly before an earlier one.  It sees the comparator only through
    its results. *)
Record std_sort_contract (std_sort : Compare → list nat → list nat) : Prop := {
  std_sort_perm : ∀ comp l, std_sort comp l ≡ₚ l;
  std_sort_sorted : ∀ comp l, strict_weak_order comp →
    StronglySorted (λ a b, comp b a = false) (std_sort comp l);
  std_sort_ext : ∀ comp comp' l, (∀ a b, comp a b = comp' a b) →
    std_sort comp l = std_sort comp' l
}.

(** Insertion after the elements that are not ordered behind [x]. *)
Fixpoint insert_sorted (comp : Compare) (x : nat) (l : list nat) : list nat :=
  match l with
  | [] => [x]
  | y :: l' => if comp x y then x :: l else y :: insert_sorted comp x l'
  end.

(** An implementation that keeps equivalent elements in input order. *)
Definition insertion_sort (comp : Compare) (l : list nat) : list nat :=
  foldl (λ acc x, insert_sorted comp x acc) [] l.

(** [std::iter_swap] on the positions [i] and [j] of the sequence. *)
Definition iter_swap (i j : nat) (l : list nat) : list nat :=
  match l !! i, l !! j with
  | Some x, Some y => <[j := x]> (<[i := y]> l)
  | _, _ => l
  end.

(** [std::__move_median_to_first(result, a, b, c, comp)] of libstdc++: the
    median of the elements at [a], [b] and [c] is swapped to [result]. *)
Definition move_median_to_first (comp : Compare) (result a b c : nat) (l : list nat)
  : list nat :=
  if comp (l !!! a) (l !!! b) then
    if comp (l !!! b) (l !!! c) then iter_swap result b l
    else if comp (l !!! a) (l !!! c) then iter_swap result c l
    else iter_swap result a l
  else if comp (l !!! a) (l !!! c) then iter_swap result a l
  else if comp (l !!! b) (l !!! c) then iter_swap result c l
  else iter_swap result b l.

(** An implementation that does not keep equivalent elements in input
    order.  On more than 16 elements it begins as the introsort of libstdc++
    begins, with the pivot selection
    [__move_median_to_first(first, first + 1, mid, last - 1)], and then
    sorts by insertion. *)
Definition pivot_first_sort (comp : Compare) (l : list nat) : list nat :=
  if (16 <? length l)%nat then
    insertion_sort comp
      (move_median_to_first comp 0 1 (length l / 2) (length l - 1) l)
  else insertion_sort comp l.

(** ** [isColorValid] *)

Fixpoint isColorValid_loop (nbrs : list nat) (c : Z) (all_vertices : list Vertex) : bool :=
  match nbrs with
  | [] => true
  | neighbor_id :: rest =>
      if color (all_vertices !!! neighbor_id) =? c then false
      else isColorValid_loop rest c all_vertices
  end.

Definition isColorValid (current_vertex : Vertex) (c : Z) (all_vertices : list Vertex) : bool :=
  isColorValid_loop (neighbors current_vertex) c all_vertices.

(** ** [find_max_degree_uncolored_vertex] *)

(** One iteration of the scan; the accumulator is
    [(max_degree_vertex, max_degree)], with [None] for [nullptr]. *)
Definition find_max_step (vertices : list Vertex) (acc : option nat * Z) (i : nat)
  : option nat * Z :=
  if color (vertices !!! i) =? -1 then
    if bool_decide (acc.1 = None) || (degree (vertices !!! i) >? acc.2)
    then (Some i, degree (vertices !!! i))
    else acc
  else acc.

Definition find_max_degree_uncolored_vertex (vertices : list Vertex) (num_vertices : nat)
  : option nat :=
  (foldl (find_max_step vertices) (None, -1) (seq 1 num_vertices)).1.

(** ** [generic_greedy_coloring] *)

(** [std::set<int>::insert] on the ordered set kept as a strictly increasing list. *)
Fixpoint set_insert (x : Z) (s : list Z) : list Z :=
  match s with
  | [] => [x]
  | y :: s' =>
      if x <? y then x :: s
      else if x =? y then s
      else y :: set_insert x s'
  end.

(** The DSATUR branch: the set of the colors of the colored neighbors. *)
Definition distinct_neighbor_colors (vertices : list Vertex) (nbrs : list nat) : list Z :=
  foldl (λ s neighbor_id,
           if color (vertices !!! neighbor_id) =? -1 then s
           else set_insert (color (vertices !!! neighbor_id)) s) [] nbrs.

(** The body of the scan that computes [v_ptr->heuristic_value]. *)
Definition compute_heuristic (alg_name : string) (v_ptr : nat) (vertices : list Vertex)
  : list Vertex :=
  if String.eqb alg_name "DSATUR" then
    set_heuristic v_ptr
      (Z.of_nat (length (distinct_neighbor_colors vertices (neighbors (vertices !!! v_ptr)))))
      vertices
  else
    foldl (λ vs neighbor_id,
             if color (vs !!! neighbor_id) =? -1 then vs
             else set_heuristic v_ptr (heuristic_value (vs !!! v_ptr) + 1) vs)
          (set_heuristic v_ptr 0 vertices)
          (neighbors (vertices !!! v_ptr)).

(** The test that replaces [best_vertex_for_this_iteration]. *)
Definition better (vertices : list Vertex) (v_ptr : nat) (best : option nat) : bool :=
  match best with
  | None => true
  | Some b =>
      (heuristic_value (vertices !!! v_ptr) >? heuristic_value (vertices !!! b))
      || ((heuristic_value (vertices !!! v_ptr) =? heuristic_value (vertices !!! b))
          && (degree (vertices !!! v_ptr) >? degree (vertices !!! b)))
  end.

Definition scan_step (alg_name : string) (acc : list Vertex * option nat) (v_ptr : nat)
  : list Vertex * option nat :=
  let vs := compute_heuristic alg_name v_ptr acc.1 in
  (vs, if better vs v_ptr acc.2 then Some v_ptr else acc.2).

(** The [for (Vertex* v_ptr : uncolored_vertices_ptrs)] loop. *)
Definition select_best (alg_name : string) (vertices : list Vertex) (uncolored : list nat)
  : list Vertex * option nat :=
  foldl (scan_step alg_name) (vertices, None) uncolored.

(** The [for (int c : color_palette)] loop; [-1] when no color fits. *)
Fixpoint first_valid (palette : list Z) (v : Vertex) (vertices : list Vertex) : Z :=
  match palette with
  | [] => -1
  | c :: rest => if isColorValid v c vertices then c else first_valid rest v vertices
  end.

(** [uncolored_vertices_ptrs.erase(std::remove(..., p), ...)] *)
Definition erase_ptr (p : nat) (ptrs : list nat) : list nat :=
  filter (λ q, q ≠ p) ptrs.

(** The local variables of the driver together with the vector. *)
Record GreedyState := mkGreedy {
  g_vertices : list Vertex;
  color_palette : list Z;
  next_available_color_idx : Z;
  uncolored_vertices_ptrs : list nat
}.

(** How a driver left its loop: normally, or through the branch that prints
    the warning and breaks. *)
Inductive Exit := Finished | Warned.

Global Instance Exit_eq_dec : EqDecision Exit.
Proof. solve_decision. Defined.

(** Step 4 and the removal, for the selected vertex [best]. *)
Definition assign_color (best : nat) (st : GreedyState) : GreedyState :=
  let chosen_color :=
    first_valid (color_palette st) (g_vertices st !!! best) (g_vertices st) in
  if chosen_color =? -1 then
    mkGreedy (set_color best (next_available_color_idx st) (g_vertices st))
             (color_palette st ++ [next_available_color_idx st])
             (next_available_color_idx st + 1)
             (erase_ptr best (uncolored_vertices_ptrs st))
  else
    mkGreedy (set_color best chosen_color (g_vertices st))
             (color_palette st)
             (next_available_color_idx st)
             (erase_ptr best (uncolored_vertices_ptrs st)).

(** One iteration of the main loop: [inl] to go on, [inr] for the break. *)
Definition greedy_step (alg_name : string) (st : GreedyState) : GreedyState + GreedyState :=
  let '(vs, best) := select_best alg_name (g_vertices st) (uncolored_vertices_ptrs st) in
  let st1 := mkGreedy vs (color_palette st) (next_available_color_idx st)
                      (uncolored_vertices_ptrs st) in
  match best with
  | None => inr st1
  | Some b => inl (assign_color b st1)
  end.

(** [while (!uncolored_vertices_ptrs.empty())] *)
Fixpoint main_loop (fuel : nat) (alg_name : string) (st : GreedyState)
  : option (GreedyState * Exit) :=
  match uncolored_vertices_ptrs st with
  | [] => Some (st, Finished)
  | _ :: _ =>
      match fuel with
      | O => None
      | S fuel' =>
          match greedy_step alg_name st with
          | inl st' => main_loop fuel' alg_name st'
          | inr st' => Some (st', Warned)
          end
      end
  end.

(** The first loop of each driver: [vertices[i].color = -1] for [i] in [1..n]. *)
Definition reset_colors (num_vertices : nat) (vertices : list Vertex) : list Vertex :=
  foldl (λ vs i, set_color i (-1) vs) vertices (seq 1 num_vertices).

(** The comparator of the initial sort: [a->degree > b->degree]. *)
Definition by_degree (vertices : list Vertex) : Compare :=
  λ a b, degree (vertices !!! a) >? degree (vertices !!! b).

(** The driver up to the main loop.  For an empty pointer list the source
    returns 0 at once: that is the state with nothing left to color. *)
Definition bootstrap (std_sort : Compare → list nat → list nat) (vertices : list Vertex) (num_vertices : nat)
  : GreedyState :=
  let vs := reset_colors num_vertices vertices in
  match seq 1 num_vertices with
  | [] => mkGreedy vs [] 0 []
  | _ :: _ =>
      let sorted := std_sort (by_degree vs) (seq 1 num_vertices) in
      let initial_vertex := sorted !!! 0%nat in
      mkGreedy (set_color initial_vertex 0 vs) [0] 1 (erase_ptr initial_vertex sorted)
  end.

(** The whole run, with the locals it ends with. *)
Definition generic_greedy_run (std_sort : Compare → list nat → list nat) (fuel : nat)
    (vertices : list Vertex) (num_vertices : nat) (alg_name : string)
  : option (GreedyState * Exit) :=
  main_loop fuel alg_name (bootstrap std_sort vertices num_vertices).

(** What the caller sees: the vector and the returned count. *)
Definition generic_greedy_coloring (std_sort : Compare → list nat → list nat) (fuel : nat)
    (vertices : list Vertex) (num_vertices : nat) (alg_name : string)
  : option (list Vertex * Z) :=
  r ← generic_greedy_run std_sort fuel vertices num_vertices alg_name;
  Some (g_vertices r.1, next_available_color_idx r.1).

Definition IDO_coloring (std_sort : Compare → list nat → list nat) (fuel : nat)
    (vertices : list Vertex) (num_vertices : nat) : option (list Vertex * Z) :=
  generic_greedy_coloring std_sort fuel vertices num_vertices "IDO".

Definition DSATUR_coloring (std_sort : Compare → list nat → list nat) (fuel : nat)
    (vertices : list Vertex) (num_vertices : nat) : option (list Vertex * Z) :=
  generic_greedy_coloring std_sort fuel vertices num_vertices "DSATUR".

(** ** [RLF_coloring] *)

Record RLFState := mkRLF {
  r_vertices : list Vertex;
  current_color : Z;
  total_colored_vertices : Z
}.

(** [forbidden_for_current_color[neighbor_id] = true] for every neighbor. *)
Definition mark_forbidden (nbrs : list nat) (forbidden : list bool) : list bool :=
  foldl (λ f neighbor_id, <[neighbor_id := true]> f) forbidden nbrs.

(** [current_adj_in_U] *)
Definition count_adj_in_U (forbidden : list bool) (nbrs : list nat) : Z :=
  foldl (λ cnt neighbor_of_vk, if (forbidden !!! neighbor_of_vk : bool) then cnt + 1 else cnt)
        0 nbrs.

(** The test that replaces [v_j_candidate]. *)
Definition rlf_better (vertices : list Vertex) (k : nat) (cand : option nat) (max_adj_in_U : Z)
  : bool :=
  match cand with
  | None => true
  | Some c =>
      (heuristic_value (vertices !!! k) >? max_adj_in_U)
      || ((heuristic_value (vertices !!! k) =? max_adj_in_U)
          && (degree (vertices !!! k) >? degree (vertices !!! c)))
  end.

(** One iteration of [for (int k = 1; k <= num_vertices; ++k)]; the
    accumulator is [(vertices, v_j_candidate, max_adj_in_U)]. *)
Definition rlf_scan_step (forbidden : list bool) (acc : list Vertex * option nat * Z) (k : nat)
  : list Vertex * option nat * Z :=
  let '(vs, cand, max_adj_in_U) := acc in
  if (color (vs !!! k) =? -1) && negb (forbidden !!! k : bool) then
    let vs' := set_heuristic k (count_adj_in_U forbidden (neighbors (vs !!! k))) vs in
    if rlf_better vs' k cand max_adj_in_U
    then (vs', Some k, heuristic_value (vs' !!! k))
    else (vs', cand, max_adj_in_U)
  else acc.

Definition rlf_scan (forbidden : list bool) (vertices : list Vertex) (num_vertices : nat)
  : list Vertex * option nat * Z :=
  foldl (rlf_scan_step forbidden) (vertices, None, -1) (seq 1 num_vertices).

(** The inner [while (true)] that grows the current color class. *)
Fixpoint rlf_class_loop (fuel : nat) (num_vertices : nat) (forbidden : list bool)
    (st : RLFState) : option RLFState :=
  match fuel with
  | O => None
  | S fuel' =>
      let '(vs, cand, _) := rlf_scan forbidden (r_vertices st) num_vertices in
      match cand with
      | None => Some (mkRLF vs (current_color st) (total_colored_vertices st))
      | Some j =>
          rlf_class_loop fuel' num_vertices
            (mark_forbidden (neighbors (vs !!! j)) forbidden)
            (mkRLF (set_color j (current_color st) vs) (current_color st)
                   (total_colored_vertices st + 1))
      end
  end.

(** The body of the outer loop once the seed [v_i] is known. *)
Definition rlf_class (fuel : nat) (num_vertices : nat) (v_i : nat) (st : RLFState)
  : option RLFState :=
  let vs := set_color v_i (current_color st) (r_vertices st) in
  let forbidden :=
    mark_forbidden (neighbors (vs !!! v_i)) (replicate (num_vertices + 1) false) in
  st' ← rlf_class_loop fuel num_vertices forbidden
         (mkRLF vs (current_color st) (total_colored_vertices st + 1));
  Some (mkRLF (r_vertices st') (current_color st' + 1) (total_colored_vertices st')).

(** [while (total_colored_vertices < num_vertices)]; [inner] is the fuel of
    each inner loop. *)
Fixpoint rlf_loop (inner fuel : nat) (num_vertices : nat) (st : RLFState)
  : option (RLFState * Exit) :=
  if total_colored_vertices st <? Z.of_nat num_vertices then
    match fuel with
    | O => None
    | S fuel' =>
        match find_max_degree_uncolored_vertex (r_vertices st) num_vertices with
        | None => Some (st, Warned)
        | Some v_i =>
            st' ← rlf_class inner num_vertices v_i st;
            rlf_loop inner fuel' num_vertices st'
        end
    end
  else Some (st, Finished).

Definition RLF_run (fuel : nat) (vertices : list Vertex) (num_vertices : nat)
  : option (RLFState * Exit) :=
  rlf_loop fuel fuel num_vertices (mkRLF (reset_colors num_vertices vertices) 0 0).

Definition RLF_coloring (fuel : nat) (vertices : list Vertex) (num_vertices : nat)
  : option (list Vertex * Z) :=
  r ← RLF_run fuel vertices num_vertices;
  Some (r_vertices r.1, current_color r.1).

(** ** Building graphs as [readGraphFile] does *)

(** The vector after the [p] line: [num_vertices + 1] fresh slots. *)
Definition empty_graph (num_vertices : nat) : list Vertex :=
  default_vertex :: map (λ i, mkVertex (Z.of_nat i) 0 (-1) [] 0) (seq 1 num_vertices).

(** An [e u v] line; an endpoint out of range only prints a warning. *)
Definition add_edge (num_vertices : nat) (vertices : list Vertex) (e : nat * nat)
  : list Vertex :=
  let '(u, v) := e in
  if bool_decide (0 < u ∧ u ≤ num_vertices ∧ 0 < v ∧ v ≤ num_vertices)%nat then
    let push (w : nat) (x : Vertex) :=
      mkVertex (id x) (degree x) (color x) (neighbors x ++ [w]) (heuristic_value x) in
    let incr (x : Vertex) :=
      mkVertex (id x) (degree x + 1) (color x) (neighbors x) (heuristic_value x) in
    alter incr v (alter incr u (alter (push u) v (alter (push v) u vertices)))
  else vertices.

Definition load_graph (num_vertices : nat) (edges : list (nat * nat)) : list Vertex :=
  foldl (add_edge num_vertices) (empty_graph num_vertices) edges.

Definition colors_of (vertices : list Vertex) : list Z := map color (tail vertices).

(** ** Vocabulary of the statements *)

(** The graphs the loader hands to the drivers: [num_vertices + 1] slots,
    neighbor indices in [1..num_vertices], symmetric adjacency. *)
Record well_formed (vertices : list Vertex) (n : nat) : Prop := {
  wf_length : length vertices = S n;
  wf_range : ∀ u v, (1 ≤ u ≤ n)%nat → v ∈ neighbors (vertices !!! u) → (1 ≤ v ≤ n)%nat;
  wf_symmetric : ∀ u v, (1 ≤ u ≤ n)%nat →
    v ∈ neighbors (vertices !!! u) → u ∈ neighbors (vertices !!! v)
}.

(** No vertex is its own neighbor. *)
Definition loop_free (vertices : list Vertex) (n : nat) : Prop :=
  ∀ u, (1 ≤ u ≤ n)%nat → u ∉ neighbors (vertices !!! u).

(** The graph has no edge at all. *)
Definition edgeless (vertices : list Vertex) (n : nat) : Prop :=
  ∀ u, (1 ≤ u ≤ n)%nat → neighbors (vertices !!! u) = [].

(** The two ends of every edge have different colors. *)
Definition proper_coloring (vertices : list Vertex) (n : nat) : Prop :=
  ∀ u v, (1 ≤ u ≤ n)%nat → v ∈ neighbors (vertices !!! u) →
    color (vertices !!! u) ≠ color (vertices !!! v).

Definition all_colored (vertices : list Vertex) (n : nat) : Prop :=
  ∀ u, (1 ≤ u ≤ n)%nat → color (vertices !!! u) ≠ -1.

(** The same graph: equal in everything but colors and heuristic values. *)
Definition same_graph (vs1 vs2 : list Vertex) : Prop :=
  length vs1 = length vs2 ∧
  ∀ i, id (vs1 !!! i) = id (vs2 !!! i) ∧ degree (vs1 !!! i) = degree (vs2 !!! i) ∧
       neighbors (vs1 !!! i) = neighbors (vs2 !!! i).

Definition same_colors (vs1 vs2 : list Vertex) : Prop :=
  ∀ i, color (vs1 !!! i) = color (vs2 !!! i).

(** Equal in everything but the heuristic values. *)
Definition same_but_heuristic (vs1 vs2 : list Vertex) : Prop :=
  same_graph vs1 vs2 ∧ same_colors vs1 vs2.

(** The colors of the colored neighbors of [v], one entry per neighbor. *)
Definition colored_neighbor_colors (vertices : list Vertex) (v : nat) : list Z :=
  filter (λ c, c ≠ -1) ((λ w, color (vertices !!! w)) <$> neighbors (vertices !!! v)).

(** The saturation degree of the glossary: the number of distinct colors
    among the colored neighbors. *)
Definition saturation (vertices : list Vertex) (v : nat) : Z :=
  Z.of_nat (size (list_to_set (colored_neighbor_colors vertices v) : gset Z)).

(** The number of colored neighbors. *)
Definition colored_neighbor_count (vertices : list Vertex) (v : nat) : Z :=
  Z.of_nat (length (colored_neighbor_colors vertices v)).

(** The heuristic of the selector, as a function of the current coloring. *)
Definition heuristic (alg_name : string) (vertices : list Vertex) (v : nat) : Z :=
  if String.eqb alg_name "DSATUR" then saturation vertices v
  else colored_neighbor_count vertices v.

(** The comparison of the selector on the heuristic of the current coloring. *)
Definition prefer (alg_name : string) (vertices : list Vertex) (v : nat) (best : option nat)
  : bool :=
  match best with
  | None => true
  | Some b =>
      (heuristic alg_name vertices v >? heuristic alg_name vertices b)
      || ((heuristic alg_name vertices v =? heuristic alg_name vertices b)
          && (degree (vertices !!! v) >? degree (vertices !!! b)))
  end.

(** The vertex the selector returns, as a function of the current coloring. *)
Definition selected (alg_name : string) (vertices : list Vertex) (uncolored : list nat)
  : option nat :=
  foldl (λ best v, if prefer alg_name vertices v best then Some v else best) None uncolored.

(** [isFeasible(v, c)]: no neighbor of [v] holds color [c]. *)
Definition feasible (vertices : list Vertex) (v : nat) (c : Z) : Prop :=
  ∀ w, w ∈ neighbors (vertices !!! v) → color (vertices !!! w) ≠ c.

(** The states of the main loop of a run that starts in [st0]. *)
Inductive greedy_reachable (alg_name : string) (st0 : GreedyState) : GreedyState → Prop :=
  | greedy_reach_start : greedy_reachable alg_name st0 st0
  | greedy_reach_step st st' :
      greedy_reachable alg_name st0 st →
      uncolored_vertices_ptrs st ≠ [] →
      greedy_step alg_name st = inl st' →
      greedy_reachable alg_name st0 st'.

(** The invariant of the main loop. *)
Record greedy_inv (n : nat) (st : GreedyState) : Prop := {
  gi_length : length (g_vertices st) = S n;
  gi_nodup : NoDup (uncolored_vertices_ptrs st);
  gi_uncolored : ∀ v, v ∈ uncolored_vertices_ptrs st ↔
                      (1 ≤ v ≤ n)%nat ∧ color (g_vertices st !!! v) = -1;
  gi_palette : color_palette st = seqZ 0 (next_available_color_idx st);
  gi_next : 0 ≤ next_available_color_idx st;
  gi_colors : ∀ v, (1 ≤ v ≤ n)%nat →
    color (g_vertices st !!! v) = -1 ∨
    0 ≤ color (g_vertices st !!! v) < next_available_color_idx st;
  gi_used : ∀ c, 0 ≤ c < next_available_color_idx st →
    ∃ v, (1 ≤ v ≤ n)%nat ∧ color (g_vertices st !!! v) = c
}.

(** No colored vertex shares its color with a neighbor. *)
Definition partial_proper (vertices : list Vertex) (n : nat) : Prop :=
  ∀ u v, (1 ≤ u ≤ n)%nat → v ∈ neighbors (vertices !!! u) →
    color (vertices !!! u) ≠ -1 → color (vertices !!! u) ≠ color (vertices !!! v).

(** [v] is the first vertex, in index order, among the uncolored vertices of
    maximum degree. *)
Definition first_max_degree_uncolored (vertices : list Vertex) (n : nat) (v : nat) : Prop :=
  (1 ≤ v ≤ n)%nat ∧ color (vertices !!! v) = -1 ∧
  (∀ u, (1 ≤ u ≤ n)%nat → color (vertices !!! u) = -1 →
        degree (vertices !!! u) ≤ degree (vertices !!! v)) ∧
  (∀ u, (1 ≤ u < v)%nat → color (vertices !!! u) = -1 →
        degree (vertices !!! u) < degree (vertices !!! v)).

(** The number of uncolored vertices. *)
Definition uncolored_count (vertices : list Vertex) (n : nat) : nat :=
  length (filter (λ i, color (vertices !!! i) = -1) (seq 1 n)).

(** The candidate scan of RLF as a function of the coloring and the
    forbidden set; the accumulator is [(v_j_candidate, max_adj_in_U)]. *)
Definition rlf_candidate_step (forbidden : list bool) (vertices : list Vertex)
    (acc : option nat * Z) (k : nat) : option nat * Z :=
  if (color (vertices !!! k) =? -1) && negb (forbidden !!! k : bool) then
    let adj := count_adj_in_U forbidden (neighbors (vertices !!! k)) in
    match acc.1 with
    | None => (Some k, adj)
    | Some c =>
        if (adj >? acc.2) || ((adj =? acc.2) && (degree (vertices !!! k) >? degree (vertices !!! c)))
        then (Some k, adj) else acc
    end
  else acc.

Definition rlf_candidate (forbidden : list bool) (vertices : list Vertex) (n : nat)
  : option nat * Z :=
  foldl (rlf_candidate_step forbidden vertices) (None, -1) (seq 1 n).

(** The invariant of the outer loop of RLF.  The last field is the
    feasibility invariant, which needs a well-formed graph without loops. *)
Record rlf_inv (n : nat) (st : RLFState) : Prop := {
  ri_length : length (r_vertices st) = S n;
  ri_current : 0 ≤ current_color st;
  ri_total :
    total_colored_vertices st + Z.of_nat (uncolored_count (r_vertices st) n) = Z.of_nat n;
  ri_colors : ∀ v, (1 ≤ v ≤ n)%nat →
    color (r_vertices st !!! v) = -1 ∨ 0 ≤ color (r_vertices st !!! v) < current_color st;
  ri_used : ∀ c, 0 ≤ c < current_color st →
    ∃ v, (1 ≤ v ≤ n)%nat ∧ color (r_vertices st !!! v) = c;
  ri_proper : well_formed (r_vertices st) n → loop_free (r_vertices st) n →
    partial_proper (r_vertices st) n
}.

(** The invariant of the inner loop: the outer invariant with the active
    color counted in, and every neighbor of the class forbidden. *)
Record rlf_class_inv (n : nat) (forbidden : list bool) (st : RLFState) : Prop := {
  rc_inv : rlf_inv n (mkRLF (r_vertices st) (current_color st + 1) (total_colored_vertices st));
  rc_current : 0 ≤ current_color st;
  rc_length : length forbidden = S n;
  rc_forbidden : ∀ u w, (1 ≤ u ≤ n)%nat → (1 ≤ w ≤ n)%nat →
    color (r_vertices st !!! u) = current_color st →
    w ∈ neighbors (r_vertices st !!! u) → forbidden !!! w = true
}.

(** Two states of a driver that differ at most in heuristic values. *)
Definition greedy_equiv (st1 st2 : GreedyState) : Prop :=
  same_but_heuristic (g_vertices st1) (g_vertices st2) ∧
  color_palette st1 = color_palette st2 ∧
  next_available_color_idx st1 = next_available_color_idx st2 ∧
  uncolored_vertices_ptrs st1 = uncolored_vertices_ptrs st2.

Definition rlf_equiv (st1 st2 : RLFState) : Prop :=
  same_but_heuristic (r_vertices st1) (r_vertices st2) ∧
  current_color st1 = current_color st2 ∧
  total_colored_vertices st1 = total_colored_vertices st2.

(** The states at the head of the outer loop of an RLF run that starts in
    [st0], with [inner] the fuel of each inner loop. *)
Inductive rlf_reachable (inner n : nat) (st0 : RLFState) : RLFState → Prop :=
  | rlf_reach_start : rlf_reachable inner n st0 st0
  | rlf_reach_step st v_i st' :
      rlf_reachable inner n st0 st →
      total_colored_vertices st < Z.of_nat n →
      find_max_degree_uncolored_vertex (r_vertices st) n = Some v_i →
      rlf_class inner n v_i st = Some st' →
      rlf_reachable inner n st0 st'.

(** Executable checks of the hypotheses, for concrete graphs. *)
Definition well_formedb (vertices : list Vertex) (n : nat) : bool :=
  (length vertices =? S n)%nat &&
  forallb (λ u, forallb (λ v, (1 <=? v)%nat && (v <=? n)%nat &&
                              existsb (Nat.eqb u) (neighbors (vertices !!! v)))
                        (neighbors (vertices !!! u)))
          (seq 1 n).

Definition loop_freeb (vertices : list Vertex) (n : nat) : bool :=
  forallb (λ u, negb (existsb (Nat.eqb u) (neighbors (vertices !!! u)))) (seq 1 n).

(** [k] iterations of the main loop, for the examples. *)
Fixpoint greedy_steps (k : nat) (alg_name : string) (st : GreedyState) : GreedyState :=
  match k with
  | O => st
  | S k' =>
      match uncolored_vertices_ptrs st with
      | [] => st
      | _ :: _ =>
          match greedy_step alg_name st with
          | inl st' => greedy_steps k' alg_name st'
          | inr _ => st
          end
      end
  end.

(** What the claims say of the result of a driver. *)

(** The driver returns, and leaves the graph properly and fully colored. *)
Definition valid_coloring (vertices : list Vertex) (n : nat)
    (result : option (list Vertex * Z)) : Prop :=
  ∃ vs' k, result = Some (vs', k) ∧ same_graph vertices vs' ∧
           proper_coloring vs' n ∧ all_colored vs' n.

(** The driver returns 0 for no vertex, at least 1 otherwise, and exactly 1
    if and only if there is no edge. *)
Definition count_bounds (vertices : list Vertex) (n : nat)
    (result : option (list Vertex * Z)) : Prop :=
  ∃ vs' k, result = Some (vs', k) ∧
           (n = 0%nat → k = 0) ∧ ((0 < n)%nat → 1 ≤ k) ∧
           ((0 < n)%nat → (k = 1 ↔ edgeless vertices n)).

(** The driver returns [k], and the colors in use are exactly [0 .. k-1]. *)
Definition colors_initial_segment (n : nat) (result : option (list Vertex * Z)) : Prop :=
  ∃ vs' k, result = Some (vs', k) ∧ 0 ≤ k ∧
           ∀ c, (∃ v, (1 ≤ v ≤ n)%nat ∧ color (vs' !!! v) = c) ↔ 0 ≤ c < k.

(** Two results with the same count and the same color on every vertex, or
    no result on either side. *)
Definition same_result (r1 r2 : option (list Vertex * Z)) : Prop :=
  option_Forall2 (λ x y, same_colors x.1 y.1 ∧ x.2 = y.2) r1 r2.

(** The graphs of the end-to-end scenarios, and a single vertex with a loop. *)
Definition cycle4 : list Vertex := load_graph 4 [(1, 2); (2, 3); (3, 4); (4, 1)]%nat.
Definition triangle : list Vertex := load_graph 3 [(1, 2); (2, 3); (1, 3)]%nat.
Definition star6 : list Vertex := load_graph 6 [(1, 2); (1, 3); (1, 4); (1, 5); (1, 6)]%nat.
Definition edgeless5 : list Vertex := load_graph 5 [].
Definition edgeless17 : list Vertex := load_graph 17 [].
Definition single_loop : list Vertex := load_graph 1 [(1, 1)]%nat.

(** The triangle with a stale heuristic value left in vertex 2. *)
Definition triangle_stale : list Vertex := set_heuristic 2 7 triangle.

(** ** Vocabulary for the rest of the source *)

(** The two keys of a selection, primary first, compared lexicographically. *)
Definition key_lt (k1 k2 : Z * Z) : Prop :=
  k1.1 < k2.1 ∨ (k1.1 = k2.1 ∧ k1.2 < k2.2).

Definition key_le (k1 k2 : Z * Z) : Prop :=
  k1.1 < k2.1 ∨ (k1.1 = k2.1 ∧ k1.2 ≤ k2.2).

(** The keys of the selector of the generic driver: heuristic, then degree. *)
Definition selector_key (alg_name : string) (vertices : list Vertex) (v : nat) : Z * Z :=
  (heuristic alg_name vertices v, degree (vertices !!! v)).

(** The keys of the candidate scan of RLF: neighbors in the forbidden set,
    then degree. *)
Definition rlf_key (forbidden : list bool) (vertices : list Vertex) (k : nat) : Z * Z :=
  (count_adj_in_U forbidden (neighbors (vertices !!! k)), degree (vertices !!! k)).

(** Every vertex has a neighbor of each color below its own. *)
Definition greedy_property (vertices : list Vertex) (n : nat) : Prop :=
  ∀ v x, (1 ≤ v ≤ n)%nat → 0 ≤ x < color (vertices !!! v) →
    ∃ w, w ∈ neighbors (vertices !!! v) ∧ color (vertices !!! w) = x.

(** The invariant of RLF behind the maximality of its classes: every vertex
    has a neighbor of each color below its own, an uncolored vertex counting
    as colored with the active color [cur]. *)
Definition covered_below (vertices : list Vertex) (n : nat) (cur : Z) : Prop :=
  ∀ v x, (1 ≤ v ≤ n)%nat →
    0 ≤ x < (if decide (color (vertices !!! v) = -1) then cur else color (vertices !!! v)) →
    ∃ w, w ∈ neighbors (vertices !!! v) ∧ color (vertices !!! w) = x.

(** Only neighbors of the members of the active class are forbidden. *)
Definition forbidden_justified (n : nat) (forbidden : list bool) (vertices : list Vertex)
    (cur : Z) : Prop :=
  ∀ w, (1 ≤ w ≤ n)%nat → forbidden !!! w = true →
    ∃ u, (1 ≤ u ≤ n)%nat ∧ color (vertices !!! u) = cur ∧ w ∈ neighbors (vertices !!! u).

(** A vertex the candidate scan of RLF may take: uncolored and not forbidden. *)
Definition eligible (forbidden : list bool) (vertices : list Vertex) (k : nat) : Prop :=
  color (vertices !!! k) = -1 ∧ forbidden !!! k = false.

(** ** [readGraphFile] *)

(** A line of the file as the extractions of the parser see it: [iss >> type]
    fails on a blank line; a [p] line and an [e] line carry their fields, or
    none when the extraction of the fields fails; a line that starts with any
    other character takes no branch. *)
Inductive Line :=
  | Blank
  | Comment
  | Problem (fields : option (string * Z * Z))
  | EdgeLine (fields : option (Z * Z))
  | OtherLine.

(** The variables of the parser. *)
Record Loader := mkLoader {
  l_vertices : list Vertex;
  l_num_vertices : Z;
  l_num_edges : Z;
  problem_line_found : bool
}.

(** What a line does: the loop goes on, the function returns false, or
    [vertices.resize] throws on a size that is negative as an [int]. *)
Inductive LineResult :=
  | Continue (st : Loader)
  | ReturnFalse
  | Throw.

(** What the caller gets: true with the vector and the two counts, false, or
    the exception. *)
Inductive LoadResult :=
  | Loaded (vertices : list Vertex) (num_vertices num_edges : Z)
  | Failed
  | Aborted.

(** [vertices.resize(k)] *)
Definition resize (k : nat) (vertices : list Vertex) : list Vertex :=
  take k vertices ++ replicate (k - length vertices) default_vertex.

(** The body of the loop after [resize]: every field of slot [i] is set. *)
Definition reset_vertex (i : nat) (vertices : list Vertex) : list Vertex :=
  alter (λ _, mkVertex (Z.of_nat i) 0 (-1) [] 0) i vertices.

(** The [p] branch once the type is accepted. *)
Definition problem_vertices (num_vertices : Z) (vertices : list Vertex) : list Vertex :=
  foldl (λ vs i, reset_vertex i vs)
        (resize (Z.to_nat (num_vertices + 1)) vertices)
        (seq 1 (Z.to_nat num_vertices)).

(** The four statements of the [e] branch for endpoints in range. *)
Definition push_edge (u v : nat) (vertices : list Vertex) : list Vertex :=
  let push (w : nat) (x : Vertex) :=
    mkVertex (id x) (degree x) (color x) (neighbors x ++ [w]) (heuristic_value x) in
  let incr (x : Vertex) :=
    mkVertex (id x) (degree x + 1) (color x) (neighbors x) (heuristic_value x) in
  alter incr v (alter incr u (alter (push u) v (alter (push v) u vertices))).

(** One iteration of [while (std::getline(file, line))].  The integers are
    those the extractions accept, so they fit an [int]; [num_vertices + 1] is
    taken without wrap-around, as it is for every count below [INT_MAX]. *)
Definition read_line (line : Line) (st : Loader) : LineResult :=
  match line with
  | Blank => Continue st
  | Comment => Continue st
  | Problem None => ReturnFalse
  | Problem (Some (problem_type, num_vertices, num_edges)) =>
      if negb (String.eqb problem_type "edge") && negb (String.eqb problem_type "col")
      then ReturnFalse
      else if num_vertices + 1 <? 0 then Throw
      else Continue (mkLoader (problem_vertices num_vertices (l_vertices st))
                              num_vertices num_edges true)
  | EdgeLine fields =>
      if negb (problem_line_found st) then ReturnFalse
      else match fields with
           | None => ReturnFalse
           | Some (u, v) =>
               if (u >? 0) && (u <=? l_num_vertices st) && (v >? 0) && (v <=? l_num_vertices st)
               then Continue (mkLoader (push_edge (Z.to_nat u) (Z.to_nat v) (l_vertices st))
                                       (l_num_vertices st) (l_num_edges st)
                                       (problem_line_found st))
               else Continue st
           end
  | OtherLine => Continue st
  end.

(** The loop and the test after it. *)
Fixpoint read_lines (lines : list Line) (st : Loader) : LoadResult :=
  match lines with
  | [] =>
      if problem_line_found st
      then Loaded (l_vertices st) (l_num_vertices st) (l_num_edges st)
      else Failed
  | line :: rest =>
      match read_line line st with
      | Continue st' => read_lines rest st'
      | ReturnFalse => Failed
      | Throw => Aborted
      end
  end.

(** [readGraphFile]; [file] is [None] when the file cannot be opened.  The
    vector and the counts are the caller's, with what an earlier call left
    in them. *)
Definition readGraphFile (file : option (list Line)) (vertices : list Vertex)
    (num_vertices num_edges : Z) : LoadResult :=
  match file with
  | None => Failed
  | Some lines => read_lines lines (mkLoader [] num_vertices num_edges false)
  end.

(** The endpoints of the well-formed [e] lines, in order. *)
Definition edge_pairs (lines : list Line) : list (nat * nat) :=
  omap (λ line, match line with
                | EdgeLine (Some (u, v)) => Some (Z.to_nat u, Z.to_nat v)
                | _ => None
                end) lines.

(** An edge with both endpoints in [1..n]. *)
Definition in_range (n : nat) (e : nat * nat) : Prop :=
  (0 < e.1 ∧ e.1 ≤ n ∧ 0 < e.2 ∧ e.2 ≤ n)%nat.

Global Instance in_range_dec n e : Decision (in_range n e).
Proof. unfold in_range. apply _. Defined.

(** A line after which the function cannot return true. *)
Definition rejected (line : Line) : Prop :=
  match line with
  | Problem None => True
  | Problem (Some (problem_type, _, _)) => problem_type ≠ "edge"%string ∧ problem_type ≠ "col"%string
  | EdgeLine None => True
  | _ => False
  end.

Definition is_problem (line : Line) : Prop :=
  match line with Problem _ => True | _ => False end.

(** A line that is a comment, blank, or of an unknown kind. *)
Definition is_noise (line : Line) : Prop :=
  match line with Blank | Comment | OtherLine => True | _ => False end.

(** An [e] line from a vertex to itself. *)
Definition is_self_loop (line : Line) : Prop :=
  match line with EdgeLine (Some (u, v)) => u = v | _ => False end.

(** The state of the vector as the loader leaves it for a count [n]. *)
Record loaded_graph (vertices : list Vertex) (n : nat) : Prop := {
  lg_well_formed : well_formed vertices n;
  lg_fresh : ∀ i, (1 ≤ i ≤ n)%nat →
    id (vertices !!! i) = Z.of_nat i ∧ color (vertices !!! i) = -1 ∧
    heuristic_value (vertices !!! i) = 0 ∧
    degree (vertices !!! i) = Z.of_nat (length (neighbors (vertices !!! i)))
}.

(** The sum of the degree counters of the vertices [1..n]. *)
Definition sum_degrees (vertices : list Vertex) (n : nat) : Z :=
  foldl (λ acc i, acc + degree (vertices !!! i)) 0 (seq 1 n).

(** ** The calls of [main] on a loaded graph *)

(** The three drivers in the order of [main], each on the vector the one
    before it left; the result is the final vector and the three counts. *)
Definition run_drivers (std_sort : Compare → list nat → list nat) (fuel : nat)
    (vertices : list Vertex) (num_vertices : nat) : option (list Vertex * (Z * Z * Z)) :=
  ido ← IDO_coloring std_sort fuel vertices num_vertices;
  dsatur ← DSATUR_coloring std_sort fuel ido.1 num_vertices;
  rlf ← RLF_coloring fuel dsatur.1 num_vertices;
  Some (rlf.1, (ido.2, dsatur.2, rlf.2)).

(** A file with the triangle, a comment, and an edge out of range. *)
Definition triangle_file : list Line :=
  [Comment; Problem (Some ("edge"%string, 3, 3)); EdgeLine (Some (1, 2));
   EdgeLine (Some (2, 3)); Blank; EdgeLine (Some (1, 3)); EdgeLine (Some (3, 4))].

(** * Properties *)

(** ** The two implementations of [std::sort] *)

Section sorting.
Variable comp : Compare.

Lemma insert_sorted_perm x l : insert_sorted comp x l ≡ₚ x :: l.
Proof.
  induction l as [|y l IH]; simpl; [done|].
  destruct (comp x y); [done|]. rewrite IH. apply Permutation_swap.
Qed.

Lemma insertion_sort_perm l : insertion_sort comp l ≡ₚ l.
Proof.
  unfold insertion_sort.
  assert (∀ acc, foldl (λ acc x, insert_sorted comp x acc) acc l ≡ₚ l ++ acc) as H.
  { induction l as [|x l IH]; intros acc; simpl; [done|].
    rewrite IH, insert_sorted_perm. by rewrite Permutation_middle. }
  rewrite H. by rewrite app_nil_r.
Qed.

Hypothesis Hcomp : strict_weak_order comp.

Lemma insert_sorted_sorted x l :
  StronglySorted (λ a b, comp b a = false) l →
  StronglySorted (λ a b, comp b a = false) (insert_sorted comp x l).
Proof.
  induction 1 as [|y l Hl IH Hy]; simpl.
  - repeat constructor.
  - destruct (comp x y) eqn:Hxy.
    + constructor; [by constructor|]. constructor.
      * destruct (comp y x) eqn:Hyx; [|done].
        rewrite <- (swo_irrefl _ Hcomp x). symmetry. eapply swo_trans; eauto.
      * eapply Forall_impl; [exact Hy|]. intros z Hz. simpl in Hz.
        destruct (comp z x) eqn:Hzx; [|done].
        rewrite <- Hz. symmetry. eapply swo_trans; eauto.
    + constructor; [done|]. rewrite insert_sorted_perm. by constructor.
Qed.

Lemma insertion_sort_sorted l :
  StronglySorted (λ a b, comp b a = false) (insertion_sort comp l).
Proof.
  unfold insertion_sort.
  assert (∀ acc, StronglySorted (λ a b, comp b a = false) acc →
    StronglySorted (λ a b, comp b a = false)
      (foldl (λ acc x, insert_sorted comp x acc) acc l)) as H.
  { induction l as [|x l IH]; intros acc Hacc; simpl; [done|].
    apply IH. by apply insert_sorted_sorted. }
  apply H. constructor.
Qed.

End sorting.

Lemma insertion_sort_ext comp comp' l :
  (∀ a b, comp a b = comp' a b) → insertion_sort comp l = insertion_sort comp' l.
Proof.
  intros Hext. unfold insertion_sort. generalize (@nil nat).
  induction l as [|x l IH]; intros acc; simpl; [done|].
  rewrite IH. f_equal. clear IH.
  induction acc as [|y acc IH]; simpl; [done|]. by rewrite Hext, IH.
Qed.

Lemma insertion_sort_contract : std_sort_contract insertion_sort.
Proof.
  split.
  - intros. apply insertion_sort_perm.
  - intros. by apply insertion_sort_sorted.
  - intros. by apply insertion_sort_ext.
Qed.

Lemma iter_swap_perm i j l : iter_swap i j l ≡ₚ l.
Proof.
  unfold iter_swap. destruct (l !! i) as [x|] eqn:Hi; [|done].
  destruct (l !! j) as [y|] eqn:Hj; [|done]. by apply Permutation_insert_swap.
Qed.

Lemma move_median_to_first_perm comp result a b c l :
  move_median_to_first comp result a b c l ≡ₚ l.
Proof. unfold move_median_to_first. repeat case_match; apply iter_swap_perm. Qed.

Lemma move_median_to_first_ext comp comp' result a b c l :
  (∀ x y, comp x y = comp' x y) →
  move_median_to_first comp result a b c l = move_median_to_first comp' result a b c l.
Proof. intros Hext. unfold move_median_to_first. by rewrite !Hext. Qed.

Lemma pivot_first_sort_contract : std_sort_contract pivot_first_sort.
Proof.
  split; unfold pivot_first_sort.
  - intros comp l. destruct (_ <? _)%nat; rewrite insertion_sort_perm; [|done].
    apply move_median_to_first_perm.
  - intros comp l Hcomp. destruct (_ <? _)%nat; by apply insertion_sort_sorted.
  - intros comp comp' l Hext. destruct (_ <? _)%nat; [|by apply insertion_sort_ext].
    rewrite (move_median_to_first_ext comp comp') by done. by apply insertion_sort_ext.
Qed.

(** ** The vector and its two field updates *)

Lemma length_set_color i c vs : length (set_color i c vs) = length vs.
Proof. apply length_alter. Qed.

Lemma length_set_heuristic i h vs : length (set_heuristic i h vs) = length vs.
Proof. apply length_alter. Qed.

Lemma color_set_color i c vs j :
  color (set_color i c vs !!! j) =
    if decide (i = j ∧ (i < length vs)%nat) then c else color (vs !!! j).
Proof. unfold set_color. rewrite list_lookup_total_alter.
  case_decide as H; [destruct H as [-> _]|]; done.
Qed.

Lemma color_set_color_eq i c vs :
  (i < length vs)%nat → color (set_color i c vs !!! i) = c.
Proof. intros. by rewrite color_set_color, decide_True. Qed.

Lemma color_set_color_ne i j c vs :
  i ≠ j → color (set_color i c vs !!! j) = color (vs !!! j).
Proof. intros. rewrite color_set_color, decide_False; [done|]. by intros [??]. Qed.

Lemma id_set_color i c vs j : id (set_color i c vs !!! j) = id (vs !!! j).
Proof. unfold set_color. rewrite list_lookup_total_alter.
  case_decide as H; [destruct H as [-> _]|]; done.
Qed.

Lemma degree_set_color i c vs j : degree (set_color i c vs !!! j) = degree (vs !!! j).
Proof. unfold set_color. rewrite list_lookup_total_alter.
  case_decide as H; [destruct H as [-> _]|]; done.
Qed.

Lemma neighbors_set_color i c vs j :
  neighbors (set_color i c vs !!! j) = neighbors (vs !!! j).
Proof. unfold set_color. rewrite list_lookup_total_alter.
  case_decide as H; [destruct H as [-> _]|]; done.
Qed.

Lemma heuristic_set_color i c vs j :
  heuristic_value (set_color i c vs !!! j) = heuristic_value (vs !!! j).
Proof. unfold set_color. rewrite list_lookup_total_alter.
  case_decide as H; [destruct H as [-> _]|]; done.
Qed.

Lemma heuristic_set_heuristic i h vs j :
  heuristic_value (set_heuristic i h vs !!! j) =
    if decide (i = j ∧ (i < length vs)%nat) then h else heuristic_value (vs !!! j).
Proof. unfold set_heuristic. rewrite list_lookup_total_alter.
  case_decide as H; [destruct H as [-> _]|]; done.
Qed.

Lemma heuristic_set_heuristic_eq i h vs :
  (i < length vs)%nat → heuristic_value (set_heuristic i h vs !!! i) = h.
Proof. intros. by rewrite heuristic_set_heuristic, decide_True. Qed.

Lemma heuristic_set_heuristic_ne i j h vs :
  i ≠ j → heuristic_value (set_heuristic i h vs !!! j) = heuristic_value (vs !!! j).
Proof. intros. rewrite heuristic_set_heuristic, decide_False; [done|]. by intros [??]. Qed.

Lemma id_set_heuristic i h vs j : id (set_heuristic i h vs !!! j) = id (vs !!! j).
Proof. unfold set_heuristic. rewrite list_lookup_total_alter.
  case_decide as H; [destruct H as [-> _]|]; done.
Qed.

Lemma degree_set_heuristic i h vs j :
  degree (set_heuristic i h vs !!! j) = degree (vs !!! j).
Proof. unfold set_heuristic. rewrite list_lookup_total_alter.
  case_decide as H; [destruct H as [-> _]|]; done.
Qed.

Lemma neighbors_set_heuristic i h vs j :
  neighbors (set_heuristic i h vs !!! j) = neighbors (vs !!! j).
Proof. unfold set_heuristic. rewrite list_lookup_total_alter.
  case_decide as H; [destruct H as [-> _]|]; done.
Qed.

Lemma color_set_heuristic i h vs j :
  color (set_heuristic i h vs !!! j) = color (vs !!! j).
Proof. unfold set_heuristic. rewrite list_lookup_total_alter.
  case_decide as H; [destruct H as [-> _]|]; done.
Qed.

Create Rewrite HintDb store.
#[global] Hint Rewrite length_set_color length_set_heuristic id_set_color degree_set_color
  neighbors_set_color heuristic_set_color id_set_heuristic degree_set_heuristic
  neighbors_set_heuristic color_set_heuristic : store.

(** ** The relations between vectors *)

Global Instance same_graph_equiv : Equivalence same_graph.
Proof.
  split.
  - by intros vs.
  - intros vs1 vs2 [Hl H]. split; [done|]. intros i.
    destruct (H i) as (?&?&?). by repeat split.
  - intros vs1 vs2 vs3 [Hl1 H1] [Hl2 H2]. split; [congruence|].
    intros i. destruct (H1 i) as (?&?&?), (H2 i) as (?&?&?). repeat split; congruence.
Qed.

Global Instance same_colors_equiv : Equivalence same_colors.
Proof.
  split.
  - by intros vs.
  - intros vs1 vs2 H i. by rewrite H.
  - intros vs1 vs2 vs3 H1 H2 i. by rewrite H1, H2.
Qed.

Global Instance same_but_heuristic_equiv : Equivalence same_but_heuristic.
Proof.
  split.
  - by intros vs.
  - intros vs1 vs2 [??]. by split.
  - intros vs1 vs2 vs3 [??] [??]. split; by etrans.
Qed.

Lemma same_graph_set_color i c vs : same_graph vs (set_color i c vs).
Proof. split; [by rewrite length_set_color|]. intros j. by autorewrite with store. Qed.

Lemma same_graph_set_heuristic i h vs : same_graph vs (set_heuristic i h vs).
Proof. split; [by rewrite length_set_heuristic|]. intros j. by autorewrite with store. Qed.

Lemma same_but_heuristic_set_heuristic i h vs : same_but_heuristic vs (set_heuristic i h vs).
Proof. split; [apply same_graph_set_heuristic|]. intros j. by autorewrite with store. Qed.

Lemma same_but_heuristic_set_color i c vs1 vs2 :
  same_but_heuristic vs1 vs2 → same_but_heuristic (set_color i c vs1) (set_color i c vs2).
Proof.
  intros [[Hl Hg] Hc]. split; [split|].
  - by rewrite !length_set_color.
  - intros j. autorewrite with store. apply Hg.
  - intros j. rewrite !color_set_color, Hl, Hc. done.
Qed.

Lemma same_graph_length vs1 vs2 : same_graph vs1 vs2 → length vs1 = length vs2.
Proof. by intros [? _]. Qed.

Lemma same_graph_neighbors vs1 vs2 i :
  same_graph vs1 vs2 → neighbors (vs1 !!! i) = neighbors (vs2 !!! i).
Proof. intros [_ H]. apply H. Qed.

Lemma same_graph_degree vs1 vs2 i :
  same_graph vs1 vs2 → degree (vs1 !!! i) = degree (vs2 !!! i).
Proof. intros [_ H]. apply H. Qed.

(** ** [reset_colors] *)

Lemma reset_colors_S n vs :
  reset_colors (S n) vs = set_color (S n) (-1) (reset_colors n vs).
Proof. unfold reset_colors. by rewrite seq_S, foldl_snoc. Qed.

Lemma length_reset_colors n vs : length (reset_colors n vs) = length vs.
Proof.
  induction n as [|n IH]; [done|]. by rewrite reset_colors_S, length_set_color.
Qed.

Lemma same_graph_reset_colors n vs : same_graph vs (reset_colors n vs).
Proof.
  induction n as [|n IH]; [done|]. rewrite reset_colors_S.
  etrans; [exact IH|]. apply same_graph_set_color.
Qed.

Lemma color_reset_colors n vs i :
  color (reset_colors n vs !!! i) =
    if decide ((1 ≤ i ≤ n)%nat ∧ (i < length vs)%nat) then -1 else color (vs !!! i).
Proof.
  induction n as [|n IH].
  - simpl. case_decide; [lia|done].
  - rewrite reset_colors_S, color_set_color, length_reset_colors, IH.
    repeat case_decide; try done; lia.
Qed.

Lemma reset_colors_same_graph n vs1 vs2 :
  same_graph vs1 vs2 →
  (∀ i, ¬ (1 ≤ i ≤ n)%nat → color (vs1 !!! i) = color (vs2 !!! i)) →
  same_but_heuristic (reset_colors n vs1) (reset_colors n vs2).
Proof.
  intros Hg Hc. split.
  - etrans; [symmetry; apply same_graph_reset_colors|].
    etrans; [exact Hg|]. apply same_graph_reset_colors.
  - intros i. rewrite !color_reset_colors, (same_graph_length _ _ Hg).
    case_decide as Hi; [done|].
    destruct (decide (i < length vs2)%nat) as [Hlt|Hge]; [apply Hc; lia|].
    rewrite !list_lookup_total_alt, !lookup_ge_None_2; [done|lia|].
    rewrite (same_graph_length _ _ Hg). lia.
Qed.

(** ** The heuristic values *)

Lemma set_insert_elem_of x y s : y ∈ set_insert x s ↔ y = x ∨ y ∈ s.
Proof.
  induction s as [|z s IH]; simpl.
  - rewrite list_elem_of_singleton. set_solver.
  - destruct (Z.ltb_spec x z); [set_solver|].
    destruct (Z.eqb_spec x z); [set_solver|].
    rewrite !elem_of_cons, IH. tauto.
Qed.

Lemma set_insert_sorted x s :
  StronglySorted Z.lt s → StronglySorted Z.lt (set_insert x s).
Proof.
  induction 1 as [|z s Hs IH Hz]; simpl.
  - repeat constructor.
  - destruct (Z.ltb_spec x z).
    + constructor; [by constructor|]. constructor; [done|].
      eapply Forall_impl; [exact Hz|]. intros; simpl in *; lia.
    + destruct (Z.eqb_spec x z); [by constructor|].
      constructor; [done|]. apply Forall_forall. intros y Hy.
      apply set_insert_elem_of in Hy as [->|Hy]; [lia|].
      by eapply Forall_forall in Hz.
Qed.

Lemma StronglySorted_lt_NoDup (s : list Z) : StronglySorted Z.lt s → NoDup s.
Proof.
  induction 1 as [|z s Hs IH Hz]; constructor; [|done].
  intros Hin. eapply Forall_forall in Hz; [|exact Hin]. lia.
Qed.

Lemma distinct_neighbor_colors_spec vs nbrs :
  StronglySorted Z.lt (distinct_neighbor_colors vs nbrs) ∧
  ∀ c, c ∈ distinct_neighbor_colors vs nbrs ↔
       c ∈ filter (λ c, c ≠ -1) ((λ w, color (vs !!! w)) <$> nbrs).
Proof.
  unfold distinct_neighbor_colors.
  induction nbrs as [|w nbrs IH] using rev_ind.
  - split; [constructor|]. done.
  - rewrite foldl_snoc, fmap_app, filter_app. simpl.
    destruct IH as [IHs IHe].
    destruct (Z.eqb_spec (color (vs !!! w)) (-1)) as [Heq|Hne].
    + split; [done|]. intros c. rewrite IHe, filter_cons_False by (intros ?; done).
      by rewrite filter_nil, app_nil_r.
    + split; [by apply set_insert_sorted|].
      intros c. rewrite set_insert_elem_of, IHe, filter_cons_True by done.
      rewrite filter_nil, elem_of_app, list_elem_of_singleton. tauto.
Qed.

(** The size of the [std::set] of the DSATUR branch is the saturation degree. *)
Lemma distinct_neighbor_colors_size vs v :
  Z.of_nat (length (distinct_neighbor_colors vs (neighbors (vs !!! v)))) = saturation vs v.
Proof.
  unfold saturation. f_equal.
  destruct (distinct_neighbor_colors_spec vs (neighbors (vs !!! v))) as [Hs He].
  rewrite <- (size_list_to_set (C:=gset Z)) by by apply StronglySorted_lt_NoDup.
  f_equal. apply set_eq. intros c. rewrite !elem_of_list_to_set. apply He.
Qed.

(** The loop of the IDO branch adds one for every colored neighbor. *)
Lemma count_loop_spec v nbrs vs0 vs :
  (v < length vs)%nat → same_but_heuristic vs0 vs →
  let vs' := foldl (λ vs neighbor_id,
                      if color (vs !!! neighbor_id) =? -1 then vs
                      else set_heuristic v (heuristic_value (vs !!! v) + 1) vs) vs nbrs in
  same_but_heuristic vs0 vs' ∧
  heuristic_value (vs' !!! v) =
    heuristic_value (vs !!! v) +
    Z.of_nat (length (filter (λ c, c ≠ -1) ((λ w, color (vs0 !!! w)) <$> nbrs))) ∧
  ∀ u, u ≠ v → heuristic_value (vs' !!! u) = heuristic_value (vs !!! u).
Proof.
  intros Hv Hsame. simpl.
  induction nbrs as [|w nbrs IH] using rev_ind.
  - simpl. split; [done|]. split; [lia|done].
  - rewrite foldl_snoc, fmap_app, filter_app, length_app. simpl.
    destruct IH as (IH1 & IH2 & IH3).
    set (vs1 := foldl _ vs nbrs) in *.
    assert (color (vs1 !!! w) = color (vs0 !!! w)) as Hcw by (symmetry; apply IH1).
    assert (length vs1 = length vs) as Hlen.
    { rewrite <- (same_graph_length vs0 vs1), (same_graph_length vs0 vs);
        [done|apply Hsame|apply IH1]. }
    rewrite Hcw.
    destruct (Z.eqb_spec (color (vs0 !!! w)) (-1)) as [Heq|Hne].
    + rewrite filter_cons_False by (intros ?; done). simpl.
      split; [done|]. split; [lia|done].
    + rewrite filter_cons_True by done. simpl. split; [|split].
      * etrans; [exact IH1|]. apply same_but_heuristic_set_heuristic.
      * rewrite heuristic_set_heuristic_eq by lia. lia.
      * intros u Hu. rewrite heuristic_set_heuristic_ne by done. by apply IH3.
Qed.

Lemma compute_heuristic_spec alg_name v vs :
  (v < length vs)%nat →
  same_but_heuristic vs (compute_heuristic alg_name v vs) ∧
  heuristic_value (compute_heuristic alg_name v vs !!! v) = heuristic alg_name vs v ∧
  ∀ u, u ≠ v →
    heuristic_value (compute_heuristic alg_name v vs !!! u) = heuristic_value (vs !!! u).
Proof.
  intros Hv. unfold compute_heuristic, heuristic.
  destruct (String.eqb alg_name "DSATUR").
  - split; [apply same_but_heuristic_set_heuristic|]. split.
    + rewrite heuristic_set_heuristic_eq by done. apply distinct_neighbor_colors_size.
    + intros u Hu. by rewrite heuristic_set_heuristic_ne.
  - pose proof (count_loop_spec v (neighbors (vs !!! v)) vs (set_heuristic v 0 vs)) as H.
    simpl in H. destruct H as (H1 & H2 & H3).
    { by rewrite length_set_heuristic. }
    { apply same_but_heuristic_set_heuristic. }
    split; [done|]. split.
    + rewrite H2, heuristic_set_heuristic_eq by done. done.
    + intros u Hu. rewrite H3, heuristic_set_heuristic_ne by done. done.
Qed.

Lemma heuristic_same_but_heuristic alg_name vs1 vs2 v :
  same_but_heuristic vs1 vs2 → heuristic alg_name vs1 v = heuristic alg_name vs2 v.
Proof.
  intros [Hg Hc].
  assert (colored_neighbor_colors vs1 v = colored_neighbor_colors vs2 v) as Heq.
  { unfold colored_neighbor_colors. rewrite (same_graph_neighbors _ _ v Hg).
    f_equal. apply list_fmap_ext. intros ? w _. apply Hc. }
  unfold heuristic, saturation, colored_neighbor_count. by rewrite Heq.
Qed.

(** ** The selection scan *)

Lemma select_best_snoc alg_name vs l v :
  select_best alg_name vs (l ++ [v]) = scan_step alg_name (select_best alg_name vs l) v.
Proof. unfold select_best. by rewrite foldl_snoc. Qed.

Lemma selected_snoc alg_name vs l v :
  selected alg_name vs (l ++ [v]) =
    if prefer alg_name vs v (selected alg_name vs l) then Some v
    else selected alg_name vs l.
Proof. unfold selected. by rewrite foldl_snoc. Qed.

Lemma selected_elem_of alg_name vs l b : selected alg_name vs l = Some b → b ∈ l.
Proof.
  revert b. induction l as [|v l IH] using rev_ind; intros b; [done|].
  rewrite selected_snoc, elem_of_app, list_elem_of_singleton.
  destruct (prefer _ _ _ _); [naive_solver|]. intros ?%IH. by left.
Qed.

Lemma selected_is_Some alg_name vs l : l ≠ [] → is_Some (selected alg_name vs l).
Proof.
  destruct l as [|v l _] using rev_ind; [done|]. intros _.
  rewrite selected_snoc. destruct (selected alg_name vs l) as [b|]; [|by eexists].
  destruct (prefer _ _ _ _); by eexists.
Qed.

Lemma prefer_same_but_heuristic alg_name vs1 vs2 v best :
  same_but_heuristic vs1 vs2 → prefer alg_name vs1 v best = prefer alg_name vs2 v best.
Proof.
  intros Hs. destruct best as [b|]; [|done]. simpl.
  rewrite !(heuristic_same_but_heuristic _ vs1 vs2) by done.
  destruct Hs as [Hg _]. by rewrite !(same_graph_degree vs1 vs2).
Qed.

Lemma selected_same_but_heuristic alg_name vs1 vs2 l :
  same_but_heuristic vs1 vs2 → selected alg_name vs1 l = selected alg_name vs2 l.
Proof.
  intros Hs. induction l as [|v l IH] using rev_ind; [done|].
  by rewrite !selected_snoc, IH, (prefer_same_but_heuristic _ vs1 vs2).
Qed.

(** The scan changes heuristic values only, records the heuristic of the
    current coloring for every vertex of the list, and returns the vertex
    that [selected] describes. *)
Lemma select_best_spec alg_name vs l :
  Forall (λ v, (v < length vs)%nat) l →
  same_but_heuristic vs (select_best alg_name vs l).1 ∧
  (select_best alg_name vs l).2 = selected alg_name vs l ∧
  ∀ v, v ∈ l →
    heuristic_value ((select_best alg_name vs l).1 !!! v) = heuristic alg_name vs v.
Proof.
  induction l as [|v l IH] using rev_ind; intros Hl.
  - split; [done|]. split; [done|]. intros v Hv. by apply elem_of_nil in Hv.
  - apply Forall_app in Hl as [Hl Hv%Forall_inv].
    destruct (IH Hl) as (IH1 & IH2 & IH3). clear IH.
    rewrite select_best_snoc, selected_snoc. unfold scan_step.
    destruct (select_best alg_name vs l) as [vs1 best]. simpl in *. subst best.
    assert (v < length vs1)%nat as Hv1.
    { by rewrite <- (same_graph_length vs vs1) by apply IH1. }
    destruct (compute_heuristic_spec alg_name v vs1 Hv1) as (Hc1 & Hc2 & Hc3).
    set (vs2 := compute_heuristic alg_name v vs1) in *.
    assert (∀ u, u ∈ l ++ [v] → heuristic_value (vs2 !!! u) = heuristic alg_name vs u) as H3.
    { intros u Hu. destruct (decide (u = v)) as [->|Hne].
      - rewrite Hc2. symmetry. by apply heuristic_same_but_heuristic.
      - rewrite Hc3 by done. apply IH3.
        apply elem_of_app in Hu as [?|?%list_elem_of_singleton]; done. }
    split; [by etrans|]. split; [|done].
    assert (better vs2 v (selected alg_name vs l) = prefer alg_name vs v (selected alg_name vs l))
      as ->; [|done].
    destruct (selected alg_name vs l) as [b|] eqn:Hb; [|done]. simpl.
    apply selected_elem_of in Hb.
    rewrite (H3 v), (H3 b) by set_solver.
    assert (same_graph vs vs2) as Hg by (etrans; [apply IH1|apply Hc1]).
    by rewrite !(same_graph_degree vs vs2).
Qed.

(** ** Feasibility and first fit *)

Lemma isColorValid_loop_spec nbrs c vs :
  isColorValid_loop nbrs c vs = true ↔ ∀ w, w ∈ nbrs → color (vs !!! w) ≠ c.
Proof.
  induction nbrs as [|w nbrs IH]; simpl.
  - split; [|done]. intros _ w Hw. by apply elem_of_nil in Hw.
  - destruct (Z.eqb_spec (color (vs !!! w)) c) as [Heq|Hne].
    + split; [done|]. intros H. exfalso. by apply (H w); [left|].
    + rewrite IH. split.
      * intros H u [->|Hu]%elem_of_cons; auto.
      * intros H u Hu. apply H. by right.
Qed.

Lemma isColorValid_feasible vs v c :
  isColorValid (vs !!! v) c vs = true ↔ feasible vs v c.
Proof. apply isColorValid_loop_spec. Qed.

(** On the palette [m, m+1, ..., m+k-1] the scan returns the least valid
    color, or [-1] when there is none. *)
Lemma first_valid_seqZ v vs k m :
  let c := first_valid (seqZ m (Z.of_nat k)) v vs in
  (c = -1 ∧ ∀ x, m ≤ x < m + Z.of_nat k → isColorValid v x vs = false) ∨
  (m ≤ c < m + Z.of_nat k ∧ isColorValid v c vs = true ∧
   ∀ x, m ≤ x < c → isColorValid v x vs = false).
Proof.
  revert m. induction k as [|k IH]; intros m; simpl.
  - left. split; [done|]. intros; lia.
  - rewrite seqZ_cons by lia. simpl.
    replace (Z.pred (Z.of_nat (S k))) with (Z.of_nat k) by lia.
    destruct (isColorValid v m vs) eqn:Hm.
    + right. split; [lia|]. split; [done|]. intros; lia.
    + destruct (IH (Z.succ m)) as [[H1 H2]|(H1 & H2 & H3)].
      * left. split; [done|]. intros x Hx.
        destruct (decide (x = m)) as [->|]; [done|]. apply H2. lia.
      * right. split; [lia|]. split; [done|]. intros x Hx.
        destruct (decide (x = m)) as [->|]; [done|]. apply H3. lia.
Qed.

Lemma feasible_same_but_heuristic vs1 vs2 v c :
  same_but_heuristic vs1 vs2 → feasible vs1 v c ↔ feasible vs2 v c.
Proof.
  intros [Hg Hc]. unfold feasible. rewrite (same_graph_neighbors _ _ v Hg).
  split; intros H w Hw; [rewrite <- Hc|rewrite Hc]; by apply H.
Qed.

(** Step 4 of the driver is first fit over the palette [0, 1, ..., next-1]. *)
Lemma assign_color_spec b st :
  color_palette st = seqZ 0 (next_available_color_idx st) →
  0 ≤ next_available_color_idx st →
  ∃ c,
    g_vertices (assign_color b st) = set_color b c (g_vertices st) ∧
    uncolored_vertices_ptrs (assign_color b st) = erase_ptr b (uncolored_vertices_ptrs st) ∧
    ((0 ≤ c < next_available_color_idx st ∧
      feasible (g_vertices st) b c ∧
      (∀ x, 0 ≤ x < c → ¬ feasible (g_vertices st) b x) ∧
      color_palette (assign_color b st) = color_palette st ∧
      next_available_color_idx (assign_color b st) = next_available_color_idx st)
     ∨
     (c = next_available_color_idx st ∧
      (∀ x, 0 ≤ x < next_available_color_idx st → ¬ feasible (g_vertices st) b x) ∧
      color_palette (assign_color b st) = color_palette st ++ [next_available_color_idx st] ∧
      next_available_color_idx (assign_color b st) = next_available_color_idx st + 1)).
Proof.
  intros Hpal Hnext. unfold assign_color. rewrite Hpal.
  pose proof (first_valid_seqZ (g_vertices st !!! b) (g_vertices st)
                (Z.to_nat (next_available_color_idx st)) 0) as H.
  rewrite Z2Nat.id in H by done. simpl in H.
  set (c := first_valid _ _ _) in *.
  assert (∀ x, isColorValid (g_vertices st !!! b) x (g_vertices st) = false →
               ¬ feasible (g_vertices st) b x) as Hnf.
  { intros x Hx Hf%isColorValid_feasible. congruence. }
  destruct H as [[Hc Hall]|(Hc & Hv & Hall)].
  - rewrite Hc. simpl. eexists. split; [done|]. split; [done|].
    right. split; [done|]. split; [|done]. intros x Hx. apply Hnf, Hall. lia.
  - destruct (Z.eqb_spec c (-1)) as [?|_]; [lia|]. simpl.
    exists c. split; [done|]. split; [done|].
    left. split; [lia|]. split; [by apply isColorValid_feasible|].
    split; [|done]. intros x Hx. apply Hnf, Hall. lia.
Qed.

(** One iteration of the main loop on a non-empty pointer list never takes
    the warning branch. *)
Lemma greedy_step_inl alg_name st :
  Forall (λ v, (v < length (g_vertices st))%nat) (uncolored_vertices_ptrs st) →
  uncolored_vertices_ptrs st ≠ [] →
  ∃ b vs1,
    selected alg_name (g_vertices st) (uncolored_vertices_ptrs st) = Some b ∧
    b ∈ uncolored_vertices_ptrs st ∧
    select_best alg_name (g_vertices st) (uncolored_vertices_ptrs st) = (vs1, Some b) ∧
    same_but_heuristic (g_vertices st) vs1 ∧
    greedy_step alg_name st =
      inl (assign_color b (mkGreedy vs1 (color_palette st) (next_available_color_idx st)
                                    (uncolored_vertices_ptrs st))).
Proof.
  intros Hrange Hne.
  destruct (select_best_spec alg_name _ _ Hrange) as (H1 & H2 & _).
  destruct (selected_is_Some alg_name (g_vertices st) _ Hne) as [b Hb].
  unfold greedy_step.
  destruct (select_best alg_name (g_vertices st) (uncolored_vertices_ptrs st))
    as [vs1 best] eqn:Hsel.
  simpl in *. rewrite Hb in H2. subst best.
  exists b, vs1. repeat split; try done; try apply H1.
  by eapply selected_elem_of.
Qed.

Lemma greedy_inv_range n st :
  greedy_inv n st →
  Forall (λ v, (v < length (g_vertices st))%nat) (uncolored_vertices_ptrs st).
Proof.
  intros Hinv. apply Forall_forall. intros v Hv.
  apply (gi_uncolored _ _ Hinv) in Hv. rewrite (gi_length _ _ Hinv). lia.
Qed.

(** What one iteration of the main loop does: it selects a vertex of the
    pointer list, gives it the first-fit color, leaves the other colors
    alone, and removes it from the list. *)
Lemma greedy_step_spec alg_name n st :
  greedy_inv n st → uncolored_vertices_ptrs st ≠ [] →
  ∃ b c st',
    greedy_step alg_name st = inl st' ∧
    selected alg_name (g_vertices st) (uncolored_vertices_ptrs st) = Some b ∧
    b ∈ uncolored_vertices_ptrs st ∧
    same_graph (g_vertices st) (g_vertices st') ∧
    color (g_vertices st' !!! b) = c ∧
    (∀ u, u ≠ b → color (g_vertices st' !!! u) = color (g_vertices st !!! u)) ∧
    uncolored_vertices_ptrs st' = erase_ptr b (uncolored_vertices_ptrs st) ∧
    ((0 ≤ c < next_available_color_idx st ∧
      feasible (g_vertices st) b c ∧
      (∀ x, 0 ≤ x < c → ¬ feasible (g_vertices st) b x) ∧
      color_palette st' = color_palette st ∧
      next_available_color_idx st' = next_available_color_idx st)
     ∨
     (c = next_available_color_idx st ∧
      (∀ x, 0 ≤ x < next_available_color_idx st → ¬ feasible (g_vertices st) b x) ∧
      color_palette st' = color_palette st ++ [next_available_color_idx st] ∧
      next_available_color_idx st' = next_available_color_idx st + 1)).
Proof.
  intros Hinv Hne.
  destruct (greedy_step_inl alg_name st (greedy_inv_range _ _ Hinv) Hne)
    as (b & vs1 & Hsel & Hb & _ & Hsame & Hstep).
  set (st1 := mkGreedy vs1 _ _ _) in Hstep.
  destruct (assign_color_spec b st1) as (c & Hvs & Hunc & Hfit).
  { apply (gi_palette _ _ Hinv). }
  { apply (gi_next _ _ Hinv). }
  simpl in *.
  assert (b < length vs1)%nat as Hlt.
  { rewrite <- (same_graph_length (g_vertices st) vs1) by apply Hsame.
    apply (gi_uncolored _ _ Hinv) in Hb. rewrite (gi_length _ _ Hinv). lia. }
  exists b, c, (assign_color b st1). split; [done|]. split; [done|]. split; [done|].
  split. { rewrite Hvs. etrans; [apply Hsame|apply same_graph_set_color]. }
  split. { rewrite Hvs. by apply color_set_color_eq. }
  split. { intros u Hu. rewrite Hvs, color_set_color_ne by done. symmetry. apply Hsame. }
  split; [done|].
  destruct Hfit as [(H1 & H2 & H3 & H4 & H5)|(H1 & H2 & H3 & H4)]; [left|right].
  - repeat split; try done; try lia.
    + by apply (feasible_same_but_heuristic _ _ _ _ Hsame).
    + intros x Hx Hf. apply (H3 x Hx). by apply (feasible_same_but_heuristic _ _ _ _ Hsame).
  - repeat split; try done.
    intros x Hx Hf. apply (H2 x Hx). by apply (feasible_same_but_heuristic _ _ _ _ Hsame).
Qed.

(** ** Graph properties do not depend on colors or heuristic values *)

Lemma well_formed_same_graph vs vs' n :
  same_graph vs vs' → well_formed vs n → well_formed vs' n.
Proof.
  intros Hg [Hl Hr Hs]. split.
  - by rewrite <- (same_graph_length _ _ Hg).
  - intros u v Hu. rewrite <- (same_graph_neighbors _ _ u Hg). by apply Hr.
  - intros u v Hu. rewrite <- (same_graph_neighbors _ _ u Hg),
      <- (same_graph_neighbors _ _ v Hg). by apply Hs.
Qed.

Lemma loop_free_same_graph vs vs' n :
  same_graph vs vs' → loop_free vs n → loop_free vs' n.
Proof.
  intros Hg Hlf u Hu. rewrite <- (same_graph_neighbors _ _ u Hg). by apply Hlf.
Qed.

Lemma edgeless_same_graph vs vs' n :
  same_graph vs vs' → edgeless vs n → edgeless vs' n.
Proof.
  intros Hg He u Hu. rewrite <- (same_graph_neighbors _ _ u Hg). by apply He.
Qed.

(** ** The invariant of the main loop *)

Lemma length_erase_ptr b l :
  NoDup l → b ∈ l → S (length (erase_ptr b l)) = length l.
Proof.
  unfold erase_ptr. induction 1 as [|x l Hx Hl IH]; intros Hb.
  - by apply elem_of_nil in Hb.
  - destruct (decide (x = b)) as [->|Hne].
    + rewrite filter_cons_False by (intros ?; done). simpl. f_equal.
      clear IH Hl Hb. induction l as [|y l IH]; [done|].
      apply not_elem_of_cons in Hx as [Hy Hx].
      rewrite filter_cons_True by done. simpl. f_equal. by apply IH.
    + rewrite filter_cons_True by done. simpl. f_equal. apply IH.
      apply elem_of_cons in Hb as [?|?]; [congruence|done].
Qed.

Lemma seqZ_snoc_next k : 0 ≤ k → seqZ 0 k ++ [k] = seqZ 0 (k + 1).
Proof. intros. rewrite seqZ_app by lia. done. Qed.

Lemma greedy_inv_step alg_name n st st' :
  greedy_inv n st → uncolored_vertices_ptrs st ≠ [] →
  greedy_step alg_name st = inl st' → greedy_inv n st'.
Proof.
  intros Hinv Hne Hstep.
  destruct (greedy_step_spec alg_name n st Hinv Hne)
    as (b & c & st1 & Hstep1 & _ & Hb & Hg & Hcb & Hco & Hunc & Hfit).
  rewrite Hstep in Hstep1. injection Hstep1 as <-.
  pose proof (gi_next _ _ Hinv) as Hnext.
  pose proof (proj1 (gi_uncolored _ _ Hinv b) Hb) as [Hbr Hbc].
  assert (0 ≤ c < next_available_color_idx st' ∧
          next_available_color_idx st ≤ next_available_color_idx st' ∧
          color_palette st' = seqZ 0 (next_available_color_idx st') ∧
          (∀ x, 0 ≤ x < next_available_color_idx st' →
                x < next_available_color_idx st ∨ x = c)) as (Hc & Hmono & Hpal & Hnew).
  { destruct Hfit as [(H1 & _ & _ & H4 & H5)|(H1 & _ & H3 & H4)].
    - rewrite H4, H5. repeat split; try lia. apply (gi_palette _ _ Hinv).
    - rewrite H3, H4, (gi_palette _ _ Hinv), H1. repeat split; try lia.
      by apply seqZ_snoc_next. }
  split.
  - rewrite <- (same_graph_length _ _ Hg). apply (gi_length _ _ Hinv).
  - rewrite Hunc. apply NoDup_filter, (gi_nodup _ _ Hinv).
  - intros v. rewrite Hunc. unfold erase_ptr. rewrite list_elem_of_filter.
    rewrite (gi_uncolored _ _ Hinv). destruct (decide (v = b)) as [->|Hvb].
    + rewrite Hcb. split; [by intros [? _]|]. intros [_ ?]. lia.
    + rewrite Hco by done. tauto.
  - done.
  - lia.
  - intros v Hv. destruct (decide (v = b)) as [->|Hvb].
    + right. by rewrite Hcb.
    + rewrite Hco by done. destruct (gi_colors _ _ Hinv v Hv); [by left|right; lia].
  - intros x Hx. destruct (Hnew x Hx) as [Hold| ->].
    + destruct (gi_used _ _ Hinv x) as (v & Hv & Hcv); [lia|].
      exists v. split; [done|]. rewrite Hco; [done|]. intros ->. lia.
    + by exists b.
Qed.

Lemma greedy_reachable_inv alg_name n st0 st :
  greedy_inv n st0 → greedy_reachable alg_name st0 st → greedy_inv n st.
Proof. induction 2; [done|]. by eapply greedy_inv_step. Qed.

Lemma greedy_step_same_graph alg_name n st st' :
  greedy_inv n st → uncolored_vertices_ptrs st ≠ [] →
  greedy_step alg_name st = inl st' → same_graph (g_vertices st) (g_vertices st').
Proof.
  intros Hinv Hne Hstep.
  destruct (greedy_step_spec alg_name n st Hinv Hne) as (b & c & st1 & Hstep1 & _ & _ & Hg & _).
  rewrite Hstep in Hstep1. by injection Hstep1 as <-.
Qed.

Lemma greedy_reachable_same_graph alg_name n st0 st :
  greedy_inv n st0 → greedy_reachable alg_name st0 st →
  same_graph (g_vertices st0) (g_vertices st).
Proof.
  intros Hinv. induction 1 as [|st st' Hr IH Hne Hstep]; [done|].
  etrans; [exact IH|]. eapply greedy_step_same_graph; [|done..].
  by eapply greedy_reachable_inv.
Qed.

Lemma greedy_reachable_front alg_name st st1 st' :
  uncolored_vertices_ptrs st ≠ [] → greedy_step alg_name st = inl st1 →
  greedy_reachable alg_name st1 st' → greedy_reachable alg_name st st'.
Proof.
  intros Hne Hstep. induction 1 as [|st2 st3 Hr IH Hne2 Hstep2].
  - eapply greedy_reach_step; [apply greedy_reach_start|done..].
  - by eapply greedy_reach_step.
Qed.

(** The main loop ends, through its exit test, once it has run as many
    iterations as there are pointers in the list. *)
Lemma main_loop_finishes alg_name n fuel st :
  greedy_inv n st → (length (uncolored_vertices_ptrs st) ≤ fuel)%nat →
  ∃ st', main_loop fuel alg_name st = Some (st', Finished) ∧
         greedy_reachable alg_name st st' ∧ uncolored_vertices_ptrs st' = [].
Proof.
  revert st. induction fuel as [|fuel IH]; intros st Hinv Hfuel.
  - exists st. destruct (uncolored_vertices_ptrs st) eqn:Hunc; [|simpl in Hfuel; lia].
    simpl. rewrite Hunc. split; [done|]. split; [constructor|done].
  - destruct (uncolored_vertices_ptrs st) as [|p ptrs] eqn:Hunc.
    + exists st. simpl. rewrite Hunc. split; [done|]. split; [constructor|done].
    + assert (uncolored_vertices_ptrs st ≠ []) as Hne by by rewrite Hunc.
      destruct (greedy_step_spec alg_name n st Hinv Hne)
        as (b & c & st1 & Hstep & _ & Hb & _ & _ & _ & Hunc1 & _).
      pose proof (length_erase_ptr b _ (gi_nodup _ _ Hinv) Hb) as Hlen.
      rewrite <- Hunc1 in Hlen.
      destruct (IH st1) as (st' & Hrun & Hreach & Hdone).
      { by eapply greedy_inv_step. }
      { rewrite Hunc in Hlen. simpl in *. lia. }
      exists st'. simpl. rewrite Hunc, Hstep. split; [done|].
      split; [|done]. by eapply greedy_reachable_front.
Qed.

Lemma partial_proper_step alg_name n st st' :
  greedy_inv n st → well_formed (g_vertices st) n → loop_free (g_vertices st) n →
  partial_proper (g_vertices st) n →
  uncolored_vertices_ptrs st ≠ [] → greedy_step alg_name st = inl st' →
  partial_proper (g_vertices st') n.
Proof.
  intros Hinv Hwf Hlf Hpp Hne Hstep.
  destruct (greedy_step_spec alg_name n st Hinv Hne)
    as (b & c & st1 & Hstep1 & _ & Hb & Hg & Hcb & Hco & _ & Hfit).
  rewrite Hstep in Hstep1. injection Hstep1 as <-.
  pose proof (proj1 (gi_uncolored _ _ Hinv b) Hb) as [Hbr Hbc].
  assert (feasible (g_vertices st) b c) as Hfeas.
  { destruct Hfit as [(_ & H & _)|(-> & _)]; [done|].
    intros w Hw. apply (wf_range _ _ Hwf) in Hw; [|done].
    pose proof (gi_next _ _ Hinv). destruct (gi_colors _ _ Hinv w Hw); lia. }
  assert (c ≠ -1) as Hc.
  { pose proof (gi_next _ _ Hinv). destruct Hfit as [(? & _)|(-> & _)]; lia. }
  intros u v Hu. rewrite <- (same_graph_neighbors _ _ u Hg). intros Hv Hcu.
  destruct (decide (u = b)) as [->|Hub].
  - rewrite Hcb. assert (v ≠ b) as Hvb by (intros ->; by apply (Hlf b)).
    rewrite (Hco v) by done. intros Heq. by apply (Hfeas v).
  - rewrite (Hco u) in * by done. destruct (decide (v = b)) as [->|Hvb].
    + rewrite Hcb. apply (Hfeas u). by apply (wf_symmetric _ _ Hwf).
    + rewrite (Hco v) by done. by apply Hpp.
Qed.

Lemma greedy_reachable_partial_proper alg_name n st0 st :
  greedy_inv n st0 → well_formed (g_vertices st0) n → loop_free (g_vertices st0) n →
  partial_proper (g_vertices st0) n →
  greedy_reachable alg_name st0 st → partial_proper (g_vertices st) n.
Proof.
  intros Hinv Hwf Hlf Hpp. induction 1 as [|st st' Hr IH Hne Hstep]; [done|].
  assert (greedy_inv n st) as Hinv' by by eapply greedy_reachable_inv.
  pose proof (greedy_reachable_same_graph _ _ _ _ Hinv Hr) as Hg.
  eapply partial_proper_step; [done| | |done..].
  - by eapply well_formed_same_graph.
  - by eapply loop_free_same_graph.
Qed.

(** With every vertex colored, the loop invariant is a proper coloring. *)
Lemma partial_proper_all_colored vs n :
  partial_proper vs n → all_colored vs n → proper_coloring vs n.
Proof. intros Hpp Hall u v Hu Hv. apply Hpp; [done..|]. by apply Hall. Qed.

Lemma greedy_inv_all_colored n st :
  greedy_inv n st → uncolored_vertices_ptrs st = [] → all_colored (g_vertices st) n.
Proof.
  intros Hinv Hunc u Hu Hc.
  assert (u ∈ uncolored_vertices_ptrs st) as Hin by by apply (gi_uncolored _ _ Hinv).
  rewrite Hunc in Hin. by apply elem_of_nil in Hin.
Qed.

(** ** The driver up to the main loop *)

Lemma by_degree_strict_weak_order vs : strict_weak_order (by_degree vs).
Proof.
  unfold by_degree. split.
  - intros a. rewrite Z.gtb_ltb. apply Z.ltb_irrefl.
  - intros a b c. rewrite !Z.gtb_ltb, !Z.ltb_lt. lia.
  - intros a b c. rewrite !Z.gtb_ltb, !Z.ltb_ge. lia.
Qed.

Lemma bootstrap_empty std_sort vs :
  bootstrap std_sort vs 0 = mkGreedy vs [] 0 [].
Proof. done. Qed.

Lemma bootstrap_nonempty std_sort vs n :
  (0 < n)%nat →
  bootstrap std_sort vs n =
    let vs' := reset_colors n vs in
    let sorted := std_sort (by_degree vs') (seq 1 n) in
    mkGreedy (set_color (sorted !!! 0%nat) 0 vs') [0] 1 (erase_ptr (sorted !!! 0%nat) sorted).
Proof. intros Hn. destruct n; [lia|done]. Qed.

Section bootstrap.
Variable std_sort : Compare → list nat → list nat.
Hypothesis Hsort : std_sort_contract std_sort.
Variable vs : list Vertex.
Variable n : nat.
Hypothesis Hlen : length vs = S n.

(** The vertex colored first is a vertex of the graph of maximum degree. *)
Lemma initial_vertex_spec :
  (0 < n)%nat →
  let v0 := std_sort (by_degree (reset_colors n vs)) (seq 1 n) !!! 0%nat in
  (1 ≤ v0 ≤ n)%nat ∧
  v0 ∈ std_sort (by_degree (reset_colors n vs)) (seq 1 n) ∧
  ∀ u, (1 ≤ u ≤ n)%nat → degree (vs !!! u) ≤ degree (vs !!! v0).
Proof.
  intros Hn. simpl.
  set (vs' := reset_colors n vs).
  pose proof (std_sort_perm _ Hsort (by_degree vs') (seq 1 n)) as Hperm.
  pose proof (std_sort_sorted _ Hsort (by_degree vs') (seq 1 n)
                (by_degree_strict_weak_order vs')) as Hsorted.
  destruct (std_sort (by_degree vs') (seq 1 n)) as [|v0 rest] eqn:Hs.
  { apply Permutation_length in Hperm. rewrite length_seq in Hperm. simpl in Hperm. lia. }
  simpl.
  assert (∀ u, u ∈ v0 :: rest ↔ (1 ≤ u ≤ n)%nat) as Hin.
  { intros u. rewrite Hperm, elem_of_seq. lia. }
  split; [apply Hin; left|]. split; [left|].
  intros u Hu%Hin. apply StronglySorted_inv in Hsorted as [_ Hall].
  assert (∀ w, degree (vs !!! w) = degree (vs' !!! w)) as Hdeg.
  { intros w. apply same_graph_degree, same_graph_reset_colors. }
  rewrite !Hdeg. apply elem_of_cons in Hu as [->|Hu]; [lia|].
  eapply Forall_forall in Hall; [|exact Hu]. unfold by_degree in Hall.
  rewrite Z.gtb_ltb, Z.ltb_ge in Hall. lia.
Qed.

Lemma bootstrap_inv : greedy_inv n (bootstrap std_sort vs n).
Proof.
  destruct (decide (n = 0)%nat) as [->|Hn].
  - rewrite bootstrap_empty. split; simpl; try done; try lia.
    + constructor.
    + intros v. split; [by intros ?%elem_of_nil|]. intros [? _]. lia.
  - rewrite bootstrap_nonempty by lia. simpl.
    destruct initial_vertex_spec as (Hr & Hin & _); [lia|]. simpl in *.
    set (vs' := reset_colors n vs) in *.
    pose proof (std_sort_perm _ Hsort (by_degree vs') (seq 1 n)) as Hperm.
    set (sorted := std_sort (by_degree vs') (seq 1 n)) in *.
    set (v0 := sorted !!! 0%nat) in *.
    assert (length vs' = S n) as Hlen' by (unfold vs'; by rewrite length_reset_colors).
    assert (∀ v, (1 ≤ v ≤ n)%nat → color (set_color v0 0 vs' !!! v) = if decide (v = v0) then 0 else -1)
      as Hcol.
    { intros v Hv. unfold vs'.
      rewrite color_set_color, length_reset_colors, color_reset_colors, Hlen.
      fold vs'. fold sorted. fold v0.
      repeat case_decide; try done; try lia; naive_solver lia. }
    split; simpl.
    + by rewrite length_set_color.
    + apply NoDup_filter. rewrite Hperm. apply NoDup_seq.
    + intros v. unfold erase_ptr. rewrite list_elem_of_filter, Hperm, elem_of_seq.
      split.
      * intros [Hne Hv]. split; [lia|]. rewrite Hcol by lia. by rewrite decide_False.
      * intros [Hv Hc]. split; [|lia]. intros ->. rewrite Hcol, decide_True in Hc by done. lia.
    + done.
    + lia.
    + intros v Hv. rewrite Hcol by done. case_decide; [right; lia|by left].
    + intros c Hc. exists v0. split; [done|]. rewrite Hcol, decide_True by done. lia.
Qed.

Lemma bootstrap_same_graph : same_graph vs (g_vertices (bootstrap std_sort vs n)).
Proof.
  clear Hlen Hsort. destruct (decide (n = 0)%nat) as [->|Hn].
  - by rewrite bootstrap_empty.
  - rewrite bootstrap_nonempty by lia. simpl.
    etrans; [apply same_graph_reset_colors|apply same_graph_set_color].
Qed.

Lemma bootstrap_partial_proper :
  well_formed vs n → loop_free vs n →
  partial_proper (g_vertices (bootstrap std_sort vs n)) n.
Proof.
  intros Hwf Hlf. destruct (decide (n = 0)%nat) as [Hn|Hn].
  - intros u v Hu. lia.
  - pose proof bootstrap_same_graph as Hg.
    rewrite bootstrap_nonempty in Hg |- * by lia. simpl in Hg |- *.
    destruct initial_vertex_spec as (Hr & Hin & _); [lia|]. simpl in Hr, Hin.
    set (vs' := reset_colors n vs) in *.
    set (v0 := std_sort (by_degree vs') (seq 1 n) !!! 0%nat) in *.
    intros u v Hu. rewrite <- (same_graph_neighbors _ _ u Hg). intros Hv.
    pose proof (wf_range _ _ Hwf u v Hu Hv) as Hvr.
    rewrite !color_set_color. unfold vs'. rewrite !color_reset_colors, length_reset_colors.
    fold vs'. fold v0. rewrite Hlen.
    destruct (decide (v0 = u ∧ _)) as [[<- _]|Hne].
    + intros _. rewrite decide_False; [rewrite decide_True by lia; lia|].
      intros [<- _]. by apply (Hlf v0).
    + rewrite decide_True by lia. done.
Qed.

End bootstrap.

(** ** The whole generic run *)

Lemma bootstrap_uncolored_length std_sort vs n :
  std_sort_contract std_sort → length vs = S n →
  (length (uncolored_vertices_ptrs (bootstrap std_sort vs n)) ≤ n)%nat.
Proof.
  intros Hsort Hlen. destruct (decide (n = 0)%nat) as [->|Hn]; [done|].
  rewrite bootstrap_nonempty by lia. simpl. unfold erase_ptr.
  etrans; [apply length_filter|].
  by rewrite (std_sort_perm _ Hsort), length_seq.
Qed.

Lemma generic_greedy_run_spec std_sort fuel vs n alg_name :
  std_sort_contract std_sort → length vs = S n → (n ≤ fuel)%nat →
  ∃ st, generic_greedy_run std_sort fuel vs n alg_name = Some (st, Finished) ∧
        greedy_reachable alg_name (bootstrap std_sort vs n) st ∧
        greedy_inv n st ∧
        uncolored_vertices_ptrs st = [] ∧
        same_graph vs (g_vertices st).
Proof.
  intros Hsort Hlen Hfuel.
  pose proof (bootstrap_inv std_sort Hsort vs n Hlen) as Hinv.
  destruct (main_loop_finishes alg_name n fuel _ Hinv) as (st & Hrun & Hreach & Hdone).
  { etrans; [by apply bootstrap_uncolored_length|done]. }
  exists st. split; [done|]. split; [done|].
  split; [by eapply greedy_reachable_inv|]. split; [done|].
  etrans; [apply bootstrap_same_graph|]. by eapply greedy_reachable_same_graph.
Qed.

(** ** [find_max_degree_uncolored_vertex] *)

Lemma find_max_fold_S vs n :
  foldl (find_max_step vs) (None, -1) (seq 1 (S n)) =
    find_max_step vs (foldl (find_max_step vs) (None, -1) (seq 1 n)) (S n).
Proof. by rewrite seq_S, foldl_snoc. Qed.

Lemma find_max_fold_spec vs n :
  match foldl (find_max_step vs) (None, -1) (seq 1 n) with
  | (None, _) => ∀ u, (1 ≤ u ≤ n)%nat → color (vs !!! u) ≠ -1
  | (Some v, d) => d = degree (vs !!! v) ∧ first_max_degree_uncolored vs n v
  end.
Proof.
  induction n as [|n IH].
  - simpl. intros; lia.
  - rewrite find_max_fold_S.
    destruct (foldl (find_max_step vs) (None, -1) (seq 1 n)) as [[v|] d];
      unfold find_max_step; simpl.
    + destruct IH as (-> & Hr & Hc & Hmax & Hfirst).
      destruct (Z.eqb_spec (color (vs !!! S n)) (-1)) as [Hcn|Hcn].
      * destruct (Z.gtb_spec (degree (vs !!! S n)) (degree (vs !!! v))) as [Hgt|Hle].
        -- split; [done|]. split; [lia|]. split; [done|]. split.
           ++ intros u Hu Hcu. destruct (decide (u = S n)) as [->|]; [lia|].
              specialize (Hmax u). lia.
           ++ intros u Hu Hcu. specialize (Hmax u). lia.
        -- split; [done|]. split; [lia|]. split; [done|]. split; [|done].
           intros u Hu Hcu. destruct (decide (u = S n)) as [->|]; [lia|].
           apply Hmax; [lia|done].
      * split; [done|]. split; [lia|]. split; [done|]. split; [|done].
        intros u Hu Hcu. destruct (decide (u = S n)) as [->|]; [done|].
        apply Hmax; [lia|done].
    + destruct (Z.eqb_spec (color (vs !!! S n)) (-1)) as [Hcn|Hcn]; simpl.
      * split; [done|]. split; [lia|]. split; [done|]. split.
        -- intros u Hu Hcu. destruct (decide (u = S n)) as [->|]; [lia|].
           exfalso. apply (IH u); [lia|done].
        -- intros u Hu Hcu. exfalso. apply (IH u); [lia|done].
      * intros u Hu. destruct (decide (u = S n)) as [->|]; [done|]. apply IH. lia.
Qed.

(** The helper returns the first uncolored vertex of maximum degree, and
    [nullptr] only when every vertex is colored. *)
Lemma find_max_degree_uncolored_vertex_Some vs n v :
  find_max_degree_uncolored_vertex vs n = Some v → first_max_degree_uncolored vs n v.
Proof.
  unfold find_max_degree_uncolored_vertex. pose proof (find_max_fold_spec vs n) as H.
  destruct (foldl _ _ _) as [[w|] d]; simpl; [|done]. intros [= ->]. apply H.
Qed.

Lemma find_max_degree_uncolored_vertex_None vs n :
  find_max_degree_uncolored_vertex vs n = None → all_colored vs n.
Proof.
  unfold find_max_degree_uncolored_vertex. pose proof (find_max_fold_spec vs n) as H.
  destruct (foldl _ _ _) as [[w|] d]; simpl; [done|]. intros _. exact H.
Qed.

Lemma find_max_same_but_heuristic vs1 vs2 n :
  same_but_heuristic vs1 vs2 →
  find_max_degree_uncolored_vertex vs1 n = find_max_degree_uncolored_vertex vs2 n.
Proof.
  intros [Hg Hc]. unfold find_max_degree_uncolored_vertex. f_equal.
  induction n as [|n IH]; [done|]. rewrite !find_max_fold_S, IH.
  unfold find_max_step. by rewrite Hc, (same_graph_degree vs1 vs2).
Qed.

(** ** The number of uncolored vertices *)

Lemma uncolored_count_S vs n :
  uncolored_count vs (S n) =
    (uncolored_count vs n + if decide (color (vs !!! S n) = (-1)%Z) then 1 else 0)%nat.
Proof.
  unfold uncolored_count. rewrite seq_S, filter_app, length_app. f_equal.
  simpl. case_decide.
  - by rewrite filter_cons_True.
  - by rewrite filter_cons_False.
Qed.

Lemma uncolored_count_le vs n : (uncolored_count vs n ≤ n)%nat.
Proof.
  unfold uncolored_count. etrans; [apply length_filter|]. by rewrite length_seq.
Qed.

Lemma uncolored_count_0 vs n : uncolored_count vs n = 0%nat ↔ all_colored vs n.
Proof.
  induction n as [|n IH].
  - split; [|done]. intros _ u Hu. lia.
  - rewrite uncolored_count_S. case_decide as Hc.
    + split; [lia|]. intros H. exfalso. apply (H (S n)); [lia|done].
    + rewrite Nat.add_0_r, IH. split.
      * intros H u Hu. destruct (decide (u = S n)) as [->|]; [done|]. apply H. lia.
      * intros H u Hu. apply H. lia.
Qed.

Lemma uncolored_count_agree vs1 vs2 n :
  (∀ i, (1 ≤ i ≤ n)%nat → color (vs1 !!! i) = color (vs2 !!! i)) →
  uncolored_count vs1 n = uncolored_count vs2 n.
Proof.
  induction n as [|n IH]; intros H; [done|].
  rewrite !uncolored_count_S, IH, (H (S n)) by (intros; try apply H; lia). done.
Qed.

Lemma uncolored_count_set_color vs n j c :
  (1 ≤ j ≤ n)%nat → (j < length vs)%nat → color (vs !!! j) = -1 → c ≠ -1 →
  S (uncolored_count (set_color j c vs) n) = uncolored_count vs n.
Proof.
  intros Hj Hlt Hcj Hc. induction n as [|n IH]; [lia|].
  rewrite !uncolored_count_S. destruct (decide (j = S n)) as [->|Hne].
  - rewrite color_set_color_eq, Hcj by done.
    rewrite decide_False, decide_True by done.
    assert (uncolored_count (set_color (S n) c vs) n = uncolored_count vs n) as ->; [|lia].
    apply uncolored_count_agree. intros i Hi. by rewrite color_set_color_ne by lia.
  - rewrite color_set_color_ne by done. rewrite <- IH by lia. lia.
Qed.

Lemma uncolored_count_same_colors vs1 vs2 n :
  same_colors vs1 vs2 → uncolored_count vs1 n = uncolored_count vs2 n.
Proof.
  intros Hc. apply uncolored_count_agree. intros i _. apply Hc.
Qed.

(** ** Coloring one more vertex *)

Lemma partial_proper_same_but_heuristic vs vs' n :
  same_but_heuristic vs vs' → partial_proper vs n → partial_proper vs' n.
Proof.
  intros [Hg Hc] Hpp u v Hu. rewrite <- (same_graph_neighbors _ _ u Hg), <- !Hc.
  by apply Hpp.
Qed.

Lemma partial_proper_set_color vs n j c :
  well_formed vs n → loop_free vs n → partial_proper vs n →
  (1 ≤ j ≤ n)%nat → feasible vs j c →
  partial_proper (set_color j c vs) n.
Proof.
  intros Hwf Hlf Hpp Hj Hfeas u v Hu. rewrite neighbors_set_color. intros Hv.
  assert (j < length vs)%nat as Hlt by (rewrite (wf_length _ _ Hwf); lia).
  destruct (decide (u = j)) as [->|Huj].
  - rewrite color_set_color_eq by done. intros _.
    assert (j ≠ v) as Hvj by (intros <-; by apply (Hlf j)).
    rewrite color_set_color_ne by done. intros Heq. by apply (Hfeas v).
  - rewrite (color_set_color_ne j u) by done. intros Hcu.
    destruct (decide (v = j)) as [->|Hvj].
    + rewrite color_set_color_eq by done. apply (Hfeas u). by apply (wf_symmetric _ _ Hwf).
    + rewrite color_set_color_ne by done. by apply Hpp.
Qed.

(** ** The candidate scan of RLF *)

Lemma rlf_scan_S forbidden vs n :
  rlf_scan forbidden vs (S n) = rlf_scan_step forbidden (rlf_scan forbidden vs n) (S n).
Proof. unfold rlf_scan. by rewrite seq_S, foldl_snoc. Qed.

Lemma rlf_candidate_S forbidden vs n :
  rlf_candidate forbidden vs (S n) =
    rlf_candidate_step forbidden vs (rlf_candidate forbidden vs n) (S n).
Proof. unfold rlf_candidate. by rewrite seq_S, foldl_snoc. Qed.

(** The scan changes heuristic values only and returns the candidate that
    [rlf_candidate] describes. *)
Lemma rlf_scan_spec forbidden vs n :
  (n < length vs)%nat →
  same_but_heuristic vs (rlf_scan forbidden vs n).1.1 ∧
  ((rlf_scan forbidden vs n).1.2, (rlf_scan forbidden vs n).2) = rlf_candidate forbidden vs n.
Proof.
  induction n as [|n IH]; intros Hn; [done|].
  destruct IH as [IH1 IH2]; [lia|].
  rewrite rlf_scan_S, rlf_candidate_S, <- IH2.
  destruct (rlf_scan forbidden vs n) as [[vs1 cand] m]. simpl in *.
  unfold rlf_scan_step, rlf_candidate_step. simpl.
  destruct IH1 as [Hg Hc]. rewrite <- Hc, <- (same_graph_neighbors _ _ _ Hg).
  assert (same_but_heuristic vs vs1) as Hs1 by by split.
  destruct (_ && _); [|done].
  set (adj := count_adj_in_U forbidden (neighbors (vs !!! S n))).
  assert (S n < length vs1)%nat as Hlt by by rewrite <- (same_graph_length _ _ Hg).
  assert (same_but_heuristic vs (set_heuristic (S n) adj vs1)) as Hs.
  { etrans; [exact Hs1|]. apply same_but_heuristic_set_heuristic. }
  destruct cand as [c|]; simpl.
  - rewrite heuristic_set_heuristic_eq, !degree_set_heuristic by done.
    rewrite <- !(same_graph_degree vs vs1) by done.
    by destruct (_ || _).
  - by rewrite heuristic_set_heuristic_eq.
Qed.

Lemma rlf_candidate_Some forbidden vs n j :
  (rlf_candidate forbidden vs n).1 = Some j →
  (1 ≤ j ≤ n)%nat ∧ color (vs !!! j) = -1 ∧ forbidden !!! j = false.
Proof.
  induction n as [|n IH]; [done|].
  rewrite rlf_candidate_S. unfold rlf_candidate_step.
  destruct (Z.eqb_spec (color (vs !!! S n)) (-1)) as [Hc|Hc]; simpl;
    [destruct (forbidden !!! S n) eqn:Hf; simpl|]; try (intros [??]%IH; split; [lia|done]).
  destruct (rlf_candidate forbidden vs n).1 as [c|] eqn:Hcand.
  - destruct (_ || _); simpl.
    + intros [= <-]. split; [lia|done].
    + rewrite Hcand. intros [??]%IH. split; [lia|done].
  - simpl. intros [= <-]. split; [lia|done].
Qed.

Lemma rlf_candidate_same_but_heuristic forbidden vs1 vs2 n :
  same_but_heuristic vs1 vs2 → rlf_candidate forbidden vs1 n = rlf_candidate forbidden vs2 n.
Proof.
  intros [Hg Hc]. induction n as [|n IH]; [done|].
  rewrite !rlf_candidate_S, IH. unfold rlf_candidate_step.
  rewrite Hc, (same_graph_neighbors vs1 vs2), (same_graph_degree vs1 vs2) by done.
  destruct (_ && _); [|done]. destruct (rlf_candidate forbidden vs2 n).1; [|done].
  by rewrite (same_graph_degree vs1 vs2).
Qed.

(** ** The forbidden set *)

Lemma length_mark_forbidden nbrs forbidden :
  length (mark_forbidden nbrs forbidden) = length forbidden.
Proof.
  unfold mark_forbidden. induction nbrs as [|w nbrs IH] using rev_ind; [done|].
  by rewrite foldl_snoc, length_insert.
Qed.

Lemma mark_forbidden_keeps nbrs forbidden w :
  forbidden !!! w = true → mark_forbidden nbrs forbidden !!! w = true.
Proof.
  intros Hw. unfold mark_forbidden. induction nbrs as [|x nbrs IH] using rev_ind; [done|].
  rewrite foldl_snoc, list_lookup_total_insert. by case_decide.
Qed.

Lemma mark_forbidden_marks nbrs forbidden w :
  w ∈ nbrs → (w < length forbidden)%nat → mark_forbidden nbrs forbidden !!! w = true.
Proof.
  intros Hw Hlt. induction nbrs as [|x nbrs IH] using rev_ind.
  - by apply elem_of_nil in Hw.
  - unfold mark_forbidden. rewrite foldl_snoc. fold (mark_forbidden nbrs forbidden).
    rewrite list_lookup_total_insert, length_mark_forbidden.
    case_decide as Hx; [done|]. apply IH.
    apply elem_of_app in Hw as [?|Hw%list_elem_of_singleton]; [done|].
    subst x. exfalso. apply Hx. by split.
Qed.

(** ** The invariants of RLF *)

Lemma rlf_inv_same_but_heuristic n vs vs' cur total :
  same_but_heuristic vs vs' → rlf_inv n (mkRLF vs cur total) → rlf_inv n (mkRLF vs' cur total).
Proof.
  intros Hs [Hl Hcur Htot Hcol Hused Hpp]. simpl in *.
  pose proof Hs as [Hg Hc]. split; simpl.
  - by rewrite <- (same_graph_length _ _ Hg).
  - done.
  - by rewrite <- (uncolored_count_same_colors vs vs').
  - intros v Hv. rewrite <- Hc. by apply Hcol.
  - intros c Hcr. destruct (Hused c Hcr) as (v & Hv & Hcv). exists v. by rewrite <- Hc.
  - intros Hwf Hlf. apply (partial_proper_same_but_heuristic vs); [done|].
    apply Hpp.
    + eapply well_formed_same_graph; [|exact Hwf]. by symmetry.
    + eapply loop_free_same_graph; [|exact Hlf]. by symmetry.
Qed.

(** Coloring an uncolored vertex [j] with a feasible color [c], where the
    bound on the colors moves from [K] to [K'] and [c] is the only color
    that may be new. *)
Lemma rlf_inv_set_color n vs K K' total j c :
  rlf_inv n (mkRLF vs K total) →
  (1 ≤ j ≤ n)%nat → color (vs !!! j) = -1 →
  0 ≤ c < K' → K ≤ K' → (∀ x, K ≤ x < K' → x = c) →
  (well_formed vs n → feasible vs j c) →
  rlf_inv n (mkRLF (set_color j c vs) K' (total + 1)).
Proof.
  intros [Hl Hcur Htot Hcol Hused Hpp] Hj Hcj Hc HK Hnew Hfeas. simpl in *.
  assert (j < length vs)%nat as Hlt by lia.
  split; simpl.
  - by rewrite length_set_color.
  - lia.
  - rewrite <- Htot, <- (uncolored_count_set_color vs n j c) by (done || lia). lia.
  - intros v Hv. destruct (decide (v = j)) as [->|Hne].
    + rewrite color_set_color_eq by done. right. lia.
    + rewrite color_set_color_ne by done. destruct (Hcol v Hv); [by left|right; lia].
  - intros x Hx. destruct (decide (x < K)) as [Hlt'|Hge].
    + destruct (Hused x) as (v & Hv & Hcv); [lia|]. exists v. split; [done|].
      rewrite color_set_color_ne; [done|]. intros <-. lia.
    + exists j. split; [done|]. rewrite color_set_color_eq by done. symmetry. apply Hnew. lia.
  - intros Hwf Hlf.
    assert (well_formed vs n) as Hwf'.
    { eapply well_formed_same_graph; [|exact Hwf]. symmetry. apply same_graph_set_color. }
    assert (loop_free vs n) as Hlf'.
    { eapply loop_free_same_graph; [|exact Hlf]. symmetry. apply same_graph_set_color. }
    apply partial_proper_set_color; auto.
Qed.

Lemma rlf_class_inv_step n forbidden vs vs' cur total j :
  rlf_class_inv n forbidden (mkRLF vs cur total) →
  same_but_heuristic vs vs' →
  (1 ≤ j ≤ n)%nat → color (vs' !!! j) = -1 → forbidden !!! j = false →
  rlf_class_inv n (mark_forbidden (neighbors (vs' !!! j)) forbidden)
    (mkRLF (set_color j cur vs') cur (total + 1)).
Proof.
  intros [Hinv Hcur0 Hlen Hforb] Hs Hj Hcj Hfj. simpl in *.
  pose proof Hs as [Hg Hc].
  apply (rlf_inv_same_but_heuristic _ _ _ _ _ Hs) in Hinv.
  pose proof (ri_current _ _ Hinv) as Hcur. simpl in Hcur.
  pose proof (ri_length _ _ Hinv) as Hl. simpl in Hl.
  assert (j < length vs')%nat as Hlt by lia.
  split; simpl.
  - eapply rlf_inv_set_color; try done; try lia.
    + intros Hwf w Hw Hcw.
      pose proof (wf_range _ _ Hwf j w Hj Hw) as Hwr.
      assert (forbidden !!! j = true); [|congruence].
      apply (Hforb w j); [done..|by rewrite Hc|].
      rewrite (same_graph_neighbors _ _ w Hg). by apply (wf_symmetric _ _ Hwf).
  - done.
  - by rewrite length_mark_forbidden.
  - intros u w Hu Hw. rewrite neighbors_set_color. destruct (decide (u = j)) as [->|Hne].
    + intros _ Hin. apply mark_forbidden_marks; [done|lia].
    + rewrite color_set_color_ne by done. intros Hcu Hin.
      apply mark_forbidden_keeps, (Hforb u w); [done..|by rewrite Hc|].
      by rewrite (same_graph_neighbors _ _ u Hg).
Qed.

Lemma rlf_class_loop_spec n fuel forbidden st st' :
  rlf_class_inv n forbidden st → rlf_class_loop fuel n forbidden st = Some st' →
  rlf_inv n (mkRLF (r_vertices st') (current_color st + 1) (total_colored_vertices st')) ∧
  current_color st' = current_color st ∧
  same_graph (r_vertices st) (r_vertices st') ∧
  (∀ i, ¬ (1 ≤ i ≤ n)%nat → color (r_vertices st' !!! i) = color (r_vertices st !!! i)) ∧
  total_colored_vertices st ≤ total_colored_vertices st'.
Proof.
  revert forbidden st. induction fuel as [|fuel IH]; intros forbidden [vs cur total] Hinv;
    simpl; [done|].
  pose proof (ri_length _ _ (rc_inv _ _ _ Hinv)) as Hlen. simpl in Hlen.
  destruct (rlf_scan_spec forbidden vs n) as [Hs Hcand]; [lia|].
  destruct (rlf_scan forbidden vs n) as [[vs1 cand] m]. simpl in Hs, Hcand.
  destruct cand as [j|].
  - assert ((rlf_candidate forbidden vs n).1 = Some j) as Hj by by rewrite <- Hcand.
    apply rlf_candidate_Some in Hj as (Hjr & Hjc & Hjf).
    pose proof Hs as [Hg Hc]. rewrite Hc in Hjc.
    pose proof (rlf_class_inv_step _ _ _ _ _ _ _ Hinv Hs Hjr Hjc Hjf) as Hinv'.
    intros Hrun. destruct (IH _ _ Hinv' Hrun) as (H1 & H2 & H3 & H4 & H5). simpl in *.
    split; [done|]. split; [done|]. split.
    { etrans; [exact Hg|]. etrans; [apply same_graph_set_color|exact H3]. }
    split; [|lia].
    intros i Hi. rewrite H4, color_set_color_ne by (done || lia). symmetry. apply Hc.
  - intros [= <-]. simpl. split.
    { eapply rlf_inv_same_but_heuristic; [exact Hs|]. apply (rc_inv _ _ _ Hinv). }
    split; [done|]. split; [apply Hs|]. split; [|lia]. intros i _. symmetry. apply Hs.
Qed.

Lemma rlf_class_loop_terminates n fuel forbidden st :
  rlf_class_inv n forbidden st → (uncolored_count (r_vertices st) n < fuel)%nat →
  is_Some (rlf_class_loop fuel n forbidden st).
Proof.
  revert forbidden st. induction fuel as [|fuel IH]; intros forbidden [vs cur total] Hinv Hfuel;
    simpl in *; [lia|].
  pose proof (ri_length _ _ (rc_inv _ _ _ Hinv)) as Hlen. simpl in Hlen.
  destruct (rlf_scan_spec forbidden vs n) as [Hs Hcand]; [lia|].
  destruct (rlf_scan forbidden vs n) as [[vs1 cand] m]. simpl in Hs, Hcand.
  destruct cand as [j|]; [|by eexists].
  assert ((rlf_candidate forbidden vs n).1 = Some j) as Hj by by rewrite <- Hcand.
  apply rlf_candidate_Some in Hj as (Hjr & Hjc & Hjf).
  pose proof Hs as [Hg Hc]. rewrite Hc in Hjc.
  apply IH.
  - by apply (rlf_class_inv_step _ _ vs).
  - simpl. pose proof (rc_current _ _ _ Hinv) as Hcur. simpl in Hcur.
    pose proof (uncolored_count_set_color vs1 n j cur Hjr) as Hdec.
    rewrite <- (same_graph_length _ _ Hg), (uncolored_count_same_colors vs vs1) in * by done.
    lia.
Qed.

(** The seed of a class starts the inner invariant. *)
Lemma rlf_class_inv_seed n st v :
  rlf_inv n st → (1 ≤ v ≤ n)%nat → color (r_vertices st !!! v) = -1 →
  let vs := set_color v (current_color st) (r_vertices st) in
  rlf_class_inv n
    (mark_forbidden (neighbors (vs !!! v)) (replicate (n + 1) false))
    (mkRLF vs (current_color st) (total_colored_vertices st + 1)).
Proof.
  destruct st as [vs cur total]. intros Hinv Hv Hcv. simpl in *.
  pose proof (ri_current _ _ Hinv) as Hcur. pose proof (ri_length _ _ Hinv) as Hlen.
  pose proof (ri_colors _ _ Hinv) as Hcol. simpl in *.
  split; simpl.
  - eapply rlf_inv_set_color; try done; try lia.
    intros Hwf w Hw. apply (wf_range _ _ Hwf) in Hw; [|done].
    destruct (Hcol w Hw); lia.
  - done.
  - by rewrite length_mark_forbidden, length_replicate, Nat.add_1_r.
  - intros u w Hu Hw. rewrite !neighbors_set_color.
    destruct (decide (u = v)) as [->|Hne].
    + intros _ Hin. apply mark_forbidden_marks; [done|]. rewrite length_replicate. lia.
    + rewrite color_set_color_ne by done. destruct (Hcol u Hu); lia.
Qed.

Lemma rlf_class_spec n inner v st st' :
  rlf_inv n st → first_max_degree_uncolored (r_vertices st) n v →
  rlf_class inner n v st = Some st' →
  rlf_inv n st' ∧
  current_color st' = current_color st + 1 ∧
  same_graph (r_vertices st) (r_vertices st') ∧
  (∀ i, ¬ (1 ≤ i ≤ n)%nat → color (r_vertices st' !!! i) = color (r_vertices st !!! i)) ∧
  total_colored_vertices st < total_colored_vertices st'.
Proof.
  intros Hinv (Hv & Hcv & _) Hrun. unfold rlf_class in Hrun.
  pose proof (rlf_class_inv_seed n st v Hinv Hv Hcv) as Hseed. simpl in Hseed.
  destruct (rlf_class_loop _ _ _ _) as [st1|] eqn:Hloop; [|done].
  simpl in Hrun. injection Hrun as <-.
  destruct (rlf_class_loop_spec _ _ _ _ _ Hseed Hloop) as (H1 & H2 & H3 & H4 & H5).
  simpl in *. rewrite H2. split; [done|]. split; [done|]. split.
  { etrans; [apply same_graph_set_color|exact H3]. }
  split; [|lia]. intros i Hi. rewrite H4, color_set_color_ne by (done || lia). done.
Qed.

Lemma rlf_class_terminates n inner v st :
  rlf_inv n st → first_max_degree_uncolored (r_vertices st) n v → (n ≤ inner)%nat →
  is_Some (rlf_class inner n v st).
Proof.
  intros Hinv (Hv & Hcv & _) Hfuel. unfold rlf_class.
  pose proof (rlf_class_inv_seed n st v Hinv Hv Hcv) as Hseed. simpl in Hseed.
  destruct (rlf_class_loop_terminates n inner _ _ Hseed) as [st1 ->]; [|by eexists].
  simpl. pose proof (ri_current _ _ Hinv) as Hcur. pose proof (ri_length _ _ Hinv) as Hlen.
  pose proof (uncolored_count_set_color (r_vertices st) n v (current_color st) Hv) as Hdec.
  pose proof (uncolored_count_le (r_vertices st) n). lia.
Qed.

Lemma rlf_inv_total n st :
  rlf_inv n st →
  (total_colored_vertices st <? Z.of_nat n) = false ↔ all_colored (r_vertices st) n.
Proof.
  intros Hinv. pose proof (ri_total _ _ Hinv) as Htot.
  rewrite <- uncolored_count_0, Z.ltb_ge. lia.
Qed.

(** The outer loop, whatever the fuel: if it returns, it returns through its
    exit test with every vertex colored. *)
Lemma rlf_loop_spec n inner fuel st st' e :
  rlf_inv n st → rlf_loop inner fuel n st = Some (st', e) →
  e = Finished ∧ rlf_inv n st' ∧ all_colored (r_vertices st') n ∧
  same_graph (r_vertices st) (r_vertices st') ∧
  (∀ i, ¬ (1 ≤ i ≤ n)%nat → color (r_vertices st' !!! i) = color (r_vertices st !!! i)) ∧
  current_color st ≤ current_color st'.
Proof.
  revert st. induction fuel as [|fuel IH]; intros st Hinv; simpl;
    destruct (total_colored_vertices st <? Z.of_nat n) eqn:Htot;
    try done; try (intros [= <- <-]; by apply rlf_inv_total in Htot).
  destruct (find_max_degree_uncolored_vertex (r_vertices st) n) as [v|] eqn:Hfind.
  - apply find_max_degree_uncolored_vertex_Some in Hfind.
    destruct (rlf_class inner n v st) as [st1|] eqn:Hclass; [|done]. simpl.
    destruct (rlf_class_spec _ _ _ _ _ Hinv Hfind Hclass) as (H1 & H2 & H3 & H4 & H5).
    intros Hrun. destruct (IH _ H1 Hrun) as (I1 & I2 & I3 & I4 & I5 & I6).
    split; [done|]. split; [done|]. split; [done|]. split; [by etrans|].
    split; [|lia]. intros i Hi. by rewrite I5, H4.
  - apply find_max_degree_uncolored_vertex_None, rlf_inv_total in Hfind; [|done]. congruence.
Qed.

Lemma rlf_loop_terminates n inner fuel st :
  rlf_inv n st → (n ≤ inner)%nat → (uncolored_count (r_vertices st) n ≤ fuel)%nat →
  is_Some (rlf_loop inner fuel n st).
Proof.
  revert st. induction fuel as [|fuel IH]; intros st Hinv Hinner Hfuel; simpl;
    destruct (total_colored_vertices st <? Z.of_nat n) eqn:Htot; try by eexists.
  - pose proof (ri_total _ _ Hinv). apply Z.ltb_lt in Htot. lia.
  - destruct (find_max_degree_uncolored_vertex (r_vertices st) n) as [v|] eqn:Hfind;
      [|by eexists].
    apply find_max_degree_uncolored_vertex_Some in Hfind.
    destruct (rlf_class_terminates n inner v st Hinv Hfind Hinner) as [st1 Hclass].
    rewrite Hclass. simpl.
    destruct (rlf_class_spec _ _ _ _ _ Hinv Hfind Hclass) as (H1 & _ & _ & _ & H5).
    apply IH; [done..|].
    pose proof (ri_total _ _ Hinv). pose proof (ri_total _ _ H1). lia.
Qed.

Lemma uncolored_count_all vs n :
  (∀ i, (1 ≤ i ≤ n)%nat → color (vs !!! i) = -1) → uncolored_count vs n = n.
Proof.
  induction n as [|n IH]; intros H; [done|].
  rewrite uncolored_count_S, IH, decide_True by (intros; apply H; lia). lia.
Qed.

Lemma rlf_inv_init vs n :
  length vs = S n → rlf_inv n (mkRLF (reset_colors n vs) 0 0).
Proof.
  intros Hlen.
  assert (∀ i, (1 ≤ i ≤ n)%nat → color (reset_colors n vs !!! i) = -1) as Hc.
  { intros i Hi. rewrite color_reset_colors, decide_True; [done|lia]. }
  split; simpl.
  - by rewrite length_reset_colors.
  - done.
  - by rewrite uncolored_count_all.
  - intros v Hv. left. by apply Hc.
  - intros; lia.
  - intros _ _ u v Hu _ Hcu. by rewrite Hc in Hcu.
Qed.

Lemma RLF_run_spec fuel vs n st e :
  length vs = S n → RLF_run fuel vs n = Some (st, e) →
  e = Finished ∧ rlf_inv n st ∧ all_colored (r_vertices st) n ∧
  same_graph vs (r_vertices st) ∧
  (∀ i, ¬ (1 ≤ i ≤ n)%nat → color (r_vertices st !!! i) = color (vs !!! i)).
Proof.
  intros Hlen Hrun.
  destruct (rlf_loop_spec _ _ _ _ _ _ (rlf_inv_init vs n Hlen) Hrun)
    as (H1 & H2 & H3 & H4 & H5 & _). simpl in *.
  split; [done|]. split; [done|]. split; [done|]. split.
  { etrans; [apply same_graph_reset_colors|exact H4]. }
  intros i Hi. rewrite H5, color_reset_colors, decide_False by (done || lia). done.
Qed.

Lemma RLF_run_terminates fuel vs n :
  length vs = S n → (n ≤ fuel)%nat → is_Some (RLF_run fuel vs n).
Proof.
  intros Hlen Hfuel. apply (rlf_loop_terminates n); [by apply rlf_inv_init|done|].
  simpl. etrans; [apply uncolored_count_le|done].
Qed.

(** ** The drivers do not read heuristic values they have not written *)

Lemma isColorValid_same_but_heuristic vs1 vs2 v c :
  same_but_heuristic vs1 vs2 →
  isColorValid (vs1 !!! v) c vs1 = isColorValid (vs2 !!! v) c vs2.
Proof.
  intros Hs. apply eq_true_iff_eq. rewrite !isColorValid_feasible.
  by apply feasible_same_but_heuristic.
Qed.

Lemma first_valid_same_but_heuristic palette vs1 vs2 v :
  same_but_heuristic vs1 vs2 →
  first_valid palette (vs1 !!! v) vs1 = first_valid palette (vs2 !!! v) vs2.
Proof.
  intros Hs. induction palette as [|c palette IH]; simpl; [done|].
  by rewrite IH, (isColorValid_same_but_heuristic vs1 vs2).
Qed.

Lemma assign_color_equiv b st1 st2 :
  greedy_equiv st1 st2 → greedy_equiv (assign_color b st1) (assign_color b st2).
Proof.
  intros (Hs & Hp & Hn & Hu). unfold assign_color.
  rewrite <- Hp, <- Hn, <- Hu, <- (first_valid_same_but_heuristic _ _ _ _ Hs).
  destruct (_ =? _); (split; [by apply same_but_heuristic_set_color|done]).
Qed.

Lemma assign_color_frame b st :
  length (g_vertices (assign_color b st)) = length (g_vertices st) ∧
  uncolored_vertices_ptrs (assign_color b st) = erase_ptr b (uncolored_vertices_ptrs st).
Proof. unfold assign_color. destruct (_ =? _); simpl; by rewrite length_set_color. Qed.

Lemma erase_ptr_range (P : nat → Prop) b l : Forall P l → Forall P (erase_ptr b l).
Proof.
  rewrite !Forall_forall. intros H x Hx. apply H.
  unfold erase_ptr in Hx. by apply list_elem_of_filter in Hx as [_ ?].
Qed.

Lemma main_loop_nil fuel alg_name st :
  uncolored_vertices_ptrs st = [] → main_loop fuel alg_name st = Some (st, Finished).
Proof. intros H. destruct fuel; simpl; by rewrite H. Qed.

Lemma main_loop_O alg_name st :
  uncolored_vertices_ptrs st ≠ [] → main_loop 0 alg_name st = None.
Proof. intros H. simpl. by destruct (uncolored_vertices_ptrs st). Qed.

Lemma main_loop_S fuel alg_name st :
  uncolored_vertices_ptrs st ≠ [] →
  main_loop (S fuel) alg_name st =
    match greedy_step alg_name st with
    | inl st' => main_loop fuel alg_name st'
    | inr st' => Some (st', Warned)
    end.
Proof. intros H. simpl. by destruct (uncolored_vertices_ptrs st). Qed.

Lemma main_loop_equiv alg_name fuel st1 st2 :
  greedy_equiv st1 st2 →
  Forall (λ v, (v < length (g_vertices st1))%nat) (uncolored_vertices_ptrs st1) →
  option_Forall2 (λ r1 r2, greedy_equiv r1.1 r2.1 ∧ r1.2 = r2.2)
    (main_loop fuel alg_name st1) (main_loop fuel alg_name st2).
Proof.
  revert st1 st2. induction fuel as [|fuel IH]; intros st1 st2 Heq Hrange;
    pose proof Heq as (Hs & Hp & Hn & Hu);
    (destruct (decide (uncolored_vertices_ptrs st1 = [])) as [Hnil|Hne1];
     [rewrite !main_loop_nil by congruence; by constructor|]);
    assert (uncolored_vertices_ptrs st2 ≠ []) as Hne2 by by rewrite <- Hu.
  - rewrite !main_loop_O by done. constructor.
  - rewrite !main_loop_S by done.
    assert (Forall (λ v, (v < length (g_vertices st2))%nat) (uncolored_vertices_ptrs st2))
      as Hrange2.
    { rewrite <- Hu, <- (same_graph_length (g_vertices st1)); [done|apply Hs]. }
    destruct (greedy_step_inl alg_name st1 Hrange Hne1) as (b1 & vs1 & Hb1 & _ & _ & Hs1 & ->).
    destruct (greedy_step_inl alg_name st2 Hrange2 Hne2) as (b2 & vs2 & Hb2 & _ & _ & Hs2 & ->).
    rewrite <- Hu, <- (selected_same_but_heuristic _ _ _ _ Hs), Hb1 in Hb2.
    injection Hb2 as <-. apply IH.
    + apply assign_color_equiv. split; [|by repeat split]. simpl.
      etrans; [symmetry; exact Hs1|]. etrans; [exact Hs|exact Hs2].
    + destruct (assign_color_frame b1 (mkGreedy vs1 (color_palette st1)
        (next_available_color_idx st1) (uncolored_vertices_ptrs st1))) as [-> ->].
      simpl. apply erase_ptr_range.
      by rewrite <- (same_graph_length (g_vertices st1)) by apply Hs1.
Qed.

Lemma bootstrap_equiv std_sort vs1 vs2 n :
  std_sort_contract std_sort →
  same_but_heuristic (reset_colors n vs1) (reset_colors n vs2) →
  greedy_equiv (bootstrap std_sort vs1 n) (bootstrap std_sort vs2 n).
Proof.
  intros Hsort Hs. destruct (decide (n = 0)%nat) as [->|Hn].
  - rewrite !bootstrap_empty. by split.
  - rewrite !bootstrap_nonempty by lia. simpl.
    assert (std_sort (by_degree (reset_colors n vs1)) (seq 1 n) =
            std_sort (by_degree (reset_colors n vs2)) (seq 1 n)) as ->.
    { apply (std_sort_ext _ Hsort). intros a b. unfold by_degree.
      destruct Hs as [Hg _]. by rewrite !(same_graph_degree _ _ _ Hg). }
    split; [|done]. simpl. by apply same_but_heuristic_set_color.
Qed.

Lemma generic_greedy_run_equiv std_sort fuel vs1 vs2 n alg_name :
  std_sort_contract std_sort → length vs1 = S n →
  same_but_heuristic (reset_colors n vs1) (reset_colors n vs2) →
  option_Forall2 (λ r1 r2, greedy_equiv r1.1 r2.1 ∧ r1.2 = r2.2)
    (generic_greedy_run std_sort fuel vs1 n alg_name)
    (generic_greedy_run std_sort fuel vs2 n alg_name).
Proof.
  intros Hsort Hlen Hs. apply main_loop_equiv.
  - by apply bootstrap_equiv.
  - by apply greedy_inv_range with n, bootstrap_inv.
Qed.

Lemma generic_greedy_coloring_equiv std_sort fuel vs1 vs2 n alg_name :
  std_sort_contract std_sort → length vs1 = S n →
  same_but_heuristic (reset_colors n vs1) (reset_colors n vs2) →
  option_Forall2 (λ r1 r2, same_colors r1.1 r2.1 ∧ r1.2 = r2.2)
    (generic_greedy_coloring std_sort fuel vs1 n alg_name)
    (generic_greedy_coloring std_sort fuel vs2 n alg_name).
Proof.
  intros Hsort Hlen Hs. unfold generic_greedy_coloring.
  destruct (generic_greedy_run_equiv std_sort fuel vs1 vs2 n alg_name Hsort Hlen Hs)
    as [r1 r2 [(H1 & _ & H2 & _) _]|]; simpl; [|constructor].
  constructor. split; [apply H1|done].
Qed.

Lemma rlf_class_loop_equiv n fuel forbidden st1 st2 :
  rlf_equiv st1 st2 → (n < length (r_vertices st1))%nat →
  option_Forall2 rlf_equiv
    (rlf_class_loop fuel n forbidden st1) (rlf_class_loop fuel n forbidden st2).
Proof.
  revert forbidden st1 st2.
  induction fuel as [|fuel IH];
    intros forbidden [vs1 cur total] [vs2 cur2 total2] (Hs & Hcur & Htot) Hlen;
    simpl in *; subst cur2 total2; [constructor|].
  assert (n < length vs2)%nat as Hlen2.
  { rewrite <- (same_graph_length vs1 vs2); [done|apply Hs]. }
  destruct (rlf_scan_spec forbidden vs1 n Hlen) as [Hs1 Hc1].
  destruct (rlf_scan_spec forbidden vs2 n Hlen2) as [Hs2 Hc2].
  rewrite <- (rlf_candidate_same_but_heuristic _ _ _ _ Hs), <- Hc1 in Hc2.
  destruct (rlf_scan forbidden vs1 n) as [[vs1' cand1] m1].
  destruct (rlf_scan forbidden vs2 n) as [[vs2' cand2] m2].
  simpl in *. injection Hc2 as -> ->.
  assert (same_but_heuristic vs1' vs2') as Hs'.
  { etrans; [symmetry; exact Hs1|]. etrans; [exact Hs|exact Hs2]. }
  destruct cand1 as [j|].
  - rewrite (same_graph_neighbors vs1' vs2') by apply Hs'. apply IH.
    + split; [|done]. simpl. by apply same_but_heuristic_set_color.
    + simpl. rewrite length_set_color, <- (same_graph_length vs1 vs1'); [done|apply Hs1].
  - constructor. by split.
Qed.

Lemma rlf_class_equiv n inner v st1 st2 :
  rlf_equiv st1 st2 → (n < length (r_vertices st1))%nat →
  option_Forall2 rlf_equiv (rlf_class inner n v st1) (rlf_class inner n v st2).
Proof.
  intros (Hs & Hcur & Htot) Hlen. unfold rlf_class.
  rewrite !neighbors_set_color, (same_graph_neighbors (r_vertices st1) (r_vertices st2))
    by apply Hs.
  rewrite <- Hcur, <- Htot.
  destruct (rlf_class_loop_equiv n inner
    (mark_forbidden (neighbors (r_vertices st2 !!! v)) (replicate (n + 1) false))
    (mkRLF (set_color v (current_color st1) (r_vertices st1)) (current_color st1)
           (total_colored_vertices st1 + 1))
    (mkRLF (set_color v (current_color st1) (r_vertices st2)) (current_color st1)
           (total_colored_vertices st1 + 1))) as [r1 r2 (H1 & H2 & H3)|].
  - split; [|done]. simpl. by apply same_but_heuristic_set_color.
  - simpl. by rewrite length_set_color.
  - simpl. constructor. split; [done|]. simpl. by rewrite H2, H3.
  - constructor.
Qed.

Lemma rlf_class_length n inner v st st' :
  (n < length (r_vertices st))%nat → rlf_class inner n v st = Some st' →
  length (r_vertices st') = length (r_vertices st).
Proof.
  intros Hlen. unfold rlf_class.
  set (forbidden := mark_forbidden _ _). clearbody forbidden.
  assert (∀ fuel forbidden st0 st1, (n < length (r_vertices st0))%nat →
            rlf_class_loop fuel n forbidden st0 = Some st1 →
            length (r_vertices st1) = length (r_vertices st0)) as Hloop.
  { clear. induction fuel as [|fuel IH]; intros forbidden st0 st1 Hlen; simpl; [done|].
    destruct (rlf_scan_spec forbidden (r_vertices st0) n Hlen) as [[[Hl _] _] _].
    destruct (rlf_scan forbidden (r_vertices st0) n) as [[vs cand] m]. simpl in Hl.
    destruct cand as [j|].
    - intros Hrun. apply IH in Hrun; simpl in *; rewrite ?length_set_color in *; lia.
    - intros [= <-]. simpl. lia. }
  destruct (rlf_class_loop _ _ _ _) as [st1|] eqn:Hrun; [|done].
  simpl. intros [= <-]. simpl. apply Hloop in Hrun; simpl in *;
    rewrite ?length_set_color in *; lia.
Qed.

Lemma rlf_loop_equiv n inner fuel st1 st2 :
  rlf_equiv st1 st2 → (n < length (r_vertices st1))%nat →
  option_Forall2 (λ r1 r2, rlf_equiv r1.1 r2.1 ∧ r1.2 = r2.2)
    (rlf_loop inner fuel n st1) (rlf_loop inner fuel n st2).
Proof.
  revert st1 st2. induction fuel as [|fuel IH]; intros st1 st2 Heq Hlen;
    pose proof Heq as (Hs & Hcur & Htot); simpl; rewrite <- Htot;
    (destruct (_ <? _); [|by constructor]); [constructor|].
  rewrite <- (find_max_same_but_heuristic _ _ _ Hs).
  destruct (find_max_degree_uncolored_vertex (r_vertices st1) n) as [v|]; [|by constructor].
  pose proof (rlf_class_length n inner v st1) as Hl.
  destruct (rlf_class_equiv n inner v st1 st2 Heq Hlen) as [r1 r2 Hr|];
    simpl; [|constructor].
  apply IH; [done|]. rewrite (Hl r1); done.
Qed.

Lemma RLF_coloring_equiv fuel vs1 vs2 n :
  length vs1 = S n →
  same_but_heuristic (reset_colors n vs1) (reset_colors n vs2) →
  option_Forall2 (λ r1 r2, same_colors r1.1 r2.1 ∧ r1.2 = r2.2)
    (RLF_coloring fuel vs1 n) (RLF_coloring fuel vs2 n).
Proof.
  intros Hlen Hs. unfold RLF_coloring, RLF_run.
  destruct (rlf_loop_equiv n fuel fuel (mkRLF (reset_colors n vs1) 0 0)
              (mkRLF (reset_colors n vs2) 0 0)) as [r1 r2 [(H1 & H2 & _) _]|].
  - by split.
  - simpl. rewrite length_reset_colors. lia.
  - simpl. constructor. split; [apply H1|done].
  - constructor.
Qed.

(** ** The executable checks *)

Lemma existsb_eqb_elem_of (u : nat) (l : list nat) : existsb (Nat.eqb u) l = true ↔ u ∈ l.
Proof.
  rewrite existsb_exists. setoid_rewrite Nat.eqb_eq. setoid_rewrite <- list_elem_of_In.
  naive_solver.
Qed.

Lemma well_formedb_correct vs n : well_formedb vs n = true → well_formed vs n.
Proof.
  unfold well_formedb. rewrite andb_true_iff, Nat.eqb_eq, forallb_forall.
  intros [Hlen H]. split; [done|..]; intros u v Hu Hv.
  - assert (In u (seq 1 n)) as Hin by (apply list_elem_of_In, elem_of_seq; lia).
    apply H in Hin. rewrite forallb_forall in Hin.
    apply list_elem_of_In, Hin in Hv. rewrite !andb_true_iff in Hv.
    destruct Hv as [[?%Nat.leb_le ?%Nat.leb_le] _]. lia.
  - assert (In u (seq 1 n)) as Hin by (apply list_elem_of_In, elem_of_seq; lia).
    apply H in Hin. rewrite forallb_forall in Hin.
    apply list_elem_of_In, Hin in Hv. rewrite !andb_true_iff in Hv.
    destruct Hv as [_ Hv]. by apply existsb_eqb_elem_of.
Qed.

Lemma loop_freeb_correct vs n : loop_freeb vs n = true → loop_free vs n.
Proof.
  unfold loop_freeb. rewrite forallb_forall. intros H u Hu Hin.
  assert (In u (seq 1 n)) as Hs by (apply list_elem_of_In, elem_of_seq; lia).
  apply H in Hs. apply negb_true_iff in Hs.
  apply existsb_eqb_elem_of in Hin. congruence.
Qed.

(** ** What a run leaves untouched *)

Lemma select_best_is_Some alg_name vs l :
  l ≠ [] → is_Some (select_best alg_name vs l).2.
Proof.
  destruct l as [|v l _] using rev_ind; [done|]. intros _.
  rewrite select_best_snoc. unfold scan_step. simpl.
  destruct (select_best alg_name vs l).2 as [b|]; [|by eexists].
  destruct (better _ _ _); by eexists.
Qed.

(** The main loop, whatever the fuel: if it returns, it returns through its
    exit test, with an empty pointer list, the same graph, and the colors
    outside [1..n] as they were. *)
Lemma main_loop_spec alg_name n fuel st st' e :
  greedy_inv n st → main_loop fuel alg_name st = Some (st', e) →
  e = Finished ∧ greedy_inv n st' ∧ uncolored_vertices_ptrs st' = [] ∧
  greedy_reachable alg_name st st' ∧
  same_graph (g_vertices st) (g_vertices st') ∧
  ∀ i, ¬ (1 ≤ i ≤ n)%nat → color (g_vertices st' !!! i) = color (g_vertices st !!! i).
Proof.
  assert (∀ fuel st, greedy_inv n st → uncolored_vertices_ptrs st = [] →
            main_loop fuel alg_name st = Some (st', e) →
            e = Finished ∧ greedy_inv n st' ∧ uncolored_vertices_ptrs st' = [] ∧
            greedy_reachable alg_name st st' ∧
            same_graph (g_vertices st) (g_vertices st') ∧
            ∀ i, ¬ (1 ≤ i ≤ n)%nat →
                 color (g_vertices st' !!! i) = color (g_vertices st !!! i)) as Hbase.
  { intros fuel0 st0 Hinv0 Hnil. rewrite main_loop_nil by done. intros [= <- <-].
    split; [done|]. split; [done|]. split; [done|]. split; [constructor|]. done. }
  revert st. induction fuel as [|fuel IH]; intros st Hinv;
    (destruct (decide (uncolored_vertices_ptrs st = [])) as [Hnil|Hne];
     [by apply Hbase|]).
  - by rewrite main_loop_O.
  - rewrite main_loop_S by done.
    destruct (greedy_step_spec alg_name n st Hinv Hne)
      as (b & c & st1 & Hstep & _ & Hb & Hg & _ & Hco & _).
    rewrite Hstep. intros Hrun.
    destruct (IH st1) as (H1 & H2 & H3 & H4 & H5 & H6); [by eapply greedy_inv_step|done|].
    split; [done|]. split; [done|]. split; [done|].
    split; [by eapply greedy_reachable_front|]. split; [by etrans|].
    intros i Hi. rewrite H6 by done. apply Hco. intros ->.
    apply (gi_uncolored _ _ Hinv) in Hb. tauto.
Qed.

Lemma bootstrap_frame std_sort vs n i :
  std_sort_contract std_sort → length vs = S n → ¬ (1 ≤ i ≤ n)%nat →
  color (g_vertices (bootstrap std_sort vs n) !!! i) = color (vs !!! i).
Proof.
  intros Hsort Hlen Hi. destruct (decide (n = 0)%nat) as [->|Hn].
  - by rewrite bootstrap_empty.
  - rewrite bootstrap_nonempty by lia. simpl.
    destruct (initial_vertex_spec std_sort Hsort vs n Hlen) as (Hr & _); [lia|]. simpl in Hr.
    rewrite color_set_color_ne by lia. rewrite color_reset_colors, decide_False by lia. done.
Qed.

Lemma generic_greedy_run_frame std_sort fuel vs n alg_name st e :
  std_sort_contract std_sort → length vs = S n →
  generic_greedy_run std_sort fuel vs n alg_name = Some (st, e) →
  e = Finished ∧ greedy_inv n st ∧ uncolored_vertices_ptrs st = [] ∧
  same_graph vs (g_vertices st) ∧
  ∀ i, ¬ (1 ≤ i ≤ n)%nat → color (g_vertices st !!! i) = color (vs !!! i).
Proof.
  intros Hsort Hlen Hrun.
  destruct (main_loop_spec _ _ _ _ _ _ (bootstrap_inv std_sort Hsort vs n Hlen) Hrun)
    as (H1 & H2 & H3 & _ & H5 & H6).
  split; [done|]. split; [done|]. split; [done|]. split.
  - etrans; [apply bootstrap_same_graph|done].
  - intros i Hi. rewrite H6 by done. by apply bootstrap_frame.
Qed.

Lemma generic_greedy_run_proper std_sort fuel vs n alg_name st e :
  std_sort_contract std_sort → well_formed vs n → loop_free vs n →
  generic_greedy_run std_sort fuel vs n alg_name = Some (st, e) →
  partial_proper (g_vertices st) n.
Proof.
  intros Hsort Hwf Hlf Hrun.
  pose proof (wf_length _ _ Hwf) as Hlen.
  pose proof (bootstrap_inv std_sort Hsort vs n Hlen) as Hinv.
  pose proof (bootstrap_same_graph std_sort vs n) as Hg.
  destruct (main_loop_spec _ _ _ _ _ _ Hinv Hrun) as (_ & _ & _ & Hreach & _).
  eapply greedy_reachable_partial_proper; [exact Hinv| | | |exact Hreach].
  - by eapply well_formed_same_graph.
  - by eapply loop_free_same_graph.
  - by apply bootstrap_partial_proper.
Qed.

(** ** Graphs without edges *)

Lemma feasible_edgeless vs n v c : edgeless vs n → (1 ≤ v ≤ n)%nat → feasible vs v c.
Proof. intros He Hv w Hw. rewrite (He v Hv) in Hw. by apply elem_of_nil in Hw. Qed.

Lemma greedy_edgeless_next alg_name n st0 st :
  greedy_inv n st0 → edgeless (g_vertices st0) n → next_available_color_idx st0 = 1 →
  greedy_reachable alg_name st0 st → next_available_color_idx st = 1.
Proof.
  intros Hinv He Hnext. induction 1 as [|st st' Hr IH Hne Hstep]; [done|].
  assert (greedy_inv n st) as Hinv' by by eapply greedy_reachable_inv.
  pose proof (greedy_reachable_same_graph _ _ _ _ Hinv Hr) as Hg.
  destruct (greedy_step_spec alg_name n st Hinv' Hne)
    as (b & c & st1 & Hstep1 & _ & Hb & _ & _ & _ & _ & Hfit).
  rewrite Hstep in Hstep1. injection Hstep1 as <-.
  destruct Hfit as [(_ & _ & _ & _ & ->)|(_ & Hno & _)]; [done|].
  exfalso. apply (Hno 0); [lia|].
  apply (feasible_edgeless _ n); [by eapply edgeless_same_graph|].
  by apply (gi_uncolored _ _ Hinv').
Qed.

Lemma bootstrap_next std_sort vs n :
  (0 < n)%nat → next_available_color_idx (bootstrap std_sort vs n) = 1.
Proof. intros Hn. by rewrite bootstrap_nonempty. Qed.

Lemma rlf_candidate_None forbidden vs n :
  (rlf_candidate forbidden vs n).1 = None →
  ∀ k, (1 ≤ k ≤ n)%nat → color (vs !!! k) = -1 → forbidden !!! k = true.
Proof.
  induction n as [|n IH]; [intros; lia|].
  rewrite rlf_candidate_S. unfold rlf_candidate_step.
  destruct (Z.eqb_spec (color (vs !!! S n)) (-1)) as [Hc|Hc]; simpl.
  - destruct (forbidden !!! S n) eqn:Hf; simpl.
    + intros Hnone k Hk Hck. destruct (decide (k = S n)) as [->|]; [done|].
      apply IH; [done|lia|done].
    + destruct (rlf_candidate forbidden vs n).1 as [c|] eqn:Hcand; [|done].
      destruct (_ || _); [done|]. by rewrite Hcand.
  - intros Hnone k Hk Hck. destruct (decide (k = S n)) as [->|]; [done|].
    apply IH; [done|lia|done].
Qed.

Lemma rlf_class_loop_edgeless n fuel st st' :
  edgeless (r_vertices st) n → (n < length (r_vertices st))%nat →
  rlf_class_loop fuel n (replicate (n + 1) false) st = Some st' →
  all_colored (r_vertices st') n.
Proof.
  revert st. induction fuel as [|fuel IH]; intros [vs cur total] He Hlen; simpl in *; [done|].
  destruct (rlf_scan_spec (replicate (n + 1) false) vs n Hlen) as [Hs Hcand].
  destruct (rlf_scan (replicate (n + 1) false) vs n) as [[vs1 cand] m]. simpl in Hs, Hcand.
  pose proof Hs as [Hg Hc].
  destruct cand as [j|].
  - assert ((rlf_candidate (replicate (n + 1) false) vs n).1 = Some j) as Hj
      by by rewrite <- Hcand.
    apply rlf_candidate_Some in Hj as (Hjr & _).
    rewrite <- (same_graph_neighbors vs vs1) by done. rewrite (He j Hjr). simpl.
    apply IH; simpl.
    + eapply edgeless_same_graph; [|exact He].
      etrans; [exact Hg|apply same_graph_set_color].
    + by rewrite length_set_color, <- (same_graph_length vs vs1).
  - intros [= <-]. simpl. intros k Hk Hck. rewrite <- Hc in Hck.
    assert ((rlf_candidate (replicate (n + 1) false) vs n).1 = None) as Hnone
      by by rewrite <- Hcand.
    pose proof (rlf_candidate_None _ _ _ Hnone k Hk Hck) as Hf.
    rewrite lookup_total_replicate_2 in Hf by lia. done.
Qed.

Lemma rlf_class_edgeless n inner v st st' :
  edgeless (r_vertices st) n → (n < length (r_vertices st))%nat → (1 ≤ v ≤ n)%nat →
  rlf_class inner n v st = Some st' → all_colored (r_vertices st') n.
Proof.
  intros He Hlen Hv. unfold rlf_class.
  rewrite neighbors_set_color, (He v Hv).
  change (mark_forbidden [] (replicate (n + 1) false)) with (replicate (n + 1) false).
  destruct (rlf_class_loop _ _ _ _) as [st1|] eqn:Hloop; [|done].
  intros [= <-]. apply rlf_class_loop_edgeless in Hloop; [done|..]; simpl.
  - eapply edgeless_same_graph; [apply same_graph_set_color|exact He].
  - by rewrite length_set_color.
Qed.

Lemma rlf_loop_done inner fuel n st :
  (total_colored_vertices st <? Z.of_nat n) = false →
  rlf_loop inner fuel n st = Some (st, Finished).
Proof. intros H. destruct fuel; simpl; by rewrite H. Qed.

Lemma rlf_loop_O inner n st :
  (total_colored_vertices st <? Z.of_nat n) = true → rlf_loop inner 0 n st = None.
Proof. intros H. simpl. by rewrite H. Qed.

Lemma rlf_loop_S inner fuel n st :
  (total_colored_vertices st <? Z.of_nat n) = true →
  rlf_loop inner (S fuel) n st =
    match find_max_degree_uncolored_vertex (r_vertices st) n with
    | None => Some (st, Warned)
    | Some v_i => rlf_class inner n v_i st ≫= rlf_loop inner fuel n
    end.
Proof. intros H. simpl. by rewrite H. Qed.

Lemma RLF_run_edgeless fuel vs n st e :
  length vs = S n → (0 < n)%nat → edgeless vs n →
  RLF_run fuel vs n = Some (st, e) → current_color st = 1.
Proof.
  intros Hlen Hn He. unfold RLF_run.
  pose proof (rlf_inv_init vs n Hlen) as Hinv.
  set (st0 := mkRLF (reset_colors n vs) 0 0) in *.
  assert ((total_colored_vertices st0 <? Z.of_nat n) = true) as Htot.
  { apply Z.ltb_lt. simpl. lia. }
  destruct fuel as [|fuel]; [by rewrite rlf_loop_O|]. rewrite rlf_loop_S by done.
  destruct (find_max_degree_uncolored_vertex (r_vertices st0) n) as [v|] eqn:Hfind.
  - apply find_max_degree_uncolored_vertex_Some in Hfind.
    destruct (rlf_class (S fuel) n v st0) as [st1|] eqn:Hclass; [|done]. simpl.
    destruct (rlf_class_spec _ _ _ _ _ Hinv Hfind Hclass) as (H1 & H2 & _).
    assert (all_colored (r_vertices st1) n) as Hall.
    { eapply rlf_class_edgeless; [| |apply Hfind|exact Hclass].
      - eapply edgeless_same_graph; [apply same_graph_reset_colors|exact He].
      - simpl. rewrite length_reset_colors. lia. }
    rewrite rlf_loop_done by by apply rlf_inv_total.
    intros [= <- _]. by rewrite H2.
  - apply find_max_degree_uncolored_vertex_None, rlf_inv_total in Hfind; [|done]. congruence.
Qed.

(** In a proper coloring with a single color no vertex has a neighbor. *)
Lemma one_color_edgeless vs n :
  well_formed vs n → proper_coloring vs n →
  (∀ v, (1 ≤ v ≤ n)%nat → color (vs !!! v) = 0) → edgeless vs n.
Proof.
  intros Hwf Hpc Hzero u Hu.
  destruct (neighbors (vs !!! u)) as [|v nbrs] eqn:Hnb; [done|].
  assert (v ∈ neighbors (vs !!! u)) as Hv by (rewrite Hnb; left).
  exfalso. apply (Hpc u v Hu Hv).
  rewrite (Hzero u Hu), (Hzero v); [done|]. by apply (wf_range _ _ Hwf u).
Qed.

(** ** The results of the drivers *)

Lemma rlf_reachable_inv inner n st0 st :
  rlf_inv n st0 → rlf_reachable inner n st0 st → rlf_inv n st.
Proof.
  intros Hinv. induction 1 as [|st v st' Hr IH Htot Hfind Hclass]; [done|].
  apply find_max_degree_uncolored_vertex_Some in Hfind.
  by destruct (rlf_class_spec _ _ _ _ _ IH Hfind Hclass) as (H1 & _).
Qed.

Lemma generic_greedy_coloring_run std_sort fuel vs n alg_name st e :
  generic_greedy_run std_sort fuel vs n alg_name = Some (st, e) →
  generic_greedy_coloring std_sort fuel vs n alg_name =
    Some (g_vertices st, next_available_color_idx st).
Proof. intros H. unfold generic_greedy_coloring. by rewrite H. Qed.

Lemma generic_greedy_coloring_inv std_sort fuel vs n alg_name vs' k :
  generic_greedy_coloring std_sort fuel vs n alg_name = Some (vs', k) →
  ∃ st e, generic_greedy_run std_sort fuel vs n alg_name = Some (st, e) ∧
          vs' = g_vertices st ∧ k = next_available_color_idx st.
Proof.
  unfold generic_greedy_coloring.
  destruct (generic_greedy_run _ _ _ _ _) as [[st e]|]; [|done].
  intros [= <- <-]. by exists st, e.
Qed.

Lemma RLF_coloring_run fuel vs n st e :
  RLF_run fuel vs n = Some (st, e) →
  RLF_coloring fuel vs n = Some (r_vertices st, current_color st).
Proof. intros H. unfold RLF_coloring. by rewrite H. Qed.

Lemma RLF_coloring_inv fuel vs n vs' k :
  RLF_coloring fuel vs n = Some (vs', k) →
  ∃ st e, RLF_run fuel vs n = Some (st, e) ∧ vs' = r_vertices st ∧ k = current_color st.
Proof.
  unfold RLF_coloring. destruct (RLF_run _ _ _) as [[st e]|]; [|done].
  intros [= <- <-]. by exists st, e.
Qed.

Lemma generic_greedy_valid std_sort fuel vs n alg_name :
  std_sort_contract std_sort → well_formed vs n → loop_free vs n → (n ≤ fuel)%nat →
  valid_coloring vs n (generic_greedy_coloring std_sort fuel vs n alg_name).
Proof.
  intros Hsort Hwf Hlf Hfuel.
  destruct (generic_greedy_run_spec std_sort fuel vs n alg_name Hsort (wf_length _ _ Hwf) Hfuel)
    as (st & Hrun & _ & Hinv & Hdone & Hg).
  exists (g_vertices st), (next_available_color_idx st).
  split; [by eapply generic_greedy_coloring_run|]. split; [done|].
  pose proof (greedy_inv_all_colored _ _ Hinv Hdone) as Hall.
  split; [|done]. apply partial_proper_all_colored; [|done].
  by eapply generic_greedy_run_proper.
Qed.

Lemma RLF_total fuel vs n :
  length vs = S n → (n ≤ fuel)%nat →
  ∃ st, RLF_run fuel vs n = Some (st, Finished) ∧ rlf_inv n st ∧
        all_colored (r_vertices st) n ∧ same_graph vs (r_vertices st).
Proof.
  intros Hlen Hfuel. destruct (RLF_run_terminates fuel vs n Hlen Hfuel) as [[st e] Hrun].
  destruct (RLF_run_spec _ _ _ _ _ Hlen Hrun) as (-> & H2 & H3 & H4 & _).
  by exists st.
Qed.

Lemma RLF_valid fuel vs n :
  well_formed vs n → loop_free vs n → (n ≤ fuel)%nat →
  valid_coloring vs n (RLF_coloring fuel vs n).
Proof.
  intros Hwf Hlf Hfuel.
  destruct (RLF_total fuel vs n (wf_length _ _ Hwf) Hfuel) as (st & Hrun & Hinv & Hall & Hg).
  exists (r_vertices st), (current_color st).
  split; [by eapply RLF_coloring_run|]. split; [done|]. split; [|done].
  apply partial_proper_all_colored; [|done]. apply (ri_proper _ _ Hinv).
  - by eapply well_formed_same_graph.
  - by eapply loop_free_same_graph.
Qed.

Lemma colors_all_zero vs n k :
  (∀ v, (1 ≤ v ≤ n)%nat → color (vs !!! v) = -1 ∨ 0 ≤ color (vs !!! v) < k) →
  all_colored vs n → k = 1 → ∀ v, (1 ≤ v ≤ n)%nat → color (vs !!! v) = 0.
Proof. intros Hcol Hall -> v Hv. specialize (Hall v Hv). destruct (Hcol v Hv); lia. Qed.

Lemma generic_greedy_count_bounds std_sort fuel vs n alg_name :
  std_sort_contract std_sort → well_formed vs n → loop_free vs n → (n ≤ fuel)%nat →
  count_bounds vs n (generic_greedy_coloring std_sort fuel vs n alg_name).
Proof.
  intros Hsort Hwf Hlf Hfuel. pose proof (wf_length _ _ Hwf) as Hlen.
  destruct (generic_greedy_run_spec std_sort fuel vs n alg_name Hsort Hlen Hfuel)
    as (st & Hrun & Hreach & Hinv & Hdone & Hg).
  exists (g_vertices st), (next_available_color_idx st).
  split; [by eapply generic_greedy_coloring_run|].
  pose proof (greedy_inv_all_colored _ _ Hinv Hdone) as Hall.
  pose proof (gi_next _ _ Hinv) as Hnext.
  split; [|split].
  - intros ->. destruct (decide (next_available_color_idx st = 0)) as [|Hne]; [done|].
    destruct (gi_used _ _ Hinv 0) as (v & Hv & _); lia.
  - intros Hn. specialize (Hall 1%nat). destruct (gi_colors _ _ Hinv 1%nat); lia.
  - intros Hn. split.
    + intros Hk. eapply edgeless_same_graph; [symmetry; exact Hg|].
      apply one_color_edgeless.
      * by eapply well_formed_same_graph.
      * apply partial_proper_all_colored; [|done]. by eapply generic_greedy_run_proper.
      * eapply colors_all_zero; [apply (gi_colors _ _ Hinv)|done..].
    + intros He. eapply greedy_edgeless_next; [| | |exact Hreach].
      * by apply bootstrap_inv.
      * eapply edgeless_same_graph; [apply bootstrap_same_graph|done].
      * by apply bootstrap_next.
Qed.

Lemma RLF_count_bounds fuel vs n :
  well_formed vs n → loop_free vs n → (n ≤ fuel)%nat →
  count_bounds vs n (RLF_coloring fuel vs n).
Proof.
  intros Hwf Hlf Hfuel. pose proof (wf_length _ _ Hwf) as Hlen.
  destruct (RLF_total fuel vs n Hlen Hfuel) as (st & Hrun & Hinv & Hall & Hg).
  exists (r_vertices st), (current_color st).
  split; [by eapply RLF_coloring_run|].
  pose proof (ri_current _ _ Hinv) as Hcur.
  split; [|split].
  - intros ->. destruct (decide (current_color st = 0)) as [|Hne]; [done|].
    destruct (ri_used _ _ Hinv 0) as (v & Hv & _); lia.
  - intros Hn. specialize (Hall 1%nat). destruct (ri_colors _ _ Hinv 1%nat); lia.
  - intros Hn. split.
    + intros Hk. eapply edgeless_same_graph; [symmetry; exact Hg|].
      assert (well_formed (r_vertices st) n) as Hwf' by by eapply well_formed_same_graph.
      apply one_color_edgeless; [done| |].
      * apply partial_proper_all_colored; [|done]. apply (ri_proper _ _ Hinv); [done|].
        by eapply loop_free_same_graph.
      * eapply colors_all_zero; [apply (ri_colors _ _ Hinv)|done..].
    + intros He. by eapply RLF_run_edgeless.
Qed.

Lemma generic_greedy_initial_segment std_sort fuel vs n alg_name :
  std_sort_contract std_sort → length vs = S n → (n ≤ fuel)%nat →
  colors_initial_segment n (generic_greedy_coloring std_sort fuel vs n alg_name).
Proof.
  intros Hsort Hlen Hfuel.
  destruct (generic_greedy_run_spec std_sort fuel vs n alg_name Hsort Hlen Hfuel)
    as (st & Hrun & _ & Hinv & Hdone & _).
  exists (g_vertices st), (next_available_color_idx st).
  split; [by eapply generic_greedy_coloring_run|]. split; [apply (gi_next _ _ Hinv)|].
  pose proof (greedy_inv_all_colored _ _ Hinv Hdone) as Hall.
  intros c. split; [|apply (gi_used _ _ Hinv)].
  intros (v & Hv & <-). specialize (Hall v Hv). destruct (gi_colors _ _ Hinv v Hv); lia.
Qed.

Lemma RLF_initial_segment fuel vs n :
  length vs = S n → (n ≤ fuel)%nat → colors_initial_segment n (RLF_coloring fuel vs n).
Proof.
  intros Hlen Hfuel.
  destruct (RLF_total fuel vs n Hlen Hfuel) as (st & Hrun & Hinv & Hall & _).
  exists (r_vertices st), (current_color st).
  split; [by eapply RLF_coloring_run|]. split; [apply (ri_current _ _ Hinv)|].
  intros c. split; [|apply (ri_used _ _ Hinv)].
  intros (v & Hv & <-). specialize (Hall v Hv). destruct (ri_colors _ _ Hinv v Hv); lia.
Qed.

Lemma generic_greedy_rerun std_sort fuel vs n alg_name vs1 k :
  std_sort_contract std_sort → length vs = S n →
  generic_greedy_coloring std_sort fuel vs n alg_name = Some (vs1, k) →
  ∃ vs2, generic_greedy_coloring std_sort fuel vs1 n alg_name = Some (vs2, k) ∧
         same_colors vs1 vs2.
Proof.
  intros Hsort Hlen Hrun.
  destruct (generic_greedy_coloring_inv _ _ _ _ _ _ _ Hrun) as (st & e & Hrun' & -> & ->).
  destruct (generic_greedy_run_frame _ _ _ _ _ _ _ Hsort Hlen Hrun') as (_ & _ & _ & Hg & Hout).
  assert (same_but_heuristic (reset_colors n vs) (reset_colors n (g_vertices st))) as Hs.
  { apply reset_colors_same_graph; [done|]. intros i Hi. symmetry. by apply Hout. }
  pose proof (generic_greedy_coloring_equiv std_sort fuel vs (g_vertices st) n alg_name
                Hsort Hlen Hs) as Heq.
  rewrite Hrun in Heq. inversion Heq as [r1 [vs2 k2] [H1 H2] Hr1 Hr2|]. simpl in *.
  subst k2. by exists vs2.
Qed.

Lemma RLF_rerun fuel vs n vs1 k :
  length vs = S n → RLF_coloring fuel vs n = Some (vs1, k) →
  ∃ vs2, RLF_coloring fuel vs1 n = Some (vs2, k) ∧ same_colors vs1 vs2.
Proof.
  intros Hlen Hrun.
  destruct (RLF_coloring_inv _ _ _ _ _ Hrun) as (st & e & Hrun' & -> & ->).
  destruct (RLF_run_spec _ _ _ _ _ Hlen Hrun') as (_ & _ & _ & Hg & Hout).
  assert (same_but_heuristic (reset_colors n vs) (reset_colors n (r_vertices st))) as Hs.
  { apply reset_colors_same_graph; [done|]. intros i Hi. symmetry. by apply Hout. }
  pose proof (RLF_coloring_equiv fuel vs (r_vertices st) n Hlen Hs) as Heq.
  rewrite Hrun in Heq. inversion Heq as [r1 [vs2 k2] [H1 H2] Hr1 Hr2|]. simpl in *.
  subst k2. by exists vs2.
Qed.

Lemma greedy_steps_reachable k alg_name st0 :
  greedy_reachable alg_name st0 (greedy_steps k alg_name st0).
Proof.
  revert st0. induction k as [|k IH]; intros st0; simpl; [constructor|].
  destruct (uncolored_vertices_ptrs st0) as [|p ptrs] eqn:Hunc; [constructor|].
  destruct (greedy_step alg_name st0) as [st1|st1] eqn:Hstep; [|constructor].
  eapply greedy_reachable_front; [by rewrite Hunc|exact Hstep|apply IH].
Qed.

(** * The claims *)

(** C1, as amended.  On every well-formed graph in which no vertex is its own
    neighbor, each of the three drivers returns, leaves the graph as it was,
    gives the two ends of every edge different colors, and leaves no vertex
    uncolored; the graph with no vertex is included. *)
Theorem drivers_color_properly std_sort vs n fuel :
  std_sort_contract std_sort → well_formed vs n → loop_free vs n → (n ≤ fuel)%nat →
  valid_coloring vs n (IDO_coloring std_sort fuel vs n) ∧
  valid_coloring vs n (DSATUR_coloring std_sort fuel vs n) ∧
  valid_coloring vs n (RLF_coloring fuel vs n).
Proof.
  intros Hsort Hwf Hlf Hfuel. split; [|split].
  - by apply generic_greedy_valid.
  - by apply generic_greedy_valid.
  - by apply RLF_valid.
Qed.

Lemma drivers_color_properly_witness :
  well_formed triangle 3 ∧ loop_free triangle 3 ∧
  valid_coloring triangle 3 (IDO_coloring insertion_sort 3 triangle 3) ∧
  valid_coloring triangle 3 (DSATUR_coloring insertion_sort 3 triangle 3) ∧
  valid_coloring triangle 3 (RLF_coloring 3 triangle 3).
Proof.
  assert (well_formed triangle 3) as Hwf by (apply well_formedb_correct; reflexivity).
  assert (loop_free triangle 3) as Hlf by (apply loop_freeb_correct; reflexivity).
  split; [exact Hwf|]. split; [exact Hlf|].
  apply (drivers_color_properly insertion_sort triangle 3 3);
    [apply insertion_sort_contract|exact Hwf|exact Hlf|lia].
Defined.

(** C1 as stated fails on a well-formed graph with a self-loop: the loader
    accepts the edge [e 1 1], vertex 1 is then its own neighbor, IDO gives it
    color 0, and the edge (1,1) has two ends of the same color. *)
Lemma self_loop_not_properly_colored :
  well_formed single_loop 1 ∧
  (∃ vs', IDO_coloring insertion_sort 1 single_loop 1 = Some (vs', 1) ∧
          (1%nat ∈ neighbors (vs' !!! 1%nat)) ∧ color (vs' !!! 1%nat) = 0) ∧
  ¬ valid_coloring single_loop 1 (IDO_coloring insertion_sort 1 single_loop 1).
Proof.
  split; [apply well_formedb_correct; reflexivity|]. split.
  - eexists. split; [vm_compute; reflexivity|]. split; [left|reflexivity].
  - intros (vs' & k & _ & Hg & Hpc & _).
    apply (Hpc 1%nat 1%nat); [lia| |done].
    rewrite <- (same_graph_neighbors _ _ 1%nat Hg). left.
Qed.

(** C2.  Every driver terminates, and only with every vertex colored.  With
    fuel for [n] iterations each run returns through the exit test of its
    loop; whatever the fuel, a run that returns has colored every vertex.
    In the main loop of the generic driver every iteration colors one
    uncolored vertex and removes exactly that pointer from the list; in RLF
    every iteration of the outer loop finds a seed and colors at least one
    vertex. *)
Theorem drivers_terminate_fully_colored std_sort vs n fuel :
  std_sort_contract std_sort → length vs = S n → (n ≤ fuel)%nat →
  (∀ alg_name,
     (∃ st, generic_greedy_run std_sort fuel vs n alg_name = Some (st, Finished) ∧
            uncolored_vertices_ptrs st = [] ∧ all_colored (g_vertices st) n) ∧
     (∀ fuel' st e, generic_greedy_run std_sort fuel' vs n alg_name = Some (st, e) →
                    all_colored (g_vertices st) n) ∧
     (∀ st, greedy_reachable alg_name (bootstrap std_sort vs n) st →
            uncolored_vertices_ptrs st ≠ [] →
            ∃ b st', greedy_step alg_name st = inl st' ∧
                     b ∈ uncolored_vertices_ptrs st ∧
                     color (g_vertices st !!! b) = -1 ∧
                     color (g_vertices st' !!! b) ≠ -1 ∧
                     uncolored_vertices_ptrs st' = erase_ptr b (uncolored_vertices_ptrs st) ∧
                     S (length (uncolored_vertices_ptrs st')) =
                       length (uncolored_vertices_ptrs st))) ∧
  (∃ st, RLF_run fuel vs n = Some (st, Finished) ∧
         total_colored_vertices st = Z.of_nat n ∧ all_colored (r_vertices st) n) ∧
  (∀ fuel' st e, RLF_run fuel' vs n = Some (st, e) → all_colored (r_vertices st) n) ∧
  (∀ st, rlf_reachable fuel n (mkRLF (reset_colors n vs) 0 0) st →
         total_colored_vertices st < Z.of_nat n →
         ∃ v_i st', find_max_degree_uncolored_vertex (r_vertices st) n = Some v_i ∧
                    rlf_class fuel n v_i st = Some st' ∧
                    total_colored_vertices st < total_colored_vertices st' ∧
                    (uncolored_count (r_vertices st') n < uncolored_count (r_vertices st) n)%nat).
Proof.
  intros Hsort Hlen Hfuel. split; [|split; [|split]].
  - intros alg_name. split; [|split].
    + destruct (generic_greedy_run_spec std_sort fuel vs n alg_name Hsort Hlen Hfuel)
        as (st & Hrun & _ & Hinv & Hdone & _).
      exists st. split; [done|]. split; [done|]. by apply greedy_inv_all_colored.
    + intros fuel' st e Hrun.
      destruct (generic_greedy_run_frame _ _ _ _ _ _ _ Hsort Hlen Hrun) as (_ & Hinv & Hdone & _).
      by apply greedy_inv_all_colored.
    + intros st Hreach Hne.
      assert (greedy_inv n st) as Hinv.
      { eapply greedy_reachable_inv; [|exact Hreach]. by apply bootstrap_inv. }
      destruct (greedy_step_spec alg_name n st Hinv Hne)
        as (b & c & st' & Hstep & _ & Hb & _ & Hcb & _ & Hunc & Hfit).
      exists b, st'. split; [done|]. split; [done|].
      split; [by apply (gi_uncolored _ _ Hinv)|]. split.
      * rewrite Hcb. pose proof (gi_next _ _ Hinv).
        destruct Hfit as [(? & _)|(-> & _)]; lia.
      * split; [done|]. rewrite Hunc. apply length_erase_ptr; [apply Hinv|done].
  - destruct (RLF_total fuel vs n Hlen Hfuel) as (st & Hrun & Hinv & Hall & _).
    exists st. split; [done|]. split; [|done].
    apply (rlf_inv_total _ _ Hinv) in Hall. apply Z.ltb_ge in Hall.
    pose proof (ri_total _ _ Hinv). lia.
  - intros fuel' st e Hrun. by destruct (RLF_run_spec _ _ _ _ _ Hlen Hrun) as (_ & _ & ? & _).
  - intros st Hreach Htot.
    assert (rlf_inv n st) as Hinv.
    { eapply rlf_reachable_inv; [|exact Hreach]. by apply rlf_inv_init. }
    destruct (find_max_degree_uncolored_vertex (r_vertices st) n) as [v|] eqn:Hfind.
    + pose proof (find_max_degree_uncolored_vertex_Some _ _ _ Hfind) as Hv.
      destruct (rlf_class_terminates n fuel v st Hinv Hv Hfuel) as [st' Hclass].
      destruct (rlf_class_spec _ _ _ _ _ Hinv Hv Hclass) as (Hinv' & _ & _ & _ & Hlt).
      exists v, st'. split; [done|]. split; [done|]. split; [done|].
      pose proof (ri_total _ _ Hinv). pose proof (ri_total _ _ Hinv'). lia.
    + apply find_max_degree_uncolored_vertex_None, rlf_inv_total in Hfind; [|done].
      apply Z.ltb_ge in Hfind. lia.
Qed.

Lemma drivers_terminate_fully_colored_witness :
  (∃ st, generic_greedy_run insertion_sort 3 triangle 3 "IDO" = Some (st, Finished) ∧
         uncolored_vertices_ptrs st = [] ∧ all_colored (g_vertices st) 3) ∧
  (∃ st, RLF_run 3 triangle 3 = Some (st, Finished) ∧
         total_colored_vertices st = 3 ∧ all_colored (r_vertices st) 3).
Proof.
  destruct (drivers_terminate_fully_colored insertion_sort triangle 3 3)
    as (Hgen & Hrlf & _); [apply insertion_sort_contract|reflexivity|lia|].
  split; [apply (Hgen "IDO"%string)|exact Hrlf].
Defined.

(** C3.  In every iteration of the main loop of the generic driver the
    palette is [0, 1, ..., next-1] in creation order, and the selected
    vertex, uncolored until then, receives the least color of the palette
    that none of its neighbors holds; when no color of the palette is
    feasible it receives the new color [next], which is appended to the
    palette.  No other vertex changes color. *)
Theorem main_loop_assigns_first_fit std_sort vs n alg_name st :
  std_sort_contract std_sort → length vs = S n →
  greedy_reachable alg_name (bootstrap std_sort vs n) st →
  uncolored_vertices_ptrs st ≠ [] →
  ∃ b c st',
    greedy_step alg_name st = inl st' ∧
    selected alg_name (g_vertices st) (uncolored_vertices_ptrs st) = Some b ∧
    color (g_vertices st !!! b) = -1 ∧
    color_palette st = seqZ 0 (next_available_color_idx st) ∧
    color (g_vertices st' !!! b) = c ∧
    (∀ u, u ≠ b → color (g_vertices st' !!! u) = color (g_vertices st !!! u)) ∧
    ((0 ≤ c < next_available_color_idx st ∧
      feasible (g_vertices st) b c ∧
      (∀ x, 0 ≤ x < c → ¬ feasible (g_vertices st) b x) ∧
      color_palette st' = color_palette st ∧
      next_available_color_idx st' = next_available_color_idx st)
     ∨
     (c = next_available_color_idx st ∧
      (∀ x, 0 ≤ x < next_available_color_idx st → ¬ feasible (g_vertices st) b x) ∧
      color_palette st' = color_palette st ++ [next_available_color_idx st] ∧
      next_available_color_idx st' = next_available_color_idx st + 1)).
Proof.
  intros Hsort Hlen Hreach Hne.
  assert (greedy_inv n st) as Hinv.
  { eapply greedy_reachable_inv; [|exact Hreach]. by apply bootstrap_inv. }
  destruct (greedy_step_spec alg_name n st Hinv Hne)
    as (b & c & st' & Hstep & Hsel & Hb & _ & Hcb & Hco & _ & Hfit).
  exists b, c, st'. split; [done|]. split; [done|].
  split; [by apply (gi_uncolored _ _ Hinv)|].
  split; [apply (gi_palette _ _ Hinv)|]. done.
Qed.

Lemma main_loop_assigns_first_fit_witness :
  ∃ b c st',
    greedy_step "IDO" (bootstrap insertion_sort triangle 3) = inl st' ∧
    selected "IDO" (g_vertices (bootstrap insertion_sort triangle 3))
      (uncolored_vertices_ptrs (bootstrap insertion_sort triangle 3)) = Some b ∧
    color (g_vertices st' !!! b) = c.
Proof.
  destruct (main_loop_assigns_first_fit insertion_sort triangle 3 "IDO"
              (bootstrap insertion_sort triangle 3))
    as (b & c & st' & H1 & H2 & _ & _ & H5 & _);
    [apply insertion_sort_contract|reflexivity|constructor|discriminate|].
  by exists b, c, st'.
Defined.

(** C4.  At every selection step of a DSATUR run the scan records, for every
    vertex of the pointer list, the number of distinct colors among its
    colored neighbors, and the vertex it returns is the one selected on
    these numbers; a vertex whose neighbors all hold one and the same color
    has saturation 1, however many they are. *)
Theorem dsatur_heuristic_is_saturation std_sort vs n st v :
  std_sort_contract std_sort → length vs = S n →
  greedy_reachable "DSATUR" (bootstrap std_sort vs n) st →
  v ∈ uncolored_vertices_ptrs st →
  heuristic_value
    ((select_best "DSATUR" (g_vertices st) (uncolored_vertices_ptrs st)).1 !!! v)
    = saturation (g_vertices st) v ∧
  (select_best "DSATUR" (g_vertices st) (uncolored_vertices_ptrs st)).2
    = selected "DSATUR" (g_vertices st) (uncolored_vertices_ptrs st) ∧
  heuristic "DSATUR" (g_vertices st) v = saturation (g_vertices st) v ∧
  ∀ c, c ≠ -1 → neighbors (g_vertices st !!! v) ≠ [] →
       (∀ w, w ∈ neighbors (g_vertices st !!! v) → color (g_vertices st !!! w) = c) →
       saturation (g_vertices st) v = 1.
Proof.
  intros Hsort Hlen Hreach Hv.
  assert (greedy_inv n st) as Hinv.
  { eapply greedy_reachable_inv; [|exact Hreach]. by apply bootstrap_inv. }
  destruct (select_best_spec "DSATUR" (g_vertices st) (uncolored_vertices_ptrs st))
    as (_ & Hsel & H); [by eapply greedy_inv_range|].
  split; [by rewrite H|]. split; [done|]. split; [done|].
  - intros c Hc Hnb Hall. unfold saturation.
    assert (list_to_set (colored_neighbor_colors (g_vertices st) v) = ({[ c ]} : gset Z)) as ->;
      [|by rewrite size_singleton].
    apply set_eq. intros x. unfold colored_neighbor_colors.
    rewrite elem_of_list_to_set, list_elem_of_filter, list_elem_of_fmap, elem_of_singleton.
    split.
    + intros (_ & w & -> & Hw). by apply Hall.
    + intros ->. split; [done|].
      destruct (neighbors (g_vertices st !!! v)) as [|w nbrs] eqn:Heq; [done|].
      exists w. split; [|left]. symmetry. apply Hall. left.
Qed.

Lemma dsatur_heuristic_is_saturation_witness :
  let st := greedy_steps 2 "DSATUR" (bootstrap insertion_sort cycle4 4) in
  heuristic_value
    ((select_best "DSATUR" (g_vertices st) (uncolored_vertices_ptrs st)).1 !!! 4%nat)
    = saturation (g_vertices st) 4.
Proof.
  apply (dsatur_heuristic_is_saturation insertion_sort cycle4 4
           (greedy_steps 2 "DSATUR" (bootstrap insertion_sort cycle4 4)) 4);
    [apply insertion_sort_contract|reflexivity|apply greedy_steps_reachable|].
  vm_compute. left.
Defined.

(** The example of C4 on the 4-cycle: when vertex 4 is the last one left, its
    two neighbors are colored, both with color 0, and its recorded
    heuristic is 1. *)
Example dsatur_cycle4_shared_color :
  let st := greedy_steps 2 "DSATUR" (bootstrap insertion_sort cycle4 4) in
  uncolored_vertices_ptrs st = [4%nat] ∧
  colored_neighbor_colors (g_vertices st) 4 = [0; 0] ∧
  heuristic_value
    ((select_best "DSATUR" (g_vertices st) (uncolored_vertices_ptrs st)).1 !!! 4%nat) = 1 ∧
  heuristic_value
    ((select_best "IDO" (g_vertices st) (uncolored_vertices_ptrs st)).1 !!! 4%nat) = 2.
Proof. vm_compute. done. Qed.

(** C5, as amended.  On every well-formed graph in which no vertex is its own
    neighbor, each driver returns 0 for the graph with no vertex, at least 1
    for any other graph, and exactly 1 if and only if the graph has no
    edge. *)
Theorem color_count_bounds std_sort vs n fuel :
  std_sort_contract std_sort → well_formed vs n → loop_free vs n → (n ≤ fuel)%nat →
  count_bounds vs n (IDO_coloring std_sort fuel vs n) ∧
  count_bounds vs n (DSATUR_coloring std_sort fuel vs n) ∧
  count_bounds vs n (RLF_coloring fuel vs n).
Proof.
  intros Hsort Hwf Hlf Hfuel. split; [|split].
  - by apply generic_greedy_count_bounds.
  - by apply generic_greedy_count_bounds.
  - by apply RLF_count_bounds.
Qed.

Lemma color_count_bounds_witness :
  well_formed edgeless5 5 ∧ loop_free edgeless5 5 ∧
  count_bounds edgeless5 5 (IDO_coloring insertion_sort 5 edgeless5 5) ∧
  count_bounds edgeless5 5 (DSATUR_coloring insertion_sort 5 edgeless5 5) ∧
  count_bounds edgeless5 5 (RLF_coloring 5 edgeless5 5).
Proof.
  assert (well_formed edgeless5 5) as Hwf by (apply well_formedb_correct; reflexivity).
  assert (loop_free edgeless5 5) as Hlf by (apply loop_freeb_correct; reflexivity).
  split; [exact Hwf|]. split; [exact Hlf|].
  apply (color_count_bounds insertion_sort edgeless5 5 5);
    [apply insertion_sort_contract|exact Hwf|exact Hlf|lia].
Defined.

(** C5 as stated fails on the graph of one vertex with a self-loop: IDO
    returns 1 although the graph has an edge. *)
Lemma self_loop_one_color_with_an_edge :
  well_formed single_loop 1 ∧
  (∃ vs', IDO_coloring insertion_sort 1 single_loop 1 = Some (vs', 1)) ∧
  ¬ edgeless single_loop 1 ∧
  ¬ count_bounds single_loop 1 (IDO_coloring insertion_sort 1 single_loop 1).
Proof.
  assert (¬ edgeless single_loop 1) as Hedge.
  { intros He. specialize (He 1%nat). vm_compute in He. by discriminate He. }
  split; [apply well_formedb_correct; reflexivity|]. split; [|split; [done|]].
  - eexists. vm_compute. reflexivity.
  - intros (vs' & k & Hrun & _ & _ & Hiff).
    vm_compute in Hrun. injection Hrun as _ <-.
    apply Hedge, Hiff; [lia|done].
Qed.

(** C6.  For every driver the colors in use after the run are exactly
    0, 1, ..., k-1, where k is the returned count.  In the generic driver the
    palette is the list of these colors in order, its size is the returned
    count, and the count is [next_available_color_idx]; in RLF the count is
    [current_color]. *)
Theorem colors_are_zero_to_count std_sort vs n fuel :
  std_sort_contract std_sort → length vs = S n → (n ≤ fuel)%nat →
  colors_initial_segment n (IDO_coloring std_sort fuel vs n) ∧
  colors_initial_segment n (DSATUR_coloring std_sort fuel vs n) ∧
  colors_initial_segment n (RLF_coloring fuel vs n) ∧
  (∀ alg_name, ∃ st,
     generic_greedy_run std_sort fuel vs n alg_name = Some (st, Finished) ∧
     color_palette st = seqZ 0 (next_available_color_idx st) ∧
     Z.of_nat (length (color_palette st)) = next_available_color_idx st ∧
     generic_greedy_coloring std_sort fuel vs n alg_name =
       Some (g_vertices st, next_available_color_idx st)) ∧
  (∃ st, RLF_run fuel vs n = Some (st, Finished) ∧
         RLF_coloring fuel vs n = Some (r_vertices st, current_color st)).
Proof.
  intros Hsort Hlen Hfuel.
  split; [by apply generic_greedy_initial_segment|].
  split; [by apply generic_greedy_initial_segment|].
  split; [by apply RLF_initial_segment|]. split.
  - intros alg_name.
    destruct (generic_greedy_run_spec std_sort fuel vs n alg_name Hsort Hlen Hfuel)
      as (st & Hrun & _ & Hinv & _).
    exists st. split; [done|]. split; [apply (gi_palette _ _ Hinv)|]. split.
    + rewrite (gi_palette _ _ Hinv), length_seqZ, Z2Nat.id; [done|apply (gi_next _ _ Hinv)].
    + by eapply generic_greedy_coloring_run.
  - destruct (RLF_total fuel vs n Hlen Hfuel) as (st & Hrun & _).
    exists st. split; [done|]. by eapply RLF_coloring_run.
Qed.

Lemma colors_are_zero_to_count_witness :
  colors_initial_segment 6 (IDO_coloring insertion_sort 6 star6 6) ∧
  colors_initial_segment 6 (DSATUR_coloring insertion_sort 6 star6 6) ∧
  colors_initial_segment 6 (RLF_coloring 6 star6 6).
Proof.
  destruct (colors_are_zero_to_count insertion_sort star6 6 6)
    as (H1 & H2 & H3 & _); [apply insertion_sort_contract|reflexivity|lia|].
  split; [exact H1|]. split; [exact H2|exact H3].
Defined.

(** C7, as amended.  On a graph with at least one vertex the first vertex the
    generic driver colors is a vertex of maximum degree, the one [std::sort]
    puts first; the seed of every RLF class is the first vertex, in index
    order, among the uncolored vertices of maximum degree. *)
Theorem first_colored_vertex_has_max_degree std_sort vs n :
  std_sort_contract std_sort → length vs = S n → (0 < n)%nat →
  (∃ v0, (1 ≤ v0 ≤ n)%nat ∧
         (∀ u, (1 ≤ u ≤ n)%nat → degree (vs !!! u) ≤ degree (vs !!! v0)) ∧
         ∀ u, (1 ≤ u ≤ n)%nat →
              color (g_vertices (bootstrap std_sort vs n) !!! u) =
                if decide (u = v0) then 0 else -1) ∧
  (∀ inner st,
     rlf_reachable inner n (mkRLF (reset_colors n vs) 0 0) st →
     total_colored_vertices st < Z.of_nat n →
     ∃ v_i, find_max_degree_uncolored_vertex (r_vertices st) n = Some v_i ∧
            first_max_degree_uncolored (r_vertices st) n v_i).
Proof.
  intros Hsort Hlen Hn. split.
  - destruct (initial_vertex_spec std_sort Hsort vs n Hlen Hn) as (Hr & _ & Hmax).
    simpl in Hr, Hmax.
    exists (std_sort (by_degree (reset_colors n vs)) (seq 1 n) !!! 0%nat).
    split; [done|]. split; [done|]. intros u Hu.
    rewrite bootstrap_nonempty by done. simpl.
    rewrite color_set_color, length_reset_colors, color_reset_colors, Hlen.
    repeat case_decide; try done; try lia; naive_solver lia.
  - intros inner st Hreach Htot.
    assert (rlf_inv n st) as Hinv.
    { eapply rlf_reachable_inv; [|exact Hreach]. by apply rlf_inv_init. }
    destruct (find_max_degree_uncolored_vertex (r_vertices st) n) as [v|] eqn:Hfind.
    + exists v. split; [done|]. by apply find_max_degree_uncolored_vertex_Some.
    + apply find_max_degree_uncolored_vertex_None, rlf_inv_total in Hfind; [|done].
      apply Z.ltb_ge in Hfind. lia.
Qed.

Lemma first_colored_vertex_has_max_degree_witness :
  ∃ v0, (1 ≤ v0 ≤ 6)%nat ∧
        (∀ u, (1 ≤ u ≤ 6)%nat → degree (star6 !!! u) ≤ degree (star6 !!! v0)) ∧
        ∀ u, (1 ≤ u ≤ 6)%nat →
             color (g_vertices (bootstrap insertion_sort star6 6) !!! u) =
               if decide (u = v0) then 0 else -1.
Proof.
  destruct (first_colored_vertex_has_max_degree insertion_sort star6 6)
    as [H _]; [apply insertion_sort_contract|reflexivity|lia|exact H].
Defined.

(** C7 as stated fails in the generic driver: [std::sort] may order vertices
    of equal degree in any way.  With an implementation that selects its
    pivot as libstdc++ does, on the graph of 17 vertices and no edge,
    vertex 1 is the first vertex of maximum degree in iteration order and
    the driver colors vertex 9 first. *)
Lemma unstable_sort_breaks_tie_order :
  std_sort_contract pivot_first_sort ∧
  first_max_degree_uncolored (reset_colors 17 edgeless17) 17 1 ∧
  color (g_vertices (bootstrap pivot_first_sort edgeless17 17) !!! 1%nat) = -1 ∧
  color (g_vertices (bootstrap pivot_first_sort edgeless17 17) !!! 9%nat) = 0.
Proof.
  split; [apply pivot_first_sort_contract|]. split; [|split; reflexivity].
  by apply find_max_degree_uncolored_vertex_Some.
Qed.

(** C8.  A run of a driver on the vector its own previous run left behind
    returns the same count and gives every vertex the same color; more
    generally the result of a run does not depend on the colors that
    vertices 1..n hold at entry. *)
Theorem second_run_repeats_first std_sort vs n fuel :
  std_sort_contract std_sort → length vs = S n →
  (∀ vs1 k, IDO_coloring std_sort fuel vs n = Some (vs1, k) →
     ∃ vs2, IDO_coloring std_sort fuel vs1 n = Some (vs2, k) ∧ same_colors vs1 vs2) ∧
  (∀ vs1 k, DSATUR_coloring std_sort fuel vs n = Some (vs1, k) →
     ∃ vs2, DSATUR_coloring std_sort fuel vs1 n = Some (vs2, k) ∧ same_colors vs1 vs2) ∧
  (∀ vs1 k, RLF_coloring fuel vs n = Some (vs1, k) →
     ∃ vs2, RLF_coloring fuel vs1 n = Some (vs2, k) ∧ same_colors vs1 vs2) ∧
  (∀ vs', same_graph vs vs' →
     (∀ i, ¬ (1 ≤ i ≤ n)%nat → color (vs !!! i) = color (vs' !!! i)) →
     same_result (IDO_coloring std_sort fuel vs n) (IDO_coloring std_sort fuel vs' n) ∧
     same_result (DSATUR_coloring std_sort fuel vs n) (DSATUR_coloring std_sort fuel vs' n) ∧
     same_result (RLF_coloring fuel vs n) (RLF_coloring fuel vs' n)).
Proof.
  intros Hsort Hlen. split; [|split; [|split]].
  - intros vs1 k Hrun. by eapply generic_greedy_rerun.
  - intros vs1 k Hrun. by eapply generic_greedy_rerun.
  - intros vs1 k Hrun. by eapply RLF_rerun.
  - intros vs' Hg Hout.
    pose proof (reset_colors_same_graph n vs vs' Hg Hout) as Hs.
    split; [|split].
    + by apply generic_greedy_coloring_equiv.
    + by apply generic_greedy_coloring_equiv.
    + by apply RLF_coloring_equiv.
Qed.

Lemma second_run_repeats_first_witness :
  ∃ vs1 vs2 k,
    DSATUR_coloring insertion_sort 4 cycle4 4 = Some (vs1, k) ∧
    DSATUR_coloring insertion_sort 4 vs1 4 = Some (vs2, k) ∧ same_colors vs1 vs2.
Proof.
  destruct (second_run_repeats_first insertion_sort cycle4 4 4)
    as (_ & H & _ & _); [apply insertion_sort_contract|reflexivity|].
  destruct (DSATUR_coloring insertion_sort 4 cycle4 4) as [[vs1 k]|] eqn:Hrun;
    [|by vm_compute in Hrun].
  destruct (H vs1 k eq_refl) as (vs2 & H2 & H3). by exists vs1, vs2, k.
Defined.

(** C9.  The branches that print the warning and break are never taken.  The
    selection scan over a non-empty pointer list always returns a vertex;
    at the head of the outer loop of RLF, with fewer than [n] vertices
    colored, [find_max_degree_uncolored_vertex] always returns a vertex;
    and a run that returns, whatever the fuel, left its loop through the
    exit test. *)
Theorem warning_branches_unreachable std_sort vs n :
  std_sort_contract std_sort → length vs = S n →
  (∀ alg_name vertices uncolored,
     uncolored ≠ [] → is_Some (select_best alg_name vertices uncolored).2) ∧
  (∀ fuel alg_name st e,
     generic_greedy_run std_sort fuel vs n alg_name = Some (st, e) → e = Finished) ∧
  (∀ inner st,
     rlf_reachable inner n (mkRLF (reset_colors n vs) 0 0) st →
     total_colored_vertices st < Z.of_nat n →
     is_Some (find_max_degree_uncolored_vertex (r_vertices st) n)) ∧
  (∀ fuel st e, RLF_run fuel vs n = Some (st, e) → e = Finished) ∧
  (∀ fuel alg_name, (n ≤ fuel)%nat →
     is_Some (generic_greedy_run std_sort fuel vs n alg_name) ∧ is_Some (RLF_run fuel vs n)).
Proof.
  intros Hsort Hlen. split; [|split; [|split; [|split]]].
  - intros. by apply select_best_is_Some.
  - intros fuel alg_name st e Hrun.
    by destruct (generic_greedy_run_frame _ _ _ _ _ _ _ Hsort Hlen Hrun) as (? & _).
  - intros inner st Hreach Htot.
    assert (rlf_inv n st) as Hinv.
    { eapply rlf_reachable_inv; [|exact Hreach]. by apply rlf_inv_init. }
    destruct (find_max_degree_uncolored_vertex (r_vertices st) n) as [v|] eqn:Hfind;
      [by eexists|].
    apply find_max_degree_uncolored_vertex_None, rlf_inv_total in Hfind; [|done].
    apply Z.ltb_ge in Hfind. lia.
  - intros fuel st e Hrun. by destruct (RLF_run_spec _ _ _ _ _ Hlen Hrun) as (? & _).
  - intros fuel alg_name Hfuel. split.
    + destruct (generic_greedy_run_spec std_sort fuel vs n alg_name Hsort Hlen Hfuel)
        as (st & Hrun & _). by eexists.
    + by apply RLF_run_terminates.
Qed.

Lemma warning_branches_unreachable_witness :
  (∀ fuel alg_name st e,
     generic_greedy_run insertion_sort fuel star6 6 alg_name = Some (st, e) → e = Finished) ∧
  (∀ fuel st e, RLF_run fuel star6 6 = Some (st, e) → e = Finished).
Proof.
  destruct (warning_branches_unreachable insertion_sort star6 6)
    as (_ & H1 & _ & H2 & _); [apply insertion_sort_contract|reflexivity|].
  split; [exact H1|exact H2].
Defined.

(** C10.  Two runs of a driver on vectors that differ only in the initial
    [heuristic_value] fields return the same count and give every vertex the
    same color (or both run out of fuel). *)
Theorem initial_heuristic_values_irrelevant std_sort vs1 vs2 n fuel :
  std_sort_contract std_sort → length vs1 = S n → same_but_heuristic vs1 vs2 →
  same_result (IDO_coloring std_sort fuel vs1 n) (IDO_coloring std_sort fuel vs2 n) ∧
  same_result (DSATUR_coloring std_sort fuel vs1 n) (DSATUR_coloring std_sort fuel vs2 n) ∧
  same_result (RLF_coloring fuel vs1 n) (RLF_coloring fuel vs2 n).
Proof.
  intros Hsort Hlen Hs.
  assert (same_but_heuristic (reset_colors n vs1) (reset_colors n vs2)) as Hs'.
  { apply reset_colors_same_graph; [apply Hs|]. intros i _. apply Hs. }
  split; [|split].
  - by apply generic_greedy_coloring_equiv.
  - by apply generic_greedy_coloring_equiv.
  - by apply RLF_coloring_equiv.
Qed.

Lemma initial_heuristic_values_irrelevant_witness :
  same_but_heuristic triangle triangle_stale ∧
  heuristic_value (triangle !!! 2%nat) ≠ heuristic_value (triangle_stale !!! 2%nat) ∧
  same_result (IDO_coloring insertion_sort 3 triangle 3)
              (IDO_coloring insertion_sort 3 triangle_stale 3) ∧
  same_result (DSATUR_coloring insertion_sort 3 triangle 3)
              (DSATUR_coloring insertion_sort 3 triangle_stale 3) ∧
  same_result (RLF_coloring 3 triangle 3) (RLF_coloring 3 triangle_stale 3).
Proof.
  assert (same_but_heuristic triangle triangle_stale) as Hs
    by apply same_but_heuristic_set_heuristic.
  split; [exact Hs|]. split; [discriminate|].
  apply (initial_heuristic_values_irrelevant insertion_sort triangle triangle_stale 3 3);
    [apply insertion_sort_contract|reflexivity|exact Hs].
Defined.

(** ** The end-to-end scenarios of the specification, with a stable sort *)

Example scenario_cycle4 :
  colors_of <$> (fst <$> IDO_coloring insertion_sort 4 cycle4 4) = Some [0; 1; 0; 1] ∧
  snd <$> IDO_coloring insertion_sort 4 cycle4 4 = Some 2 ∧
  snd <$> DSATUR_coloring insertion_sort 4 cycle4 4 = Some 2 ∧
  snd <$> RLF_coloring 4 cycle4 4 = Some 2.
Proof. vm_compute. done. Qed.

Example scenario_triangle :
  snd <$> IDO_coloring insertion_sort 3 triangle 3 = Some 3 ∧
  snd <$> DSATUR_coloring insertion_sort 3 triangle 3 = Some 3 ∧
  snd <$> RLF_coloring 3 triangle 3 = Some 3.
Proof. vm_compute. done. Qed.

Example scenario_star6 :
  colors_of <$> (fst <$> IDO_coloring insertion_sort 6 star6 6) = Some [0; 1; 1; 1; 1; 1] ∧
  colors_of <$> (fst <$> DSATUR_coloring insertion_sort 6 star6 6) = Some [0; 1; 1; 1; 1; 1] ∧
  colors_of <$> (fst <$> RLF_coloring 6 star6 6) = Some [0; 1; 1; 1; 1; 1].
Proof. vm_compute. done. Qed.

Example scenario_edgeless5 :
  colors_of <$> (fst <$> IDO_coloring insertion_sort 5 edgeless5 5) = Some [0; 0; 0; 0; 0] ∧
  colors_of <$> (fst <$> DSATUR_coloring insertion_sort 5 edgeless5 5) = Some [0; 0; 0; 0; 0] ∧
  colors_of <$> (fst <$> RLF_coloring 5 edgeless5 5) = Some [0; 0; 0; 0; 0].
Proof. vm_compute. done. Qed.

Example scenario_no_vertex :
  IDO_coloring insertion_sort 0 (load_graph 0 []) 0 = Some (load_graph 0 [], 0) ∧
  DSATUR_coloring insertion_sort 0 (load_graph 0 []) 0 = Some (load_graph 0 [], 0) ∧
  RLF_coloring 0 (load_graph 0 []) 0 = Some (load_graph 0 [], 0).
Proof. vm_compute. done. Qed.

(** * More properties of the source *)

(** ** The selector of the generic driver *)

Lemma prefer_key_lt alg_name vs v b :
  prefer alg_name vs v (Some b) = true ↔
  key_lt (selector_key alg_name vs b) (selector_key alg_name vs v).
Proof.
  unfold prefer, key_lt, selector_key. simpl.
  rewrite orb_true_iff, andb_true_iff, !Z.gtb_ltb, !Z.ltb_lt, Z.eqb_eq. intuition lia.
Qed.

Lemma key_lt_le_trans k1 k2 k3 : key_le k1 k2 → key_lt k2 k3 → key_lt k1 k3.
Proof. unfold key_le, key_lt. lia. Qed.

Lemma key_lt_le k1 k2 : key_lt k1 k2 → key_le k1 k2.
Proof. unfold key_le, key_lt. lia. Qed.

Lemma not_key_lt k1 k2 : ¬ key_lt k1 k2 → key_le k2 k1.
Proof. unfold key_le, key_lt. lia. Qed.

Lemma selected_maximum alg_name vs l :
  match selected alg_name vs l with
  | None => l = []
  | Some b =>
      ∃ l1 l2, l = l1 ++ b :: l2 ∧
        (∀ v, v ∈ l1 → key_lt (selector_key alg_name vs v) (selector_key alg_name vs b)) ∧
        (∀ v, v ∈ l2 → key_le (selector_key alg_name vs v) (selector_key alg_name vs b))
  end.
Proof.
  induction l as [|v l IH] using rev_ind; [done|].
  rewrite selected_snoc. destruct (selected alg_name vs l) as [b|].
  - destruct IH as (l1 & l2 & -> & H1 & H2).
    destruct (prefer alg_name vs v (Some b)) eqn:Hp.
    + apply prefer_key_lt in Hp. exists (l1 ++ b :: l2), []. split; [done|]. split.
      * intros u [Hu|Hu]%elem_of_app.
        -- eapply key_lt_le_trans; [apply key_lt_le, H1, Hu|done].
        -- apply elem_of_cons in Hu as [->|Hu]; [done|].
           eapply key_lt_le_trans; [apply H2, Hu|done].
      * intros u Hu. by apply elem_of_nil in Hu.
    + exists l1, (l2 ++ [v]). split; [by rewrite <- app_assoc|]. split; [done|].
      intros u [Hu|Hu%list_elem_of_singleton]%elem_of_app; [by apply H2|]. subst u.
      apply not_key_lt. rewrite <- prefer_key_lt. congruence.
  - subst l. simpl. exists [], []. split; [done|].
    split; intros u Hu; by apply elem_of_nil in Hu.
Qed.

(** The selection scan returns the vertex of the list whose pair (heuristic,
    degree) is the lexicographic maximum, the first such vertex in the order
    of the list: every vertex before it is strictly smaller, none after it
    is larger.  The heuristic is that of the coloring the scan starts
    from. *)
Theorem select_best_lexicographic_maximum alg_name vs l :
  Forall (λ v, (v < length vs)%nat) l → l ≠ [] →
  ∃ b l1 l2,
    (select_best alg_name vs l).2 = Some b ∧ l = l1 ++ b :: l2 ∧
    (∀ v, v ∈ l1 → key_lt (selector_key alg_name vs v) (selector_key alg_name vs b)) ∧
    (∀ v, v ∈ l2 → key_le (selector_key alg_name vs v) (selector_key alg_name vs b)).
Proof.
  intros Hrange Hne.
  destruct (select_best_spec alg_name vs l Hrange) as (_ & -> & _).
  pose proof (selected_maximum alg_name vs l) as H.
  destruct (selected alg_name vs l) as [b|]; [|done].
  destruct H as (l1 & l2 & H). by exists b, l1, l2.
Qed.

Lemma select_best_lexicographic_maximum_witness :
  ∃ b l1 l2,
    (select_best "IDO" (g_vertices (bootstrap insertion_sort star6 6))
       [2; 3; 4; 5; 6]%nat).2 = Some b ∧
    [2; 3; 4; 5; 6]%nat = l1 ++ b :: l2.
Proof.
  destruct (select_best_lexicographic_maximum "IDO"
              (g_vertices (bootstrap insertion_sort star6 6)) [2; 3; 4; 5; 6]%nat)
    as (b & l1 & l2 & H1 & H2 & _).
  - vm_compute. repeat constructor.
  - discriminate.
  - exists b, l1, l2. split; [exact H1|exact H2].
Defined.

(** In the branch for every name but "DSATUR" the scan records, for each
    vertex of the list, the number of entries of its adjacency list that
    are colored; the scan changes no color and no adjacency. *)
Theorem ido_scan_counts_colored_neighbors alg_name vs l v :
  alg_name ≠ "DSATUR"%string → Forall (λ v, (v < length vs)%nat) l → v ∈ l →
  heuristic_value ((select_best alg_name vs l).1 !!! v) = colored_neighbor_count vs v ∧
  same_but_heuristic vs (select_best alg_name vs l).1.
Proof.
  intros Halg Hrange Hv.
  destruct (select_best_spec alg_name vs l Hrange) as (Hs & _ & H).
  split; [|done]. rewrite (H v Hv). unfold heuristic.
  destruct (String.eqb_spec alg_name "DSATUR"); [done|done].
Qed.

Lemma ido_scan_counts_colored_neighbors_witness :
  heuristic_value
    ((select_best "IDO" (g_vertices (bootstrap insertion_sort star6 6))
        [2; 3; 4; 5; 6]%nat).1 !!! 3%nat)
  = colored_neighbor_count (g_vertices (bootstrap insertion_sort star6 6)) 3.
Proof.
  destruct (ido_scan_counts_colored_neighbors "IDO"
              (g_vertices (bootstrap insertion_sort star6 6)) [2; 3; 4; 5; 6]%nat 3)
    as [H _].
  - discriminate.
  - vm_compute. repeat constructor.
  - right. left.
  - exact H.
Defined.

(** ** [isColorValid] *)

Lemma isColorValid_loop_false nbrs c vs :
  isColorValid_loop nbrs c vs = false ↔ ∃ w, w ∈ nbrs ∧ color (vs !!! w) = c.
Proof.
  induction nbrs as [|w nbrs IH]; simpl.
  - split; [done|]. intros (w & Hw & _). by apply elem_of_nil in Hw.
  - destruct (Z.eqb_spec (color (vs !!! w)) c) as [Heq|Hne].
    + split; [|done]. intros _. exists w. split; [left|done].
    + rewrite IH. split.
      * intros (u & Hu & Hc). exists u. split; [by right|done].
      * intros (u & [->|Hu]%elem_of_cons & Hc); [done|]. by exists u.
Qed.

(** [isColorValid] returns false exactly when some entry of the adjacency
    list of the vertex holds the color asked for.  So a vertex without
    neighbors accepts every color, uncolored neighbors block no color but
    -1, and the answer does not depend on heuristic values. *)
Theorem isColorValid_false_iff_neighbor_holds vs v c :
  (isColorValid (vs !!! v) c vs = false ↔
     ∃ w, w ∈ neighbors (vs !!! v) ∧ color (vs !!! w) = c) ∧
  (neighbors (vs !!! v) = [] → isColorValid (vs !!! v) c vs = true) ∧
  (c ≠ -1 → (∀ w, w ∈ neighbors (vs !!! v) → color (vs !!! w) = -1) →
     isColorValid (vs !!! v) c vs = true) ∧
  (∀ vs', same_but_heuristic vs vs' →
     isColorValid (vs' !!! v) c vs' = isColorValid (vs !!! v) c vs).
Proof.
  split; [apply isColorValid_loop_false|]. split; [|split].
  - intros Hnb. unfold isColorValid. by rewrite Hnb.
  - intros Hc Hall. apply isColorValid_feasible. intros w Hw. rewrite (Hall w Hw). lia.
  - intros vs' Hs. symmetry. by apply isColorValid_same_but_heuristic.
Qed.

(** ** [find_max_degree_uncolored_vertex] on any coloring *)

Lemma first_max_degree_uncolored_unique vs n v v' :
  first_max_degree_uncolored vs n v → first_max_degree_uncolored vs n v' → v = v'.
Proof.
  intros (Hr & Hc & Hmax & Hfirst) (Hr' & Hc' & Hmax' & Hfirst').
  destruct (Nat.lt_trichotomy v v') as [Hlt|[->|Hlt]]; [|done|].
  - specialize (Hfirst' v). specialize (Hmax v' Hr' Hc'). lia.
  - specialize (Hfirst v'). specialize (Hmax' v Hr Hc). lia.
Qed.

(** The helper returns [nullptr] exactly when every vertex is colored, and
    otherwise exactly the first vertex, in index order, among the uncolored
    vertices of the largest degree; degrees may be any integers. *)
Theorem find_max_degree_uncolored_vertex_characterised vs n :
  (find_max_degree_uncolored_vertex vs n = None ↔ all_colored vs n) ∧
  (∀ v, find_max_degree_uncolored_vertex vs n = Some v ↔
        first_max_degree_uncolored vs n v).
Proof.
  split.
  - split; [apply find_max_degree_uncolored_vertex_None|].
    intros Hall. destruct (find_max_degree_uncolored_vertex vs n) as [v|] eqn:Hfind; [|done].
    apply find_max_degree_uncolored_vertex_Some in Hfind as (Hr & Hc & _).
    by apply Hall in Hc.
  - intros v. split; [apply find_max_degree_uncolored_vertex_Some|].
    intros Hv. destruct (find_max_degree_uncolored_vertex vs n) as [v'|] eqn:Hfind.
    + apply find_max_degree_uncolored_vertex_Some in Hfind. f_equal.
      by eapply first_max_degree_uncolored_unique.
    + apply find_max_degree_uncolored_vertex_None in Hfind.
      destruct Hv as (Hr & Hc & _). by apply Hfind in Hc.
Qed.

(** ** First fit gives every vertex a neighbor of each smaller color *)

Lemma not_feasible_neighbor vs b x :
  ¬ feasible vs b x → ∃ w, w ∈ neighbors (vs !!! b) ∧ color (vs !!! w) = x.
Proof.
  intros Hnf. apply isColorValid_loop_false.
  destruct (isColorValid_loop (neighbors (vs !!! b)) x vs) eqn:Hv; [|done].
  exfalso. apply Hnf. by apply isColorValid_feasible.
Qed.

Lemma greedy_property_step alg_name n st st' :
  greedy_inv n st → greedy_property (g_vertices st) n →
  uncolored_vertices_ptrs st ≠ [] → greedy_step alg_name st = inl st' →
  greedy_property (g_vertices st') n.
Proof.
  intros Hinv Hgp Hne Hstep.
  destruct (greedy_step_spec alg_name n st Hinv Hne)
    as (b & c & st1 & Hstep1 & _ & Hb & Hg & Hcb & Hco & _ & Hfit).
  rewrite Hstep in Hstep1. injection Hstep1 as <-.
  pose proof (proj1 (gi_uncolored _ _ Hinv b) Hb) as [Hbr Hbc].
  assert (∀ x, 0 ≤ x < c → ¬ feasible (g_vertices st) b x) as Hbelow.
  { destruct Hfit as [(_ & _ & H & _)|(-> & H & _)]; done. }
  assert (∀ w x, 0 ≤ x → color (g_vertices st !!! w) = x →
                 color (g_vertices st' !!! w) = x) as Hkeep.
  { intros w x Hx Hw. rewrite Hco; [done|]. intros ->. lia. }
  intros v x Hv. rewrite <- (same_graph_neighbors _ _ v Hg).
  destruct (decide (v = b)) as [->|Hvb].
  - rewrite Hcb. intros Hx.
    destruct (not_feasible_neighbor _ _ _ (Hbelow x Hx)) as (w & Hw & Hcw).
    exists w. split; [done|]. apply Hkeep; [lia|done].
  - rewrite Hco by done. intros Hx.
    destruct (Hgp v x Hv Hx) as (w & Hw & Hcw).
    exists w. split; [done|]. apply Hkeep; [lia|done].
Qed.

Lemma bootstrap_greedy_property std_sort vs n :
  std_sort_contract std_sort → length vs = S n →
  greedy_property (g_vertices (bootstrap std_sort vs n)) n.
Proof.
  intros Hsort Hlen v x Hv Hx.
  pose proof (bootstrap_inv std_sort Hsort vs n Hlen) as Hinv.
  pose proof (bootstrap_next std_sort vs n) as Hnext.
  destruct (gi_colors _ _ Hinv v Hv); lia.
Qed.

Lemma greedy_reachable_greedy_property alg_name n st0 st :
  greedy_inv n st0 → greedy_property (g_vertices st0) n →
  greedy_reachable alg_name st0 st → greedy_property (g_vertices st) n.
Proof.
  intros Hinv Hgp. induction 1 as [|st st' Hr IH Hne Hstep]; [done|].
  eapply greedy_property_step; [|done..]. by eapply greedy_reachable_inv.
Qed.

Lemma size_list_to_set_le (l : list Z) : (size (list_to_set l : gset Z) ≤ length l)%nat.
Proof.
  induction l as [|x l IH]; [by rewrite list_to_set_nil, size_empty|].
  rewrite list_to_set_cons, size_union_alt, size_singleton. simpl.
  pose proof (subseteq_size (list_to_set l ∖ {[x]}) (list_to_set l : gset Z)) as H.
  assert (list_to_set l ∖ {[x]} ⊆ (list_to_set l : gset Z)) as Hsub by set_solver.
  specialize (H Hsub). lia.
Qed.

(** If every color below [c] is held by some element of a list, the list
    has at least [c] elements. *)
Lemma colors_below_le_length (f : nat → Z) (l : list nat) (c : Z) :
  (∀ x, 0 ≤ x < c → ∃ w, w ∈ l ∧ f w = x) → c ≤ Z.of_nat (length l).
Proof.
  intros H. destruct (decide (c ≤ 0)) as [|Hpos]; [lia|].
  assert ((list_to_set (seqZ 0 c) : gset Z) ⊆ list_to_set (f <$> l)) as Hsub.
  { intros x. rewrite !elem_of_list_to_set, elem_of_seqZ, list_elem_of_fmap.
    intros Hx. destruct (H x) as (w & Hw & Hf); [lia|]. by exists w. }
  apply subseteq_size in Hsub.
  rewrite size_list_to_set, length_seqZ in Hsub by apply NoDup_seqZ.
  pose proof (size_list_to_set_le (f <$> l)) as Hle. rewrite length_fmap in Hle. lia.
Qed.

Lemma greedy_property_color_le vs n v :
  greedy_property vs n → (1 ≤ v ≤ n)%nat →
  color (vs !!! v) ≤ Z.of_nat (length (neighbors (vs !!! v))).
Proof.
  intros Hgp Hv. apply (colors_below_le_length (λ w, color (vs !!! w))).
  intros x Hx. by apply Hgp.
Qed.

(** After a run of the generic driver every vertex has, for each color below
    its own, an entry of its adjacency list with that color; so its color
    is at most the length of its adjacency list, and the returned count is
    at most one more than the longest adjacency list. *)
Theorem generic_greedy_colors_bounded_by_neighbors std_sort fuel vs n alg_name vs' k :
  std_sort_contract std_sort → length vs = S n →
  generic_greedy_coloring std_sort fuel vs n alg_name = Some (vs', k) →
  greedy_property vs' n ∧
  (∀ v, (1 ≤ v ≤ n)%nat → color (vs' !!! v) ≤ Z.of_nat (length (neighbors (vs !!! v)))) ∧
  (∀ d, 0 ≤ d → (∀ v, (1 ≤ v ≤ n)%nat → Z.of_nat (length (neighbors (vs !!! v))) ≤ d) →
        k ≤ d + 1).
Proof.
  intros Hsort Hlen Hrun.
  destruct (generic_greedy_coloring_inv _ _ _ _ _ _ _ Hrun) as (st & e & Hrun' & -> & ->).
  pose proof (bootstrap_inv std_sort Hsort vs n Hlen) as Hinv0.
  destruct (main_loop_spec _ _ _ _ _ _ Hinv0 Hrun') as (_ & Hinv & _ & Hreach & Hg & _).
  assert (greedy_property (g_vertices st) n) as Hgp.
  { eapply greedy_reachable_greedy_property; [exact Hinv0| |exact Hreach].
    by apply bootstrap_greedy_property. }
  assert (same_graph vs (g_vertices st)) as Hg'.
  { etrans; [apply bootstrap_same_graph|exact Hg]. }
  assert (∀ v, (1 ≤ v ≤ n)%nat →
            color (g_vertices st !!! v) ≤ Z.of_nat (length (neighbors (vs !!! v)))) as Hle.
  { intros v Hv. rewrite (same_graph_neighbors _ _ v Hg'). by eapply greedy_property_color_le. }
  split; [done|]. split; [done|].
  intros d Hd Hdeg.
  destruct (decide (next_available_color_idx st ≤ 0)) as [|Hpos]; [lia|].
  destruct (gi_used _ _ Hinv (next_available_color_idx st - 1)) as (v & Hv & Hcv); [lia|].
  specialize (Hle v Hv). specialize (Hdeg v Hv). lia.
Qed.

Lemma generic_greedy_colors_bounded_by_neighbors_witness :
  ∃ vs' k, DSATUR_coloring insertion_sort 6 star6 6 = Some (vs', k) ∧
           greedy_property vs' 6 ∧ k ≤ 5 + 1.
Proof.
  unfold DSATUR_coloring.
  destruct (generic_greedy_coloring insertion_sort 6 star6 6 "DSATUR")
    as [[vs' k]|] eqn:Hrun; [|vm_compute in Hrun; discriminate Hrun].
  pose proof (generic_greedy_colors_bounded_by_neighbors insertion_sort 6 star6 6 "DSATUR"
                vs' k insertion_sort_contract eq_refl Hrun) as (H1 & _ & H3).
  exists vs', k. split; [reflexivity|]. split; [exact H1|]. apply H3; [lia|].
  intros v Hv. assert (v = 1 ∨ v = 2 ∨ v = 3 ∨ v = 4 ∨ v = 5 ∨ v = 6)%nat as Hc by lia.
  destruct Hc as [H|[H|[H|[H|[H|H]]]]]; subst v; vm_compute; discriminate.
Defined.

(** ** The classes of RLF are maximal *)

Lemma mark_forbidden_inv nbrs forbidden w :
  mark_forbidden nbrs forbidden !!! w = true → forbidden !!! w = true ∨ w ∈ nbrs.
Proof.
  unfold mark_forbidden. induction nbrs as [|x nbrs IH] using rev_ind; [by left|].
  rewrite foldl_snoc, list_lookup_total_insert. case_decide as Hx.
  - intros _. right. destruct Hx as [-> _]. apply elem_of_app. right. left.
  - intros [?|?]%IH; [by left|right]. apply elem_of_app. by left.
Qed.

Lemma covered_below_same_but_heuristic vs vs' n cur :
  same_but_heuristic vs vs' → covered_below vs n cur → covered_below vs' n cur.
Proof.
  intros [Hg Hc] H v x Hv. rewrite <- (same_graph_neighbors _ _ v Hg), <- Hc.
  intros Hx. destruct (H v x Hv Hx) as (w & Hw & Hcw). exists w. by rewrite <- Hc.
Qed.

Lemma covered_below_set_color vs n cur j :
  covered_below vs n cur → color (vs !!! j) = -1 → 0 ≤ cur → (j < length vs)%nat →
  covered_below (set_color j cur vs) n cur.
Proof.
  intros H Hcj Hcur Hlt v x Hv. rewrite neighbors_set_color.
  assert (∀ w, 0 ≤ x → color (vs !!! w) = x → color (set_color j cur vs !!! w) = x) as Hkeep.
  { intros w Hx Hw. rewrite color_set_color_ne; [done|]. intros ->. lia. }
  destruct (decide (v = j)) as [->|Hne].
  - rewrite color_set_color_eq by done. rewrite decide_False by lia. intros Hx.
    destruct (H j x Hv) as (w & Hw & Hcw); [by rewrite decide_True|].
    exists w. split; [done|]. apply Hkeep; [lia|done].
  - rewrite color_set_color_ne by done. intros Hx.
    destruct (H v x Hv Hx) as (w & Hw & Hcw).
    exists w. split; [done|]. apply Hkeep; [lia|done].
Qed.

Lemma forbidden_justified_step n forbidden vs cur j :
  forbidden_justified n forbidden vs cur →
  color (vs !!! j) = -1 → 0 ≤ cur → (1 ≤ j ≤ n)%nat → (j < length vs)%nat →
  forbidden_justified n (mark_forbidden (neighbors (vs !!! j)) forbidden)
    (set_color j cur vs) cur.
Proof.
  intros H Hcj Hcur Hj Hlt w Hw [Hf|Hin]%mark_forbidden_inv.
  - destruct (H w Hw Hf) as (u & Hu & Hcu & Hwu). exists u. split; [done|].
    rewrite neighbors_set_color, color_set_color_ne; [done|]. intros ->. lia.
  - exists j. split; [done|]. by rewrite neighbors_set_color, color_set_color_eq.
Qed.

Lemma rlf_class_loop_covered n fuel forbidden st st' :
  rlf_class_inv n forbidden st → well_formed (r_vertices st) n →
  covered_below (r_vertices st) n (current_color st) →
  forbidden_justified n forbidden (r_vertices st) (current_color st) →
  rlf_class_loop fuel n forbidden st = Some st' →
  covered_below (r_vertices st') n (current_color st + 1).
Proof.
  revert forbidden st.
  induction fuel as [|fuel IH]; intros forbidden [vs cur total] Hinv Hwf Hcov Hfj;
    simpl in *; [done|].
  pose proof (wf_length _ _ Hwf) as Hlen.
  pose proof (rc_current _ _ _ Hinv) as Hcur. simpl in Hcur.
  destruct (rlf_scan_spec forbidden vs n) as [Hs Hcand]; [lia|].
  destruct (rlf_scan forbidden vs n) as [[vs1 cand] m]. simpl in Hs, Hcand.
  pose proof Hs as [Hg Hc].
  assert (length vs1 = S n) as Hlen1 by by rewrite <- (same_graph_length vs vs1).
  destruct cand as [j|].
  - assert ((rlf_candidate forbidden vs n).1 = Some j) as Hj by by rewrite <- Hcand.
    apply rlf_candidate_Some in Hj as (Hjr & Hjc & Hjf). rewrite Hc in Hjc.
    intros Hrun. eapply (IH _ _ _ _ _ _ Hrun). Unshelve.
    + by apply (rlf_class_inv_step _ _ vs).
    + simpl. eapply well_formed_same_graph; [|exact Hwf].
      etrans; [exact Hg|apply same_graph_set_color].
    + simpl. apply covered_below_set_color; [|done|done|lia].
      by apply (covered_below_same_but_heuristic vs).
    + simpl. apply forbidden_justified_step; [|done|done|done|lia].
      intros w Hw Hf. destruct (Hfj w Hw Hf) as (u & Hu & Hcu & Hwu).
      exists u. by rewrite <- Hc, <- (same_graph_neighbors vs vs1).
  - intros [= <-]. simpl.
    assert ((rlf_candidate forbidden vs n).1 = None) as Hnone by by rewrite <- Hcand.
    intros v x Hv. rewrite <- (same_graph_neighbors _ _ v Hg), <- Hc. intros Hx.
    destruct (decide (x < (if decide (color (vs !!! v) = -1) then cur
                            else color (vs !!! v)))) as [Hlt|Hge].
    + destruct (Hcov v x Hv) as (w & Hw & Hcw); [lia|]. exists w. by rewrite <- Hc.
    + destruct (decide (color (vs !!! v) = -1)) as [Hcv|Hcv]; [|lia].
      assert (x = cur) as -> by lia.
      pose proof (rlf_candidate_None _ _ _ Hnone v Hv Hcv) as Hf.
      destruct (Hfj v Hv Hf) as (u & Hu & Hcu & Hvu).
      exists u. split; [by apply (wf_symmetric _ _ Hwf u)|]. by rewrite <- Hc.
Qed.

Lemma rlf_class_covered n inner v st st' :
  rlf_inv n st → well_formed (r_vertices st) n →
  first_max_degree_uncolored (r_vertices st) n v →
  covered_below (r_vertices st) n (current_color st) →
  rlf_class inner n v st = Some st' →
  covered_below (r_vertices st') n (current_color st').
Proof.
  intros Hinv Hwf (Hv & Hcv & _) Hcov Hrun. unfold rlf_class in Hrun.
  pose proof (rlf_class_inv_seed n st v Hinv Hv Hcv) as Hseed. simpl in Hseed.
  pose proof (wf_length _ _ Hwf) as Hlen. pose proof (ri_current _ _ Hinv) as Hcur.
  destruct (rlf_class_loop _ _ _ _) as [st1|] eqn:Hloop; [|done].
  simpl in Hrun. injection Hrun as <-. simpl.
  destruct (rlf_class_loop_spec _ _ _ _ _ Hseed Hloop) as (_ & -> & _). simpl.
  eapply (rlf_class_loop_covered _ _ _ _ _ Hseed); [| | |exact Hloop]; simpl.
  - eapply well_formed_same_graph; [apply same_graph_set_color|exact Hwf].
  - apply covered_below_set_color; [done..|lia].
  - intros w Hw [Hf|Hin]%mark_forbidden_inv.
    + rewrite lookup_total_replicate_2 in Hf by lia. done.
    + exists v. split; [done|]. split; [|done]. apply color_set_color_eq. lia.
Qed.

Lemma rlf_loop_covered n inner fuel st st' e :
  rlf_inv n st → well_formed (r_vertices st) n →
  covered_below (r_vertices st) n (current_color st) →
  rlf_loop inner fuel n st = Some (st', e) →
  covered_below (r_vertices st') n (current_color st').
Proof.
  revert st. induction fuel as [|fuel IH]; intros st Hinv Hwf Hcov; simpl;
    destruct (total_colored_vertices st <? Z.of_nat n) eqn:Htot;
    try done; try (by intros [= <- <-]).
  destruct (find_max_degree_uncolored_vertex (r_vertices st) n) as [v|] eqn:Hfind;
    [|by intros [= <- <-]].
  apply find_max_degree_uncolored_vertex_Some in Hfind.
  destruct (rlf_class inner n v st) as [st1|] eqn:Hclass; [|done]. simpl.
  destruct (rlf_class_spec _ _ _ _ _ Hinv Hfind Hclass) as (H1 & _ & H3 & _).
  apply IH; [done| |].
  - by eapply well_formed_same_graph.
  - exact (rlf_class_covered n inner v st st1 Hinv Hwf Hfind Hcov Hclass).
Qed.

(** After a run of RLF on a well-formed graph every vertex has a neighbor in
    each class built before its own: each class is a maximal independent
    set among the vertices that were uncolored when it was started.  So
    the color of a vertex is at most the length of its adjacency list, and
    the returned count is at most one more than the longest adjacency
    list. *)
Theorem RLF_classes_maximal fuel vs n vs' k :
  well_formed vs n → RLF_coloring fuel vs n = Some (vs', k) →
  greedy_property vs' n ∧
  (∀ v, (1 ≤ v ≤ n)%nat → color (vs' !!! v) ≤ Z.of_nat (length (neighbors (vs !!! v)))) ∧
  (∀ d, 0 ≤ d → (∀ v, (1 ≤ v ≤ n)%nat → Z.of_nat (length (neighbors (vs !!! v))) ≤ d) →
        k ≤ d + 1).
Proof.
  intros Hwf Hrun. pose proof (wf_length _ _ Hwf) as Hlen.
  destruct (RLF_coloring_inv _ _ _ _ _ Hrun) as (st & e & Hrun' & -> & ->).
  destruct (RLF_run_spec _ _ _ _ _ Hlen Hrun') as (_ & Hinv & Hall & Hg & _).
  assert (covered_below (r_vertices st) n (current_color st)) as Hcov.
  { eapply rlf_loop_covered; [apply (rlf_inv_init vs n Hlen)| | |exact Hrun']; simpl.
    - eapply well_formed_same_graph; [apply same_graph_reset_colors|exact Hwf].
    - intros v x Hv. rewrite color_reset_colors.
      destruct (decide ((1 ≤ v ≤ n)%nat ∧ (v < length vs)%nat)) as [_|Hn]; [|lia].
      rewrite decide_True by done. lia. }
  assert (greedy_property (r_vertices st) n) as Hgp.
  { intros v x Hv Hx. apply (Hcov v x Hv). rewrite decide_False; [done|]. by apply Hall. }
  assert (∀ v, (1 ≤ v ≤ n)%nat →
            color (r_vertices st !!! v) ≤ Z.of_nat (length (neighbors (vs !!! v)))) as Hle.
  { intros v Hv. rewrite (same_graph_neighbors _ _ v Hg). by eapply greedy_property_color_le. }
  split; [done|]. split; [done|].
  intros d Hd Hdeg. pose proof (ri_current _ _ Hinv).
  destruct (decide (current_color st ≤ 0)) as [|Hpos]; [lia|].
  destruct (ri_used _ _ Hinv (current_color st - 1)) as (v & Hv & Hcv); [lia|].
  specialize (Hle v Hv). specialize (Hdeg v Hv). lia.
Qed.

Lemma RLF_classes_maximal_witness :
  ∃ vs' k, RLF_coloring 4 cycle4 4 = Some (vs', k) ∧ greedy_property vs' 4 ∧ k ≤ 2 + 1.
Proof.
  destruct (RLF_coloring 4 cycle4 4) as [[vs' k]|] eqn:Hrun;
    [|vm_compute in Hrun; discriminate Hrun].
  pose proof (RLF_classes_maximal 4 cycle4 4 vs' k
                (well_formedb_correct cycle4 4 eq_refl) Hrun) as (H1 & _ & H3).
  exists vs', k. split; [reflexivity|]. split; [exact H1|]. apply H3; [lia|].
  intros v Hv. assert (v = 1 ∨ v = 2 ∨ v = 3 ∨ v = 4)%nat as Hc by lia.
  destruct Hc as [H|[H|[H|H]]]; subst v; vm_compute; discriminate.
Defined.

(** ** The candidate scan of RLF *)

Lemma rlf_candidate_maximum forbidden vs n :
  match rlf_candidate forbidden vs n with
  | (None, _) => ∀ k, (1 ≤ k ≤ n)%nat → ¬ eligible forbidden vs k
  | (Some j, m) =>
      m = (rlf_key forbidden vs j).1 ∧ (1 ≤ j ≤ n)%nat ∧ eligible forbidden vs j ∧
      ∀ k, (1 ≤ k ≤ n)%nat → eligible forbidden vs k →
           key_le (rlf_key forbidden vs k) (rlf_key forbidden vs j) ∧
           ((k < j)%nat → key_lt (rlf_key forbidden vs k) (rlf_key forbidden vs j))
  end.
Proof.
  induction n as [|n IH]; [simpl; intros; lia|].
  rewrite rlf_candidate_S. unfold rlf_candidate_step.
  destruct (rlf_candidate forbidden vs n) as [[j|] m]; simpl.
  - destruct IH as (-> & Hj & Hej & Hmax).
    destruct ((color (vs !!! S n) =? -1) && negb (forbidden !!! S n)) eqn:Hel.
    + apply andb_true_iff in Hel as [Hc%Z.eqb_eq Hf%negb_true_iff].
      set (adj := count_adj_in_U forbidden (neighbors (vs !!! S n))).
      destruct ((adj >? _) || _) eqn:Hb.
      * assert (key_lt (rlf_key forbidden vs j) (rlf_key forbidden vs (S n))) as Hlt.
        { unfold key_lt, rlf_key. simpl. fold adj.
          apply orb_true_iff in Hb. rewrite andb_true_iff, !Z.gtb_ltb, !Z.ltb_lt, Z.eqb_eq in Hb.
          unfold rlf_key in Hb. simpl in Hb. lia. }
        split; [done|]. split; [lia|]. split; [done|].
        intros k Hk Hek. destruct (decide (k = S n)) as [->|Hne].
        -- split; [|lia]. unfold key_le. lia.
        -- destruct (Hmax k) as [Hle _]; [lia|done|].
           assert (key_lt (rlf_key forbidden vs k) (rlf_key forbidden vs (S n)))
             by by eapply key_lt_le_trans.
           split; [by apply key_lt_le|done].
      * assert (key_le (rlf_key forbidden vs (S n)) (rlf_key forbidden vs j)) as Hle.
        { apply not_key_lt. unfold key_lt, rlf_key. simpl. fold adj.
          apply orb_false_iff in Hb as [Hb1 Hb2]. rewrite andb_false_iff in Hb2.
          rewrite !Z.gtb_ltb, !Z.ltb_ge in *. rewrite Z.eqb_neq in Hb2.
          unfold rlf_key in Hb1, Hb2. simpl in Hb1, Hb2. lia. }
        split; [done|]. split; [lia|]. split; [done|].
        intros k Hk Hek. destruct (decide (k = S n)) as [->|Hne]; [split; [done|lia]|].
        apply Hmax; [lia|done].
    + split; [done|]. split; [lia|]. split; [done|].
      intros k Hk [Hkc Hkf]. destruct (decide (k = S n)) as [->|Hne].
      * rewrite Hkc, Hkf in Hel. done.
      * apply Hmax; [lia|done].
  - destruct ((color (vs !!! S n) =? -1) && negb (forbidden !!! S n)) eqn:Hel.
    + apply andb_true_iff in Hel as [Hc%Z.eqb_eq Hf%negb_true_iff]. simpl.
      split; [done|]. split; [lia|]. split; [done|].
      intros k Hk Hek. destruct (decide (k = S n)) as [->|Hne].
      * split; [|lia]. unfold key_le. lia.
      * exfalso. apply (IH k); [lia|done].
    + simpl. intros k Hk [Hkc Hkf]. destruct (decide (k = S n)) as [->|Hne].
      * rewrite Hkc, Hkf in Hel. done.
      * apply (IH k); [lia|done].
Qed.

(** The candidate scan of RLF returns no vertex exactly when no vertex is
    both uncolored and outside the forbidden set; otherwise it returns the
    eligible vertex whose pair (neighbors in the forbidden set, degree) is
    the lexicographic maximum, the first such vertex in index order, and
    it changes heuristic values only. *)
Theorem rlf_scan_lexicographic_maximum forbidden vs n :
  (n < length vs)%nat →
  same_but_heuristic vs (rlf_scan forbidden vs n).1.1 ∧
  match (rlf_scan forbidden vs n).1.2 with
  | None => ∀ k, (1 ≤ k ≤ n)%nat → ¬ eligible forbidden vs k
  | Some j =>
      (1 ≤ j ≤ n)%nat ∧ eligible forbidden vs j ∧
      ∀ k, (1 ≤ k ≤ n)%nat → eligible forbidden vs k →
           key_le (rlf_key forbidden vs k) (rlf_key forbidden vs j) ∧
           ((k < j)%nat → key_lt (rlf_key forbidden vs k) (rlf_key forbidden vs j))
  end.
Proof.
  intros Hlen. destruct (rlf_scan_spec forbidden vs n Hlen) as [Hs Hcand].
  split; [done|]. pose proof (rlf_candidate_maximum forbidden vs n) as H.
  rewrite <- Hcand in H. destruct (rlf_scan forbidden vs n).1.2; [|done]. tauto.
Qed.

Lemma rlf_scan_lexicographic_maximum_witness :
  same_but_heuristic (set_color 1 0 cycle4)
    (rlf_scan (mark_forbidden [2; 4]%nat (replicate 5 false)) (set_color 1 0 cycle4) 4).1.1.
Proof.
  assert (4 < length (set_color 1 0 cycle4))%nat as Hlen by (vm_compute; repeat constructor).
  destruct (rlf_scan_lexicographic_maximum
              (mark_forbidden [2; 4]%nat (replicate 5 false)) (set_color 1 0 cycle4) 4 Hlen)
    as [H _].
  exact H.
Defined.

(** ** [readGraphFile] *)

Lemma length_resize k vs : length (resize k vs) = k.
Proof. unfold resize. rewrite length_app, length_take, length_replicate. lia. Qed.

Lemma length_reset_vertex i vs : length (reset_vertex i vs) = length vs.
Proof. apply length_alter. Qed.

Lemma reset_vertex_lookup i vs j :
  reset_vertex i vs !!! j =
    if decide (i = j ∧ (i < length vs)%nat) then mkVertex (Z.of_nat i) 0 (-1) [] 0
    else vs !!! j.
Proof. unfold reset_vertex. by rewrite list_lookup_total_alter. Qed.

Lemma problem_vertices_fold m base :
  let vs := foldl (λ vs i, reset_vertex i vs) base (seq 1 m) in
  length vs = length base ∧
  ∀ i, vs !!! i = if decide ((1 ≤ i ≤ m)%nat ∧ (i < length base)%nat)
                  then mkVertex (Z.of_nat i) 0 (-1) [] 0 else base !!! i.
Proof.
  simpl. induction m as [|m IH].
  - split; [done|]. intros i. rewrite decide_False; [done|lia].
  - rewrite seq_S, foldl_snoc. destruct IH as [IHl IHi]. simpl.
    split; [by rewrite length_reset_vertex|].
    intros i. rewrite reset_vertex_lookup, IHl, IHi.
    repeat case_decide; try done; try lia; destruct_and?; subst; try done; try lia.
Qed.

Lemma problem_vertices_spec nv vs :
  0 ≤ nv →
  length (problem_vertices nv vs) = S (Z.to_nat nv) ∧
  ∀ i, (1 ≤ i ≤ Z.to_nat nv)%nat →
       problem_vertices nv vs !!! i = mkVertex (Z.of_nat i) 0 (-1) [] 0.
Proof.
  intros Hnv. unfold problem_vertices.
  destruct (problem_vertices_fold (Z.to_nat nv) (resize (Z.to_nat (nv + 1)) vs)) as [Hl Hi].
  simpl in Hl, Hi. rewrite length_resize in Hl, Hi.
  replace (Z.to_nat (nv + 1)) with (S (Z.to_nat nv)) in * by lia.
  split; [done|]. intros i Hir. rewrite Hi, decide_True; [done|lia].
Qed.

Lemma length_push_edge u v vs : length (push_edge u v vs) = length vs.
Proof. unfold push_edge. by rewrite !length_alter. Qed.

Lemma push_edge_lookup u v vs i :
  (u < length vs)%nat → (v < length vs)%nat →
  push_edge u v vs !!! i =
    mkVertex (id (vs !!! i))
             (degree (vs !!! i) + (if decide (i = u) then 1 else 0)
                                + (if decide (i = v) then 1 else 0))
             (color (vs !!! i))
             (neighbors (vs !!! i) ++ (if decide (i = u) then [v] else [])
                                   ++ (if decide (i = v) then [u] else []))
             (heuristic_value (vs !!! i)).
Proof.
  intros Hu Hv. unfold push_edge.
  rewrite !list_lookup_total_alter, !length_alter.
  destruct (vs !!! i) as [a b c d e] eqn:Hi.
  repeat case_decide; destruct_and?; subst; simpl; rewrite ?Hi; simpl;
    try (exfalso; naive_solver lia);
    f_equal; rewrite ?app_nil_r, <- ?app_assoc; try done; try lia.
Qed.

Lemma add_edge_push_edge n vs u v :
  add_edge n vs (u, v) = if decide (in_range n (u, v)) then push_edge u v vs else vs.
Proof.
  unfold add_edge, in_range, push_edge. simpl.
  destruct (decide _) as [H|H]; [by rewrite bool_decide_eq_true_2|
                                 by rewrite bool_decide_eq_false_2].
Qed.

Lemma loaded_graph_push_edge vs n u v :
  loaded_graph vs n → (1 ≤ u ≤ n)%nat → (1 ≤ v ≤ n)%nat →
  loaded_graph (push_edge u v vs) n.
Proof.
  intros [[Hlen Hr Hs] Hf] Hu Hv.
  assert (u < length vs)%nat as Hul by lia. assert (v < length vs)%nat as Hvl by lia.
  assert (∀ i w, w ∈ neighbors (push_edge u v vs !!! i) ↔
                 w ∈ neighbors (vs !!! i) ∨ (i = u ∧ w = v) ∨ (i = v ∧ w = u)) as Hnb.
  { intros i w. rewrite push_edge_lookup by done. simpl.
    rewrite !elem_of_app. repeat case_decide; set_solver. }
  split; [split|].
  - by rewrite length_push_edge.
  - intros a b Ha [Hb|[[-> ->]|[-> ->]]]%Hnb; [by eapply Hr|done|done].
  - intros a b Ha [Hb|[[-> ->]|[-> ->]]]%Hnb; apply Hnb; [left; by apply Hs|tauto|tauto].
  - intros i Hi. destruct (Hf i Hi) as (H1 & H2 & H3 & H4).
    rewrite push_edge_lookup by done. simpl.
    split; [done|]. split; [done|]. split; [done|].
    rewrite H4, !length_app. repeat case_decide; simpl; lia.
Qed.

Lemma loaded_graph_problem_vertices nv vs :
  0 ≤ nv → loaded_graph (problem_vertices nv vs) (Z.to_nat nv).
Proof.
  intros Hnv. destruct (problem_vertices_spec nv vs Hnv) as [Hl Hi].
  split; [split|].
  - done.
  - intros u v Hu. by rewrite (Hi u Hu); simpl; intros ?%elem_of_nil.
  - intros u v Hu. by rewrite (Hi u Hu); simpl; intros ?%elem_of_nil.
  - intros i Hir. by rewrite (Hi i Hir).
Qed.

Lemma read_lines_loaded_graph lines st vs nv ne :
  (problem_line_found st = true → 0 ≤ l_num_vertices st →
   loaded_graph (l_vertices st) (Z.to_nat (l_num_vertices st))) →
  read_lines lines st = Loaded vs nv ne → 0 ≤ nv → loaded_graph vs (Z.to_nat nv).
Proof.
  revert st. induction lines as [|line lines IH]; intros st Hinv; simpl.
  - destruct (problem_line_found st) eqn:Hfound; [|done]. intros [= <- <- <-]. by apply Hinv.
  - destruct (read_line line st) as [st'| |] eqn:Hline; [|done..].
    apply IH. clear IH. destruct line as [| |[[[t a] b]|]|[[u v]|]|]; simpl in Hline.
    + by injection Hline as <-.
    + by injection Hline as <-.
    + destruct (_ && _); [done|]. destruct (a + 1 <? 0); [done|].
      injection Hline as <-. simpl. intros _ Ha. by apply loaded_graph_problem_vertices.
    + done.
    + destruct (problem_line_found st) eqn:Hfound; [|done]. simpl in Hline.
      destruct (_ && _) eqn:Hin; injection Hline as <-; [|intros _; by apply Hinv]. simpl.
      intros _ Hnv. rewrite !andb_true_iff, !Z.gtb_ltb, !Z.ltb_lt, !Z.leb_le in Hin.
      apply loaded_graph_push_edge; [by apply Hinv|lia|lia].
    + by destruct (problem_line_found st).
    + by injection Hline as <-.
Qed.

(** A successful read leaves a well-formed graph for the drivers: a vector
    of [num_vertices + 1] slots, adjacency entries in [1..num_vertices],
    symmetric adjacency; every vertex carries its index as id, is uncolored
    with heuristic value 0, and its degree counter is the length of its
    adjacency list (an edge listed twice counts twice). *)
Theorem readGraphFile_loads_well_formed_graph file vertices num_vertices num_edges vs nv ne :
  readGraphFile file vertices num_vertices num_edges = Loaded vs nv ne → 0 ≤ nv →
  well_formed vs (Z.to_nat nv) ∧
  ∀ i, (1 ≤ i ≤ Z.to_nat nv)%nat →
    id (vs !!! i) = Z.of_nat i ∧ color (vs !!! i) = -1 ∧ heuristic_value (vs !!! i) = 0 ∧
    degree (vs !!! i) = Z.of_nat (length (neighbors (vs !!! i))).
Proof.
  intros Hread Hnv. destruct file as [lines|]; [|done]. simpl in Hread.
  assert (loaded_graph vs (Z.to_nat nv)) as [H1 H2]; [|by split].
  eapply (read_lines_loaded_graph lines); [|exact Hread|exact Hnv]. done.
Qed.

Lemma readGraphFile_loads_well_formed_graph_witness :
  ∃ vs, readGraphFile (Some triangle_file) [] 0 0 = Loaded vs 3 3 ∧ well_formed vs 3.
Proof.
  eexists. split; [reflexivity|].
  pose proof (readGraphFile_loads_well_formed_graph (Some triangle_file) [] 0 0 _ 3 3 eq_refl)
    as H.
  destruct H as [H _]; [lia|]. exact H.
Defined.

(** ** The graph a file stands for *)

Lemma list_eq_lookup_total (l1 l2 : list Vertex) :
  length l1 = length l2 → (∀ i, (i < length l1)%nat → l1 !!! i = l2 !!! i) → l1 = l2.
Proof.
  intros Hlen H. apply list_eq. intros i.
  destruct (decide (i < length l1)%nat) as [Hi|Hi].
  - rewrite !list_lookup_lookup_total_lt by lia. f_equal. by apply H.
  - rewrite !lookup_ge_None_2 by lia. done.
Qed.

Lemma length_empty_graph n : length (empty_graph n) = S n.
Proof. unfold empty_graph. simpl. by rewrite length_map, length_seq. Qed.

Lemma empty_graph_lookup n i :
  (1 ≤ i ≤ n)%nat → empty_graph n !!! i = mkVertex (Z.of_nat i) 0 (-1) [] 0.
Proof.
  intros Hi. destruct i as [|j]; [lia|]. unfold empty_graph.
  rewrite list_lookup_total_alt. simpl.
  change (map ?f ?l) with (f <$> l). rewrite list_lookup_fmap, lookup_seq_lt by lia.
  simpl. done.
Qed.

Lemma resize_lookup_0 k vs :
  vs !!! 0%nat = default_vertex → resize k vs !!! 0%nat = default_vertex.
Proof. destruct k as [|k], vs as [|x vs]; intros H; simpl in *; done. Qed.

Lemma problem_vertices_lookup_0 nv vs :
  vs !!! 0%nat = default_vertex → problem_vertices nv vs !!! 0%nat = default_vertex.
Proof.
  intros H. unfold problem_vertices.
  destruct (problem_vertices_fold (Z.to_nat nv) (resize (Z.to_nat (nv + 1)) vs)) as [_ Hi].
  simpl in Hi. rewrite Hi, decide_False by lia. by apply resize_lookup_0.
Qed.

Lemma problem_vertices_empty_graph nv vs :
  0 ≤ nv → vs !!! 0%nat = default_vertex →
  problem_vertices nv vs = empty_graph (Z.to_nat nv).
Proof.
  intros Hnv H0. destruct (problem_vertices_spec nv vs Hnv) as [Hl Hi].
  apply list_eq_lookup_total; [by rewrite length_empty_graph|].
  rewrite Hl. intros i Hlt. destruct (decide (i = 0%nat)) as [->|Hne].
  - by rewrite problem_vertices_lookup_0.
  - rewrite Hi, empty_graph_lookup by lia. done.
Qed.

Lemma push_edge_lookup_0 u v vs :
  u ≠ 0%nat → v ≠ 0%nat → push_edge u v vs !!! 0%nat = vs !!! 0%nat.
Proof. intros Hu Hv. unfold push_edge. by rewrite !list_lookup_total_alter_ne. Qed.

Lemma read_lines_cons line rest st :
  read_lines (line :: rest) st =
    match read_line line st with
    | Continue st' => read_lines rest st'
    | ReturnFalse => Failed
    | Throw => Aborted
    end.
Proof. done. Qed.

Lemma read_line_slot_0 line st st' :
  read_line line st = Continue st' →
  l_vertices st !!! 0%nat = default_vertex → l_vertices st' !!! 0%nat = default_vertex.
Proof.
  intros Hline H0. destruct line as [| |[[[t a] b]|]|[[u v]|]|]; simpl in Hline.
  - by injection Hline as <-.
  - by injection Hline as <-.
  - destruct (_ && _); [done|]. destruct (a + 1 <? 0); [done|].
    injection Hline as <-. simpl. by apply problem_vertices_lookup_0.
  - done.
  - destruct (negb _); [done|]. destruct (_ && _) eqn:Hin; injection Hline as <-; [|done].
    rewrite !andb_true_iff, !Z.gtb_ltb, !Z.ltb_lt, !Z.leb_le in Hin.
    simpl. rewrite push_edge_lookup_0 by lia. done.
  - by destruct (negb _).
  - by injection Hline as <-.
Qed.

Lemma read_line_edge vs nv ne u v :
  0 ≤ nv →
  read_line (EdgeLine (Some (u, v))) (mkLoader vs nv ne true) =
    Continue (mkLoader (add_edge (Z.to_nat nv) vs (Z.to_nat u, Z.to_nat v)) nv ne true).
Proof.
  intros Hnv. rewrite add_edge_push_edge. unfold in_range. simpl.
  destruct (_ && _) eqn:Hin.
  - rewrite !andb_true_iff, !Z.gtb_ltb, !Z.ltb_lt, !Z.leb_le in Hin.
    rewrite decide_True by lia. done.
  - rewrite decide_False; [done|]. intros (H1 & H2 & H3 & H4).
    assert ((u >? 0) && (u <=? nv) && (v >? 0) && (v <=? nv) = true); [|congruence].
    rewrite !andb_true_iff, !Z.gtb_ltb, !Z.ltb_lt, !Z.leb_le. lia.
Qed.

Lemma foldl_add_edge_filter n edges vs :
  foldl (add_edge n) vs edges = foldl (add_edge n) vs (filter (in_range n) edges).
Proof.
  revert vs. induction edges as [|[u v] edges IH]; intros vs; [done|].
  rewrite filter_cons.
  change (foldl (add_edge n) vs ((u, v) :: edges))
    with (foldl (add_edge n) (add_edge n vs (u, v)) edges).
  rewrite IH. destruct (decide (in_range n (u, v))) as [Hin|Hout]; [done|].
  by rewrite add_edge_push_edge, decide_False.
Qed.

Lemma read_lines_after_problem l2 vs0 nv ne vs nv' ne' :
  Forall (λ l, ¬ is_problem l) l2 → 0 ≤ nv →
  read_lines l2 (mkLoader vs0 nv ne true) = Loaded vs nv' ne' →
  vs = foldl (add_edge (Z.to_nat nv)) vs0 (edge_pairs l2) ∧ nv' = nv ∧ ne' = ne.
Proof.
  intros Hnp Hnv. revert vs0. induction Hnp as [|line l2 Hline Hnp IH]; intros vs0.
  - simpl. by intros [= <- <- <-].
  - rewrite read_lines_cons. destruct line as [| |p|[[u v]|]|].
    + apply IH.
    + apply IH.
    + by destruct Hline.
    + rewrite read_line_edge by done. apply IH.
    + done.
    + apply IH.
Qed.

Lemma read_lines_last_problem l1 t nv ne l2 st vs nv' ne' :
  l_vertices st !!! 0%nat = default_vertex →
  Forall (λ l, ¬ is_problem l) l2 → 0 ≤ nv →
  read_lines (l1 ++ Problem (Some (t, nv, ne)) :: l2) st = Loaded vs nv' ne' →
  vs = load_graph (Z.to_nat nv) (edge_pairs l2) ∧ nv' = nv ∧ ne' = ne.
Proof.
  intros H0 Hnp Hnv. revert st H0. induction l1 as [|line l1 IH]; intros st H0.
  - simpl app. rewrite read_lines_cons. simpl.
    destruct (_ && _); [done|]. destruct (nv + 1 <? 0); [done|].
    rewrite problem_vertices_empty_graph by done. by apply read_lines_after_problem.
  - simpl app. rewrite read_lines_cons.
    destruct (read_line line st) as [st'| |] eqn:Hline; [|done..].
    apply IH. by eapply read_line_slot_0.
Qed.

(** The vector a successful read returns is the one built from the last
    [p] line alone: slot 0 untouched, the vertices [1..num_vertices] fresh,
    and then one adjacency entry on each side and one degree tick on each
    side for every later [e] line whose endpoints are both in
    [1..num_vertices], in file order.  Lines before that [p] line, comment,
    blank and unknown lines, and [e] lines with an endpoint out of range
    leave no trace; the two counts are those of that [p] line, whatever the
    number of [e] lines. *)
Theorem readGraphFile_graph_of_last_problem_line l1 t nv ne l2 vertices num_vertices
    num_edges vs nv' ne' :
  Forall (λ l, ¬ is_problem l) l2 → 0 ≤ nv →
  readGraphFile (Some (l1 ++ Problem (Some (t, nv, ne)) :: l2)) vertices num_vertices num_edges
    = Loaded vs nv' ne' →
  vs = load_graph (Z.to_nat nv) (filter (in_range (Z.to_nat nv)) (edge_pairs l2)) ∧
  nv' = nv ∧ ne' = ne.
Proof.
  intros Hnp Hnv Hread. simpl in Hread.
  apply read_lines_last_problem in Hread as (-> & -> & ->); [|done..].
  split; [|done]. unfold load_graph. apply foldl_add_edge_filter.
Qed.

Lemma readGraphFile_graph_of_last_problem_line_witness :
  readGraphFile (Some triangle_file) [] 0 0 = Loaded triangle 3 3.
Proof.
  destruct (readGraphFile (Some triangle_file) [] 0 0) as [vs nv ne| |] eqn:Hread;
    [|vm_compute in Hread; discriminate Hread..].
  destruct (readGraphFile_graph_of_last_problem_line [Comment] "edge" 3 3
              [EdgeLine (Some (1, 2)); EdgeLine (Some (2, 3)); Blank;
               EdgeLine (Some (1, 3)); EdgeLine (Some (3, 4))] [] 0 0 vs nv ne)
    as (-> & -> & ->).
  - repeat constructor; simpl; tauto.
  - lia.
  - exact Hread.
  - reflexivity.
Defined.

(** ** When the read fails *)

Lemma read_line_rejected line st : rejected line → read_line line st = ReturnFalse.
Proof.
  destruct line as [| |[[[t a] b]|]|[[u v]|]|]; simpl; try done.
  - intros [H1%String.eqb_neq H2%String.eqb_neq]. by rewrite H1, H2.
  - intros _. by destruct (negb _).
Qed.

Lemma read_lines_not_rejected lines st vs nv ne :
  read_lines lines st = Loaded vs nv ne → Forall (λ l, ¬ rejected l) lines.
Proof.
  revert st. induction lines as [|line lines IH]; intros st; [done|].
  rewrite read_lines_cons. destruct (read_line line st) as [st'| |] eqn:Hline; [|done..].
  intros Hrest. constructor; [|by eapply IH].
  intros Hrej. by rewrite (read_line_rejected line st Hrej) in Hline.
Qed.

Lemma read_lines_first_problem lines st vs nv ne :
  problem_line_found st = false → read_lines lines st = Loaded vs nv ne →
  ∃ l1 p l2, lines = l1 ++ Problem p :: l2 ∧ Forall is_noise l1.
Proof.
  revert st. induction lines as [|line lines IH]; intros st Hfound.
  - simpl. by rewrite Hfound.
  - rewrite read_lines_cons.
    destruct line as [| |p|f|]; simpl;
      try (intros (l1 & p & l2 & -> & Hn)%(IH _ Hfound);
           eexists (_ :: l1), p, l2; split; [done|by constructor]).
    + intros _. by exists [], p, lines.
    + by rewrite Hfound.
Qed.

Lemma read_lines_counts lines st vs nv ne :
  read_lines lines st = Loaded vs nv ne →
  (problem_line_found st = true ∧ nv = l_num_vertices st ∧ ne = l_num_edges st ∧
   Forall (λ l, ¬ is_problem l) lines) ∨
  (∃ l1 t l2, lines = l1 ++ Problem (Some (t, nv, ne)) :: l2 ∧
              Forall (λ l, ¬ is_problem l) l2 ∧ -1 ≤ nv).
Proof.
  revert st. induction lines as [|line lines IH]; intros st.
  - simpl. destruct (problem_line_found st); [|done]. intros [= _ <- <-]. by left.
  - rewrite read_lines_cons. destruct (read_line line st) as [st'| |] eqn:Hline; [|done..].
    intros [(Hf & Hnv & Hne & Hnp)|(l1 & t & l2 & -> & Hnp & Hge)]%IH.
    + destruct line as [| |[[[t a] b]|]|[[u v]|]|]; simpl in Hline.
      * injection Hline as <-. left. repeat split; try done. constructor; [by intros []|done].
      * injection Hline as <-. left. repeat split; try done. constructor; [by intros []|done].
      * destruct (_ && _); [done|]. destruct (a + 1 <? 0) eqn:Ha; [done|].
        injection Hline as <-. simpl in *. subst. right.
        exists [], t, lines. split; [done|]. split; [done|]. lia.
      * done.
      * destruct (problem_line_found st) eqn:Hfound; [|done]. simpl in Hline.
        left. destruct (_ && _); injection Hline as <-; simpl in *;
          (repeat split; try done; constructor; [by intros []|done]).
      * by destruct (negb _).
      * injection Hline as <-. left. repeat split; try done. constructor; [by intros []|done].
    + right. by exists (line :: l1), t, l2.
Qed.

(** The read returns true only for a file that could be opened, in which no
    [p] line is malformed or of a type other than "edge" and "col", no [e]
    line is malformed, only comment, blank and unknown lines come before the
    first [p] line (so no [e] line does), and the two counts returned are
    those of the last [p] line, whose vertex count is at least -1. *)
Theorem readGraphFile_true_only_if file vertices num_vertices num_edges vs nv ne :
  readGraphFile file vertices num_vertices num_edges = Loaded vs nv ne →
  ∃ lines, file = Some lines ∧
    Forall (λ l, ¬ rejected l) lines ∧
    (∃ l1 p l2, lines = l1 ++ Problem p :: l2 ∧ Forall is_noise l1) ∧
    (∃ l1 t l2, lines = l1 ++ Problem (Some (t, nv, ne)) :: l2 ∧
                Forall (λ l, ¬ is_problem l) l2) ∧
    -1 ≤ nv.
Proof.
  destruct file as [lines|]; [|done]. simpl. intros Hread. exists lines.
  split; [done|]. split; [by eapply read_lines_not_rejected|].
  split; [eapply read_lines_first_problem; [|exact Hread]; done|].
  apply read_lines_counts in Hread as [(Hf & _)|(l1 & t & l2 & -> & Hnp & Hge)]; [done|].
  split; [|done]. by exists l1, t, l2.
Qed.

Lemma readGraphFile_true_only_if_witness :
  ∃ lines, Some triangle_file = Some lines ∧ Forall (λ l, ¬ rejected l) lines.
Proof.
  destruct (readGraphFile_true_only_if (Some triangle_file) [] 0 0 triangle 3 3)
    as (lines & H1 & H2 & _).
  - reflexivity.
  - exists lines. split; [exact H1|exact H2].
Defined.

Lemma read_lines_no_problem lines st :
  problem_line_found st = false → Forall (λ l, ¬ is_problem l) lines →
  read_lines lines st = Failed.
Proof.
  intros Hfound Hnp. induction Hnp as [|line lines Hline Hnp IH].
  - simpl. by rewrite Hfound.
  - rewrite read_lines_cons. destruct line as [| |p|f|]; simpl; try done.
    by rewrite Hfound.
Qed.

(** The read returns false, without an exception, for a file that cannot be
    opened, for a file with no [p] line, and for a file in which an [e] line,
    well-formed or not, comes before every [p] line. *)
Theorem readGraphFile_false_without_problem_line file vertices num_vertices num_edges :
  match file with
  | None => True
  | Some lines =>
      Forall (λ l, ¬ is_problem l) lines ∨
      ∃ l1 f l2, lines = l1 ++ EdgeLine f :: l2 ∧ Forall (λ l, ¬ is_problem l) l1
  end →
  readGraphFile file vertices num_vertices num_edges = Failed.
Proof.
  destruct file as [lines|]; [|done]. simpl.
  intros [Hnp|(l1 & f & l2 & -> & Hnp)]; [by apply read_lines_no_problem|].
  generalize (mkLoader [] num_vertices num_edges false) (eq_refl false : problem_line_found
    (mkLoader [] num_vertices num_edges false) = false).
  intros st Hfound. induction Hnp as [|line l1 Hline Hnp IH].
  - simpl. by rewrite Hfound.
  - simpl app. rewrite read_lines_cons. destruct line as [| |p|f'|]; simpl; try done.
    by rewrite Hfound.
Qed.

Lemma readGraphFile_false_without_problem_line_witness :
  readGraphFile (Some [Comment; EdgeLine (Some (1, 2)); Problem (Some ("edge"%string, 2, 1))])
    [] 0 0 = Failed.
Proof.
  apply (readGraphFile_false_without_problem_line
           (Some [Comment; EdgeLine (Some (1, 2)); Problem (Some ("edge"%string, 2, 1))])).
  right. exists [Comment], (Some (1, 2)), [Problem (Some ("edge"%string, 2, 1))].
  split; [reflexivity|]. repeat constructor. simpl. tauto.
Defined.

Lemma read_lines_forgets lines st1 st2 :
  problem_line_found st1 = false → problem_line_found st2 = false →
  l_vertices st1 = l_vertices st2 →
  read_lines lines st1 = read_lines lines st2.
Proof.
  intros H1 H2 Hvs. induction lines as [|line lines IH]; simpl.
  - by rewrite H1, H2.
  - destruct line as [| |[[[t a] b]|]|f|]; simpl; try done.
    + rewrite Hvs. done.
    + by rewrite H1, H2.
Qed.

(** The result of a read does not depend on what the vector and the two
    counts held before the call: the vector is cleared, and the counts are
    written by a [p] line before any line reads them. *)
Theorem readGraphFile_forgets_previous_graph file vertices1 nv1 ne1 vertices2 nv2 ne2 :
  readGraphFile file vertices1 nv1 ne1 = readGraphFile file vertices2 nv2 ne2.
Proof. destruct file as [lines|]; [|done]. simpl. by apply read_lines_forgets. Qed.

(** ** Degrees *)

Lemma sum_degrees_S vs n :
  sum_degrees vs (S n) = sum_degrees vs n + degree (vs !!! S n).
Proof. unfold sum_degrees. by rewrite seq_S, foldl_snoc. Qed.

Lemma sum_degrees_push_edge u v vs m :
  (u < length vs)%nat → (v < length vs)%nat →
  sum_degrees (push_edge u v vs) m =
    sum_degrees vs m + (if decide (1 ≤ u ≤ m)%nat then 1 else 0)
                     + (if decide (1 ≤ v ≤ m)%nat then 1 else 0).
Proof.
  intros Hu Hv. induction m as [|m IH].
  - unfold sum_degrees. simpl. repeat case_decide; lia.
  - rewrite !sum_degrees_S, IH, push_edge_lookup by done. simpl.
    repeat case_decide; lia.
Qed.

Lemma sum_degrees_empty_graph n m : (m ≤ n)%nat → sum_degrees (empty_graph n) m = 0.
Proof.
  induction m as [|m IH]; intros Hm; [done|].
  rewrite sum_degrees_S, IH, empty_graph_lookup by lia. done.
Qed.

Lemma length_add_edge n vs e : length (add_edge n vs e) = length vs.
Proof.
  destruct e as [u v]. rewrite add_edge_push_edge.
  case_decide; [apply length_push_edge|done].
Qed.

Lemma sum_degrees_foldl_add_edge n edges vs :
  length vs = S n →
  sum_degrees (foldl (add_edge n) vs edges) n =
    sum_degrees vs n + 2 * Z.of_nat (length (filter (in_range n) edges)).
Proof.
  revert vs. induction edges as [|[u v] edges IH]; intros vs Hlen; [simpl; lia|].
  change (foldl (add_edge n) vs ((u, v) :: edges))
    with (foldl (add_edge n) (add_edge n vs (u, v)) edges).
  rewrite IH by by rewrite length_add_edge.
  rewrite filter_cons, add_edge_push_edge.
  destruct (decide (in_range n (u, v))) as [(H1 & H2 & H3 & H4)|Hout]; [|done].
  simpl in *. rewrite sum_degrees_push_edge by lia.
  rewrite !decide_True by lia. lia.
Qed.

(** The degree counters of a loaded graph add up to twice the number of [e]
    lines after the last [p] line that have both endpoints in range: every
    accepted line ticks two counters, or one counter twice when the two
    endpoints are the same vertex, and nothing else changes a counter.  The
    edge count of the [p] line plays no part. *)
Theorem loaded_degrees_sum_to_twice_the_edge_lines l1 t nv ne l2 vertices num_vertices
    num_edges vs nv' ne' :
  Forall (λ l, ¬ is_problem l) l2 → 0 ≤ nv →
  readGraphFile (Some (l1 ++ Problem (Some (t, nv, ne)) :: l2)) vertices num_vertices num_edges
    = Loaded vs nv' ne' →
  sum_degrees vs (Z.to_nat nv)
    = 2 * Z.of_nat (length (filter (in_range (Z.to_nat nv)) (edge_pairs l2))).
Proof.
  intros Hnp Hnv Hread. simpl in Hread.
  apply read_lines_last_problem in Hread as (-> & -> & ->); [|done..].
  unfold load_graph.
  rewrite sum_degrees_foldl_add_edge by apply length_empty_graph.
  by rewrite sum_degrees_empty_graph.
Qed.

Lemma loaded_degrees_sum_to_twice_the_edge_lines_witness :
  sum_degrees triangle (Z.to_nat 3)
    = 2 * Z.of_nat (length (filter (in_range (Z.to_nat 3))
                              (edge_pairs [EdgeLine (Some (1, 2)); EdgeLine (Some (2, 3)); Blank;
                                           EdgeLine (Some (1, 3)); EdgeLine (Some (3, 4))]))).
Proof.
  apply (loaded_degrees_sum_to_twice_the_edge_lines [Comment] "edge" 3 3
           [EdgeLine (Some (1, 2)); EdgeLine (Some (2, 3)); Blank;
            EdgeLine (Some (1, 3)); EdgeLine (Some (3, 4))] [] 0 0 triangle 3 3).
  - repeat constructor; simpl; tauto.
  - lia.
  - reflexivity.
Defined.

(** ** From the file to the colors *)

Lemma loop_free_push_edge vs n u v :
  (u < length vs)%nat → (v < length vs)%nat → u ≠ v →
  loop_free vs n → loop_free (push_edge u v vs) n.
Proof.
  intros Hu Hv Hne Hlf i Hi. specialize (Hlf i Hi).
  rewrite push_edge_lookup by done. simpl. rewrite !elem_of_app.
  repeat case_decide; set_solver.
Qed.

Lemma loop_free_problem_vertices nv vs :
  0 ≤ nv → loop_free (problem_vertices nv vs) (Z.to_nat nv).
Proof.
  intros Hnv i Hi. destruct (problem_vertices_spec nv vs Hnv) as [_ Hl].
  rewrite (Hl i Hi). simpl. apply not_elem_of_nil.
Qed.

Lemma read_lines_loop_free lines st vs nv ne :
  Forall (λ l, ¬ is_self_loop l) lines →
  (problem_line_found st = true → 0 ≤ l_num_vertices st →
   loaded_graph (l_vertices st) (Z.to_nat (l_num_vertices st)) ∧
   loop_free (l_vertices st) (Z.to_nat (l_num_vertices st))) →
  read_lines lines st = Loaded vs nv ne → 0 ≤ nv → loop_free vs (Z.to_nat nv).
Proof.
  intros Hns. revert st. induction Hns as [|line lines Hline Hns IH]; intros st Hinv.
  - simpl. destruct (problem_line_found st) eqn:Hfound; [|done].
    intros [= <- <- <-] Hnv. by apply Hinv.
  - rewrite read_lines_cons.
    destruct (read_line line st) as [st'| |] eqn:Hstep; [|done..].
    apply IH. clear IH. destruct line as [| |[[[t a] b]|]|[[u v]|]|]; simpl in Hstep.
    + by injection Hstep as <-.
    + by injection Hstep as <-.
    + destruct (_ && _); [done|]. destruct (a + 1 <? 0); [done|].
      injection Hstep as <-. simpl. intros _ Ha.
      split; [by apply loaded_graph_problem_vertices|by apply loop_free_problem_vertices].
    + done.
    + destruct (problem_line_found st) eqn:Hfound; [|done]. simpl in Hstep.
      destruct (_ && _) eqn:Hin; injection Hstep as <-; [|intros _; by apply Hinv]. simpl.
      intros _ Hnv. rewrite !andb_true_iff, !Z.gtb_ltb, !Z.ltb_lt, !Z.leb_le in Hin.
      destruct (Hinv eq_refl Hnv) as [Hlg Hlf].
      pose proof (wf_length _ _ (lg_well_formed _ _ Hlg)) as Hlen.
      split; [apply loaded_graph_push_edge; [done|lia|lia]|].
      apply loop_free_push_edge; [lia|lia| |done].
      simpl in Hline. lia.
    + by destruct (problem_line_found st).
    + by injection Hstep as <-.
Qed.

(** The three calls of [main] on a file that loads and has no [e] line from
    a vertex to itself: with the sort contract and enough fuel every call
    returns, each call leaves the shared vector properly and fully colored,
    and the adjacency the loader built is still there at the end. *)
Theorem loaded_file_is_colored_properly std_sort fuel lines vertices num_vertices num_edges
    vs nv ne :
  std_sort_contract std_sort →
  readGraphFile (Some lines) vertices num_vertices num_edges = Loaded vs nv ne →
  0 ≤ nv → Forall (λ l, ¬ is_self_loop l) lines → (Z.to_nat nv ≤ fuel)%nat →
  ∃ vs1 vs2 vs3 a b c,
    IDO_coloring std_sort fuel vs (Z.to_nat nv) = Some (vs1, a) ∧
    DSATUR_coloring std_sort fuel vs1 (Z.to_nat nv) = Some (vs2, b) ∧
    RLF_coloring fuel vs2 (Z.to_nat nv) = Some (vs3, c) ∧
    run_drivers std_sort fuel vs (Z.to_nat nv) = Some (vs3, (a, b, c)) ∧
    (proper_coloring vs1 (Z.to_nat nv) ∧ all_colored vs1 (Z.to_nat nv)) ∧
    (proper_coloring vs2 (Z.to_nat nv) ∧ all_colored vs2 (Z.to_nat nv)) ∧
    (proper_coloring vs3 (Z.to_nat nv) ∧ all_colored vs3 (Z.to_nat nv)) ∧
    same_graph vs vs3.
Proof.
  intros Hsort Hread Hnv Hns Hfuel. simpl in Hread.
  assert (well_formed vs (Z.to_nat nv)) as Hwf.
  { eapply lg_well_formed, (read_lines_loaded_graph lines); [|exact Hread|exact Hnv]. done. }
  assert (loop_free vs (Z.to_nat nv)) as Hlf.
  { eapply (read_lines_loop_free lines); [exact Hns| |exact Hread|exact Hnv]. done. }
  destruct (generic_greedy_valid std_sort fuel vs _ "IDO" Hsort Hwf Hlf Hfuel)
    as (vs1 & a & H1 & Hg1 & Hp1 & Ha1).
  destruct (generic_greedy_valid std_sort fuel vs1 _ "DSATUR" Hsort
              (well_formed_same_graph _ _ _ Hg1 Hwf) (loop_free_same_graph _ _ _ Hg1 Hlf) Hfuel)
    as (vs2 & b & H2 & Hg2 & Hp2 & Ha2).
  assert (same_graph vs vs2) as Hg12 by (by etrans).
  destruct (RLF_valid fuel vs2 _
              (well_formed_same_graph _ _ _ Hg12 Hwf) (loop_free_same_graph _ _ _ Hg12 Hlf) Hfuel)
    as (vs3 & c & H3 & Hg3 & Hp3 & Ha3).
  exists vs1, vs2, vs3, a, b, c. unfold run_drivers, IDO_coloring, DSATUR_coloring.
  rewrite H1. simpl. rewrite H2. simpl. rewrite H3. simpl.
  do 7 (split; [done|]). etrans; [exact Hg12|exact Hg3].
Qed.

Lemma loaded_file_is_colored_properly_witness :
  ∃ vs3 a b c,
    run_drivers insertion_sort 3 triangle (Z.to_nat 3) = Some (vs3, (a, b, c)) ∧
    proper_coloring vs3 (Z.to_nat 3).
Proof.
  destruct (loaded_file_is_colored_properly insertion_sort 3 triangle_file [] 0 0 triangle 3 3
              insertion_sort_contract eq_refl)
    as (vs1 & vs2 & vs3 & a & b & c & _ & _ & _ & Hr & _ & _ & [Hp _] & _).
  - lia.
  - repeat constructor; simpl; try tauto; lia.
  - simpl. lia.
  - exists vs3, a, b, c. split; [exact Hr|exact Hp].
Defined.

(** ** The calls of [main] on the shared vector *)

Lemma generic_greedy_coloring_frame std_sort fuel vs n alg_name vs' k :
  std_sort_contract std_sort → length vs = S n →
  generic_greedy_coloring std_sort fuel vs n alg_name = Some (vs', k) →
  same_graph vs vs' ∧ ∀ i, ¬ (1 ≤ i ≤ n)%nat → color (vs' !!! i) = color (vs !!! i).
Proof.
  intros Hsort Hlen Hrun.
  apply generic_greedy_coloring_inv in Hrun as (st & e & Hrun & -> & _).
  by destruct (generic_greedy_run_frame _ _ _ _ _ _ _ Hsort Hlen Hrun) as (_ & _ & _ & ? & ?).
Qed.

Lemma RLF_coloring_frame fuel vs n vs' k :
  length vs = S n → RLF_coloring fuel vs n = Some (vs', k) →
  same_graph vs vs' ∧ ∀ i, ¬ (1 ≤ i ≤ n)%nat → color (vs' !!! i) = color (vs !!! i).
Proof.
  intros Hlen Hrun. apply RLF_coloring_inv in Hrun as (st & e & Hrun & -> & _).
  by destruct (RLF_run_spec _ _ _ _ _ Hlen Hrun) as (_ & _ & _ & ? & ?).
Qed.

(** Whatever the fuel, the selector name and the colors on entry, a driver
    that returns has changed colors and heuristic values only, and no color
    outside the slots [1..num_vertices]: ids, degree counters and adjacency
    lists are as before, and so is slot 0. *)
Theorem drivers_change_colors_and_heuristics_only std_sort fuel vs n alg_name vs' k :
  std_sort_contract std_sort → well_formed vs n →
  generic_greedy_coloring std_sort fuel vs n alg_name = Some (vs', k) ∨
  RLF_coloring fuel vs n = Some (vs', k) →
  same_graph vs vs' ∧ well_formed vs' n ∧
  ∀ i, ¬ (1 ≤ i ≤ n)%nat → color (vs' !!! i) = color (vs !!! i).
Proof.
  intros Hsort Hwf Hrun. pose proof (wf_length _ _ Hwf) as Hlen.
  assert (same_graph vs vs' ∧
          ∀ i, ¬ (1 ≤ i ≤ n)%nat → color (vs' !!! i) = color (vs !!! i)) as [Hg Ho].
  { destruct Hrun as [Hrun|Hrun];
      [by eapply generic_greedy_coloring_frame|by eapply RLF_coloring_frame]. }
  split; [done|]. split; [by eapply well_formed_same_graph|done].
Qed.

Lemma drivers_change_colors_and_heuristics_only_witness :
  ∃ vs' k, RLF_coloring 6 star6 6 = Some (vs', k) ∧ same_graph star6 vs'.
Proof.
  destruct (RLF_coloring 6 star6 6) as [[vs' k]|] eqn:Hrun;
    [|vm_compute in Hrun; discriminate Hrun].
  destruct (drivers_change_colors_and_heuristics_only insertion_sort 6 star6 6 "IDO" vs' k
              insertion_sort_contract (well_formedb_correct star6 6 eq_refl) (or_intror Hrun))
    as (Hg & _).
  exists vs', k. split; [reflexivity|exact Hg].
Defined.

(** [main] runs the three drivers on one vector, each on what the one before
    it left.  Each count is the count that driver returns on the graph as
    loaded, the final colors are those RLF gives on the graph as loaded, and
    the sequence returns exactly when each driver alone does: the colors and
    heuristic values a driver leaves do not reach the next one. *)
Theorem run_drivers_as_separate_runs std_sort fuel vs n :
  std_sort_contract std_sort → well_formed vs n →
  match run_drivers std_sort fuel vs n with
  | Some (vs3, (a, b, c)) =>
      (∃ vs1, IDO_coloring std_sort fuel vs n = Some (vs1, a)) ∧
      (∃ vs2, DSATUR_coloring std_sort fuel vs n = Some (vs2, b)) ∧
      (∃ vs3', RLF_coloring fuel vs n = Some (vs3', c) ∧ same_colors vs3' vs3) ∧
      same_graph vs vs3
  | None =>
      IDO_coloring std_sort fuel vs n = None ∨
      DSATUR_coloring std_sort fuel vs n = None ∨
      RLF_coloring fuel vs n = None
  end.
Proof.
  intros Hsort Hwf. pose proof (wf_length _ _ Hwf) as Hlen.
  unfold run_drivers, IDO_coloring, DSATUR_coloring.
  destruct (generic_greedy_coloring std_sort fuel vs n "IDO") as [[vs1 a]|] eqn:H1;
    simpl; [|by left].
  destruct (generic_greedy_coloring_frame _ _ _ _ _ _ _ Hsort Hlen H1) as [Hg1 Ho1].
  assert (length vs1 = S n) as Hlen1 by (by rewrite <- (same_graph_length vs vs1)).
  pose proof (generic_greedy_coloring_equiv std_sort fuel vs vs1 n "DSATUR" Hsort Hlen
                (reset_colors_same_graph n vs vs1 Hg1 (λ i Hi, eq_sym (Ho1 i Hi)))) as He2.
  destruct (generic_greedy_coloring std_sort fuel vs1 n "DSATUR") as [[vs2 b]|] eqn:H2;
    destruct (generic_greedy_coloring std_sort fuel vs n "DSATUR") as [[vs2' b']|] eqn:H2';
    simpl; try (by inversion He2); [|by right; left].
  inversion He2 as [? ? [Hc2 Hb2]|]. simpl in *. subst.
  destruct (generic_greedy_coloring_frame _ _ _ _ _ _ _ Hsort Hlen1 H2) as [Hg2 Ho2].
  assert (same_graph vs vs2) as Hg12 by (by etrans).
  assert (length vs2 = S n) as Hlen2 by (by rewrite <- (same_graph_length vs vs2)).
  assert (∀ i, ¬ (1 ≤ i ≤ n)%nat → color (vs !!! i) = color (vs2 !!! i)) as Ho12.
  { intros i Hi. by rewrite Ho2, Ho1. }
  pose proof (RLF_coloring_equiv fuel vs vs2 n Hlen
                (reset_colors_same_graph n vs vs2 Hg12 Ho12)) as He3.
  destruct (RLF_coloring fuel vs2 n) as [[vs3 c]|] eqn:H3;
    destruct (RLF_coloring fuel vs n) as [[vs3' c']|] eqn:H3';
    simpl; try (by inversion He3); [|by right; right].
  inversion He3 as [? ? [Hc3 Hb3]|]. simpl in *. subst.
  destruct (RLF_coloring_frame _ _ _ _ _ Hlen2 H3) as [Hg3 _].
  split; [by eexists|]. split; [by eexists|]. split; [by eexists|]. by etrans.
Qed.

Lemma run_drivers_as_separate_runs_witness :
  ∃ vs3 a b c, run_drivers insertion_sort 3 triangle 3 = Some (vs3, (a, b, c)) ∧
               ∃ vs2, DSATUR_coloring insertion_sort 3 triangle 3 = Some (vs2, b).
Proof.
  pose proof (run_drivers_as_separate_runs insertion_sort 3 triangle 3
                insertion_sort_contract (well_formedb_correct triangle 3 eq_refl)) as H.
  destruct (run_drivers insertion_sort 3 triangle 3) as [[vs3 [[a b] c]]|] eqn:Hr;
    [|vm_compute in Hr; discriminate Hr].
  destruct H as (_ & H2 & _). exists vs3, a, b, c. split; [reflexivity|exact H2].
Defined.

(** ** The count and the number of vertices *)

(** A driver never returns more colors than there are vertices, whatever
    the fuel and the selector name: every color below the count is the color
    of some vertex. *)
Theorem color_count_at_most_num_vertices std_sort fuel vs n alg_name vs' k :
  std_sort_contract std_sort → well_formed vs n →
  generic_greedy_coloring std_sort fuel vs n alg_name = Some (vs', k) ∨
  RLF_coloring fuel vs n = Some (vs', k) →
  0 ≤ k ≤ Z.of_nat n.
Proof.
  intros Hsort Hwf Hrun. pose proof (wf_length _ _ Hwf) as Hlen.
  assert (0 ≤ k ∧ ∀ c, 0 ≤ c < k → ∃ v, (1 ≤ v ≤ n)%nat ∧ color (vs' !!! v) = c)
    as [Hk Hused].
  { destruct Hrun as [Hrun|Hrun].
    - apply generic_greedy_coloring_inv in Hrun as (st & e & Hrun & -> & ->).
      destruct (generic_greedy_run_frame _ _ _ _ _ _ _ Hsort Hlen Hrun) as (_ & Hinv & _).
      split; [apply (gi_next _ _ Hinv)|apply (gi_used _ _ Hinv)].
    - apply RLF_coloring_inv in Hrun as (st & e & Hrun & -> & ->).
      destruct (RLF_run_spec _ _ _ _ _ Hlen Hrun) as (_ & Hinv & _).
      split; [apply (ri_current _ _ Hinv)|apply (ri_used _ _ Hinv)]. }
  split; [done|].
  pose proof (colors_below_le_length (λ v, color (vs' !!! v)) (seq 1 n) k) as Hle.
  rewrite length_seq in Hle. apply Hle. intros x Hx.
  destruct (Hused x Hx) as (v & Hv & Hc). exists v. split; [|done].
  apply elem_of_seq. lia.
Qed.

Lemma color_count_at_most_num_vertices_witness :
  ∃ vs' k, DSATUR_coloring insertion_sort 4 cycle4 4 = Some (vs', k) ∧ 0 ≤ k ≤ 4.
Proof.
  unfold DSATUR_coloring.
  destruct (generic_greedy_coloring insertion_sort 4 cycle4 4 "DSATUR")
    as [[vs' k]|] eqn:Hrun; [|vm_compute in Hrun; discriminate Hrun].
  pose proof (color_count_at_most_num_vertices insertion_sort 4 cycle4 4 "DSATUR" vs' k
                insertion_sort_contract (well_formedb_correct cycle4 4 eq_refl)
                (or_introl Hrun)) as H.
  exists vs', k. split; [reflexivity|exact H].
Defined.

(** ** The selector name *)

Lemma compute_heuristic_not_dsatur alg_name v vs :
  alg_name ≠ "DSATUR"%string →
  compute_heuristic alg_name v vs = compute_heuristic "IDO" v vs.
Proof. intros H%String.eqb_neq. unfold compute_heuristic. by rewrite H. Qed.

Lemma select_best_not_dsatur alg_name vs l :
  alg_name ≠ "DSATUR"%string → select_best alg_name vs l = select_best "IDO" vs l.
Proof.
  intros H. unfold select_best. generalize (vs, @None nat).
  induction l as [|v l IH]; intros acc; [done|].
  cbn [foldl]. rewrite IH. f_equal. unfold scan_step.
  by rewrite (compute_heuristic_not_dsatur alg_name).
Qed.

Lemma main_loop_not_dsatur fuel alg_name st :
  alg_name ≠ "DSATUR"%string → main_loop fuel alg_name st = main_loop fuel "IDO" st.
Proof.
  intros H. revert st. induction fuel as [|fuel IH]; intros st; [done|].
  simpl. destruct (uncolored_vertices_ptrs st); [done|].
  unfold greedy_step. rewrite (select_best_not_dsatur alg_name) by done.
  destruct (select_best "IDO" _ _) as [vs [b|]]; [apply IH|done].
Qed.

(** The selector name is only compared with "DSATUR": under any other name
    the driver does what it does under "IDO", result and heuristic values
    included. *)
Theorem any_other_name_runs_IDO std_sort fuel vs n alg_name :
  alg_name ≠ "DSATUR"%string →
  generic_greedy_coloring std_sort fuel vs n alg_name = IDO_coloring std_sort fuel vs n.
Proof.
  intros H. unfold IDO_coloring, generic_greedy_coloring, generic_greedy_run.
  by rewrite (main_loop_not_dsatur fuel alg_name).
Qed.

Lemma any_other_name_runs_IDO_witness :
  generic_greedy_coloring insertion_sort 3 triangle 3 "dsatur"
  = IDO_coloring insertion_sort 3 triangle 3.
Proof. apply (any_other_name_runs_IDO insertion_sort 3 triangle 3 "dsatur"). discriminate. Defined.
